From stdpp Require Import base tactics option list strings relations.
From Stdlib Require Import ZArith Lia DecimalString.
Local Open Scope Z_scope.

(** * periodic_coroutine: the [Periodic] scheduler over a model of the asyncio loop

    The repository is one class, [Periodic]
    (src/periodic_coroutine/__init__.py).  Its methods are short, but what
    they do is decided by the asyncio primitives they call: [create_task],
    [gather], [wait_for], [sleep], [Lock], [Task.cancel].  The development
    therefore has two layers.

    - The runtime layer embeds the part of CPython 3.8's asyncio the class
      uses: futures with done-callbacks, tasks that step a coroutine between
      suspension points, the FIFO ready queue and the timer queue of the
      loop, virtual time.
    - The program layer embeds [Periodic] line by line: [__init__], [name],
      [interval], [running], [_start], [_stop], [_inner], [_run], [start],
      [stop], [get_result].  Coroutines are written as resumable bodies: a
      program point ([coro]) per suspension point of the source.

    Durations are integers (ticks of virtual time); a step of a task takes no
    time.  The unit of work is user code: it is modelled as the family the
    tests of the repository use, "sleep for a while, then return a value or
    raise", and it does not intercept cancellation. *)

(** ** Python values and exceptions *)

Inductive value :=
| VNone
| VTrue
| VStr (s : string)
| VInt (z : Z).

(** [Sentinel] is the instance made by [object()] in [__init__]: an object of
    its own, which no unit of work can build. *)
#[warnings="-register-all"]
Inductive pyobj :=
| Plain (v : value)
| Sentinel
| PyList (items : list pyobj).

Inductive exn :=
| CancelledError
| TimeoutError
| InvalidStateError
| AttributeError (attr : string)
| RuntimeError (msg : string)
| UserError (cls : string).

Definition is_cancelled_error (e : exn) : bool :=
  match e with CancelledError => true | _ => false end.

Definition is_timeout_error (e : exn) : bool :=
  match e with TimeoutError => true | _ => false end.

#[export] Instance value_eq_dec : EqDecision value.
Proof. solve_decision. Defined.

#[export] Instance exn_eq_dec : EqDecision exn.
Proof. solve_decision. Defined.

(** ** The unit of work

    [async def work(): await asyncio.sleep(w_delay); return v]
    or [...; raise e].  What a call does may depend on the arguments and on
    how many calls were made before it. *)

Inductive work_outcome :=
| Returns (v : value)
| Raises (e : exn).

Record work_run := WorkRun { w_delay : Z; w_outcome : work_outcome }.

Record coroutine_function := CoroutineFunction {
  __name__ : string;
  co_call : list value -> list (string * value) -> nat -> work_run
}.

(** ** Futures, tasks, callbacks *)

Abbreviation fid := nat (only parsing).

Inductive outcome :=
| Pending
| Cancelled
| Result (v : pyobj)
| Exception (e : exn).

(** Program points of the coroutines that run on the loop. *)
Inductive coro :=
| Run_begin                                   (* _run, not started *)
| Run_wait_for (c : nat) (g x : fid)          (* wait_for: await waiter *)
| Run_cancel_wait (c : nat) (g x y : fid)     (* _cancel_and_wait: await waiter y *)
| Inner_begin (counter : nat)                 (* _inner(counter), not started *)
| Inner_acquire (counter : nat) (f : fid)     (* Lock.acquire: await fut *)
| Inner_await (counter : nat) (t : fid)       (* await self._task *)
| Sleep_begin (delay : Z)                     (* asyncio.sleep(delay), not started *)
| Sleep_yield                                 (* __sleep0: bare yield *)
| Sleep_wait (f : fid)                        (* sleep: await future *)
| Work_begin (r : work_run)                   (* the unit of work, not started *)
| Work_yield (r : work_run)
| Work_sleep (r : work_run) (f : fid)
| Reader_begin                                (* get_result(), not started *)
| Reader_acquire (f : fid).                   (* Lock.acquire: await fut *)

Inductive callback :=
| CbWakeup (t : fid)          (* Task.__wakeup of task t *)
| CbGatherDone (g : fid)      (* gather's _done_callback, closed over outer g *)
| CbReleaseWaiter (x : fid).  (* functools.partial(_release_waiter, x) *)

Inductive fkind :=
| KPlain
| KGather (children : list fid) (nfinished : nat) (cancel_requested : bool)
| KTask (name : string) (co : coro) (fut_waiter : option fid) (must_cancel : bool).

Record future := Future {
  f_state : outcome;
  f_callbacks : list callback;
  f_kind : fkind
}.

(** What the loop runs: handles of [call_soon] and [call_later]. *)
Inductive handle :=
| HStep (t : fid)                       (* Task.__step, first step *)
| HCallback (cb : callback) (f : fid)   (* a done-callback of future f *)
| HTimerRelease (x : fid)               (* _release_waiter(x), from wait_for *)
| HTimerSetResult (f : fid)             (* _set_result_unless_cancelled(f, None) *)
| HStart                                (* self._start *)
| HStop                                 (* self._stop *)
| HCallStart (delay : option Z)         (* a caller runs p.start(delay) *)
| HCallStop (delay : option Z)          (* a caller runs p.stop(delay) *)
| HCallGetResult.                       (* a caller task reaches `await p.get_result()` *)

#[export] Instance callback_eq_dec : EqDecision callback.
Proof. solve_decision. Defined.

#[export] Instance handle_eq_dec : EqDecision handle.
Proof. solve_decision. Defined.

(** ** The scheduler object *)

Record Lock := MkLock {
  _locked : bool;
  _waiters : list fid
}.

(** Slots of the source that [__init__] may leave unset ([_result], [_task],
    [_main]) are options: reading [None] is Python's [AttributeError]. *)
Record Periodic := MkPeriodic {
  _coro : coroutine_function;
  _args : list value;
  _kwargs : list (string * value);
  _lock : Lock;
  _interval : Z;
  _running : bool;
  _result : option pyobj;
  _task : option fid;
  _main : option fid
}.

(** Ghost record of what happened, for stating properties of runs. *)
Inductive event :=
| EvCycle (m : fid) (c : nat) (inner : fid)     (* _run of task m starts iteration c *)
| EvSpawn (inner : fid) (t : fid) (name : string) (* _inner created work task t *)
| EvWrite (inner : fid) (t : fid) (v : pyobj)   (* self._result = <result of t> *)
| EvRequest (f : fid)                           (* queued on the lock with waiter f *)
| EvGrant (f : fid)                             (* waiter f resumed with the lock *)
| EvUnhandled (h : handle) (e : exn).           (* exception escaped a callback *)

(** ** The event loop with the scheduler on it *)

Record world := World {
  sched : Periodic;                 (* the Periodic instance *)
  futures : list future;            (* every future and task created so far *)
  _ready : list handle;             (* loop._ready *)
  _scheduled : list (Z * handle);   (* loop._scheduled, by due time *)
  time : Z;                         (* loop.time() *)
  ncalls : nat;                     (* calls of the unit of work so far *)
  trace : list event
}.

Definition with_sched (f : Periodic -> Periodic) (w : world) : world :=
  World (f (sched w)) (futures w) (_ready w) (_scheduled w) (time w) (ncalls w) (trace w).

Definition with_futures (f : list future -> list future) (w : world) : world :=
  World (sched w) (f (futures w)) (_ready w) (_scheduled w) (time w) (ncalls w) (trace w).

Definition with_ready (f : list handle -> list handle) (w : world) : world :=
  World (sched w) (futures w) (f (_ready w)) (_scheduled w) (time w) (ncalls w) (trace w).

Definition with_scheduled (f : list (Z * handle) -> list (Z * handle)) (w : world) : world :=
  World (sched w) (futures w) (_ready w) (f (_scheduled w)) (time w) (ncalls w) (trace w).

Definition with_time (t : Z) (w : world) : world :=
  World (sched w) (futures w) (_ready w) (_scheduled w) t (ncalls w) (trace w).

Definition count_call (w : world) : world :=
  World (sched w) (futures w) (_ready w) (_scheduled w) (time w) (S (ncalls w)) (trace w).

Definition record (e : event) (w : world) : world :=
  World (sched w) (futures w) (_ready w) (_scheduled w) (time w) (ncalls w) (trace w ++ [e]).

Definition set_lock (l : Lock) (p : Periodic) : Periodic :=
  MkPeriodic (_coro p) (_args p) (_kwargs p) l (_interval p) (_running p)
             (_result p) (_task p) (_main p).

Definition set_running (b : bool) (p : Periodic) : Periodic :=
  MkPeriodic (_coro p) (_args p) (_kwargs p) (_lock p) (_interval p) b
             (_result p) (_task p) (_main p).

Definition set_result (v : pyobj) (p : Periodic) : Periodic :=
  MkPeriodic (_coro p) (_args p) (_kwargs p) (_lock p) (_interval p) (_running p)
             (Some v) (_task p) (_main p).

Definition set_task (t : fid) (p : Periodic) : Periodic :=
  MkPeriodic (_coro p) (_args p) (_kwargs p) (_lock p) (_interval p) (_running p)
             (_result p) (Some t) (_main p).

Definition set_main (m : fid) (p : Periodic) : Periodic :=
  MkPeriodic (_coro p) (_args p) (_kwargs p) (_lock p) (_interval p) (_running p)
             (_result p) (_task p) (Some m).

(** *** loop.call_soon, loop.call_later, TimerHandle.cancel *)

Definition call_soon (h : handle) (w : world) : world :=
  with_ready (fun q => q ++ [h]) w.

(** Timers are kept by due time; among equal due times the one scheduled
    first runs first. *)
Fixpoint insert_timer (when : Z) (h : handle) (l : list (Z * handle)) : list (Z * handle) :=
  match l with
  | [] => [(when, h)]
  | (t, h') :: l' =>
      if t <=? when then (t, h') :: insert_timer when h l'
      else (when, h) :: l
  end.

Definition call_later (delay : Z) (h : handle) (w : world) : world :=
  with_scheduled (insert_timer (time w + delay) h) w.

Definition cancel_timer (h : handle) (w : world) : world :=
  with_scheduled (filter (fun th => th.2 <> h)) w.

(** *** Future *)

Definition done (w : world) (i : fid) : bool :=
  match futures w !! i with
  | Some (Future Pending _ _) => false
  | Some _ => true
  | None => false
  end.

Definition cancelled (w : world) (i : fid) : bool :=
  match futures w !! i with
  | Some (Future Cancelled _ _) => true
  | _ => false
  end.

(** [Future.result()]: the value, or the exception it raises. *)
Definition result_of_state (st : outcome) : pyobj + exn :=
  match st with
  | Pending => inr InvalidStateError
  | Cancelled => inr CancelledError
  | Result v => inl v
  | Exception e => inr e
  end.

Definition result (w : world) (i : fid) : pyobj + exn :=
  match futures w !! i with
  | Some f => result_of_state (f_state f)
  | None => inr InvalidStateError
  end.

Definition new_future (k : fkind) (cbs : list callback) (w : world) : fid * world :=
  (length (futures w), with_futures (fun l => l ++ [Future Pending cbs k]) w).

Definition create_future (w : world) : fid * world := new_future KPlain [] w.

(** [loop.create_task(coro, name=name)]: the first step is scheduled with
    [call_soon]. *)
Definition create_task (name : string) (co : coro) (cbs : list callback) (w : world)
  : fid * world :=
  let '(t, w) := new_future (KTask name co None false) cbs w in
  (t, call_soon (HStep t) w).

Definition add_done_callback (i : fid) (cb : callback) (w : world) : world :=
  match futures w !! i with
  | Some (Future Pending cbs k) =>
      with_futures (<[i := Future Pending (cbs ++ [cb]) k]>) w
  | Some _ => call_soon (HCallback cb i) w
  | None => w
  end.

Definition remove_done_callback (i : fid) (cb : callback) (w : world) : world :=
  with_futures (alter (fun f =>
    Future (f_state f) (filter (fun c => c <> cb) (f_callbacks f)) (f_kind f)) i) w.

(** The common end of [set_result], [set_exception] and [Future.cancel]: the
    state changes once, and every done-callback goes to the ready queue. *)
Definition finish (i : fid) (st : outcome) (w : world) : world :=
  match futures w !! i with
  | Some (Future Pending cbs k) =>
      let w := with_futures (<[i := Future st [] k]>) w in
      foldl (fun w cb => call_soon (HCallback cb i) w) w cbs
  | _ => w
  end.

Definition set_fut_result (i : fid) (v : pyobj) : world -> world := finish i (Result v).

Definition set_fut_exception (i : fid) (e : exn) : world -> world := finish i (Exception e).

Definition set_must_cancel (i : fid) (b : bool) (w : world) : world :=
  with_futures (alter (fun f =>
    match f_kind f with
    | KTask n co fw _ => Future (f_state f) (f_callbacks f) (KTask n co fw b)
    | _ => f
    end) i) w.

Definition set_cancel_requested (i : fid) (w : world) : world :=
  with_futures (alter (fun f =>
    match f_kind f with
    | KGather ch n _ => Future (f_state f) (f_callbacks f) (KGather ch n true)
    | _ => f
    end) i) w.

(** [cancel()] of a plain future, of a task ([Task.cancel]) and of the outer
    future of [gather] ([_GatheringFuture.cancel]).  A task passes the request
    to the future it waits for; [gather] passes it to its children.  The
    recursion follows the chain of awaits, which this program builds four
    deep at most (gather, _inner, the work task, its sleep future); [depth]
    bounds it. *)
Fixpoint cancel (depth : nat) (i : fid) (w : world) : world * bool :=
  match futures w !! i with
  | Some (Future Pending _ k) =>
      match k with
      | KPlain => (finish i Cancelled w, true)
      | KTask _ _ fw _ =>
          match fw, depth with
          | Some f, S d =>
              let '(w', b) := cancel d f w in
              if b then (w', true) else (set_must_cancel i true w', true)
          | _, _ => (set_must_cancel i true w, true)
          end
      | KGather children _ _ =>
          match depth with
          | S d =>
              let '(w', ret) :=
                foldl (fun '(w, ret) child =>
                         let '(w', b) := cancel d child w in (w', ret || b))
                      (w, false) children in
              if ret then (set_cancel_requested i w', true) else (w', false)
          | O => (w, false)
          end
      end
  | _ => (w, false)
  end.

Definition cancel_depth : nat := 8.

Definition fut_cancel (i : fid) (w : world) : world * bool := cancel cancel_depth i w.

Definition must_cancel (w : world) (i : fid) : bool :=
  match futures w !! i with
  | Some (Future _ _ (KTask _ _ _ b)) => b
  | _ => false
  end.

Definition exn_of (r : pyobj + exn) : option exn :=
  match r with inl _ => None | inr e => Some e end.

(** What [await f] evaluates to when the coroutine is resumed: the exception
    thrown into it, or else [f.result()]. *)
Definition awaited (w : world) (f : fid) (thrown : option exn) : pyobj + exn :=
  match thrown with
  | Some e => inr e
  | None => result w f
  end.

(** *** asyncio.Lock *)

Definition lock_of (w : world) : Lock := _lock (sched w).

Definition put_lock (l : Lock) (w : world) : world := with_sched (set_lock l) w.

Fixpoint remove_first (f : fid) (l : list fid) : list fid :=
  match l with
  | [] => []
  | x :: l' => if decide (x = f) then l' else x :: remove_first f l'
  end.

(** [Lock._wake_up_first]: only the head of the queue is looked at. *)
Definition _wake_up_first (w : world) : world :=
  match _waiters (lock_of w) with
  | [] => w
  | f :: _ => if done w f then w else set_fut_result f (Plain VTrue) w
  end.

(** [Lock.acquire] up to its suspension point: [None] when the lock was
    taken at once, [Some f] when the caller now awaits the new waiter [f]. *)
Definition lock_acquire (w : world) : world * option fid :=
  let l := lock_of w in
  if negb (_locked l) && forallb (cancelled w) (_waiters l)
  then (put_lock (MkLock true (_waiters l)) w, None)
  else
    let '(f, w) := create_future w in
    (record (EvRequest f) (put_lock (MkLock (_locked l) (_waiters l ++ [f])) w), Some f).

(** [Lock.acquire] from [await fut] on: the waiter leaves the queue; on
    [CancelledError] the next waiter is woken if the lock is free. *)
Definition lock_acquire_resume (f : fid) (r : pyobj + exn) (w : world) : world * option exn :=
  let l := lock_of w in
  let w := put_lock (MkLock (_locked l) (remove_first f (_waiters l))) w in
  match r with
  | inr e =>
      if is_cancelled_error e
      then ((if _locked l then w else _wake_up_first w), Some e)
      else (w, Some e)
  | inl _ =>
      (record (EvGrant f) (put_lock (MkLock true (_waiters (lock_of w))) w), None)
  end.

Definition lock_release (w : world) : world * option exn :=
  let l := lock_of w in
  if _locked l
  then (_wake_up_first (put_lock (MkLock false (_waiters l)) w), None)
  else (w, Some (RuntimeError "Lock is not acquired.")).

(** ** Coroutines *)

Inductive step_result :=
| SAwait (f : fid) (co : coro)   (* suspended on the pending future f *)
| SYield (co : coro)             (* bare yield *)
| SReturn (v : pyobj)
| SRaise (e : exn)
| SDiverge.                      (* the step does not come back *)

(** Leaving [async with self._lock]. *)
Definition aexit (r : step_result) (w : world) : world * step_result :=
  match lock_release w with
  | (w, None) => (w, r)
  | (w, Some e) => (w, SRaise e)
  end.

(** *** asyncio.sleep *)

Definition sleep_begin (delay : Z) (w : world) : world * option fid :=
  if delay <=? 0 then (w, None)
  else
    let '(f, w) := create_future w in
    (call_later delay (HTimerSetResult f) w, Some f).

Definition sleep (pc : coro) (thrown : option exn) (w : world) : world * step_result :=
  match pc with
  | Sleep_begin delay =>
      match thrown with
      | Some e => (w, SRaise e)
      | None =>
          match sleep_begin delay w with
          | (w, None) => (w, SYield Sleep_yield)
          | (w, Some f) => (w, SAwait f (Sleep_wait f))
          end
      end
  | Sleep_yield =>
      match thrown with
      | Some e => (w, SRaise e)
      | None => (w, SReturn (Plain VNone))
      end
  | Sleep_wait f =>
      let r := awaited w f thrown in
      let w := cancel_timer (HTimerSetResult f) w in
      match r with
      | inr e => (w, SRaise e)
      | inl v => (w, SReturn v)
      end
  | _ => (w, SRaise InvalidStateError)
  end.

(** *** The unit of work: [await asyncio.sleep(w_delay)], then its outcome *)

Definition work_finish (r : work_run) : step_result :=
  match w_outcome r with
  | Returns v => SReturn (Plain v)
  | Raises e => SRaise e
  end.

Definition work (pc : coro) (thrown : option exn) (w : world) : world * step_result :=
  match pc with
  | Work_begin r =>
      match thrown with
      | Some e => (w, SRaise e)
      | None =>
          match sleep_begin (w_delay r) w with
          | (w, None) => (w, SYield (Work_yield r))
          | (w, Some f) => (w, SAwait f (Work_sleep r f))
          end
      end
  | Work_yield r =>
      match thrown with
      | Some e => (w, SRaise e)
      | None => (w, work_finish r)
      end
  | Work_sleep r f =>
      let a := awaited w f thrown in
      let w := cancel_timer (HTimerSetResult f) w in
      match a with
      | inr e => (w, SRaise e)
      | inl _ => (w, work_finish r)
      end
  | _ => (w, SRaise InvalidStateError)
  end.

(** ** Periodic *)

Definition __init__ (coro : coroutine_function) (interval : Z) (args : list value)
    (ignore_exceptions : bool) (kwargs : list (string * value)) : Periodic :=
  {| _coro := coro;
     _args := args;
     _kwargs := kwargs;
     _lock := MkLock false [];
     _interval := interval;
     _running := false;
     _result := if ignore_exceptions then Some Sentinel else None;
     _task := None;
     _main := None |}.

Definition name (p : Periodic) : string := "Periodic-" +:+ __name__ (_coro p).

Definition interval (p : Periodic) : Z := _interval p.

Definition running (p : Periodic) : bool := _running p.

Definition decimal (n : nat) : string := NilZero.string_of_uint (Nat.to_uint n).

(** The name [_inner] gives the task of cycle [counter]. *)
Definition task_name (p : Periodic) (counter : nat) : string :=
  name p +:+ "-" +:+ decimal counter.

(** *** _inner *)

(** [self._result = <value of await self._task>], then leave the lock. *)
Definition _inner_assign (self t : fid) (r : pyobj + exn) (w : world) : world * step_result :=
  match r with
  | inl v =>
      aexit (SReturn (Plain VNone))
            (record (EvWrite self t v) (with_sched (set_result v) w))
  | inr e => aexit (SRaise e) w
  end.

(** Inside [async with self._lock]: [await self._task] reads the slot
    [_task] now, and does not suspend when that task is already done. *)
Definition _inner_locked (self : fid) (counter : nat) (w : world) : world * step_result :=
  match _task (sched w) with
  | Some t =>
      if done w t then _inner_assign self t (result w t) w
      else (w, SAwait t (Inner_await counter t))
  | None => aexit (SRaise (AttributeError "_task")) w
  end.

Definition _inner_begin (self : fid) (counter : nat) (w : world) : world * step_result :=
  let p := sched w in
  let r := co_call (_coro p) (_args p) (_kwargs p) (ncalls w) in
  let w := count_call w in
  let '(t, w) := create_task (task_name p counter) (Work_begin r) [] w in
  let w := record (EvSpawn self t (task_name p counter)) (with_sched (set_task t) w) in
  match lock_acquire w with
  | (w, None) => _inner_locked self counter w
  | (w, Some f) => (w, SAwait f (Inner_acquire counter f))
  end.

Definition _inner (self : fid) (pc : coro) (thrown : option exn) (w : world)
  : world * step_result :=
  match pc with
  | Inner_begin counter =>
      match thrown with
      | Some e => (w, SRaise e)
      | None => _inner_begin self counter w
      end
  | Inner_acquire counter f =>
      match lock_acquire_resume f (awaited w f thrown) w with
      | (w, Some e) => (w, SRaise e)
      | (w, None) => _inner_locked self counter w
      end
  | Inner_await counter t => _inner_assign self t (awaited w t thrown) w
  | _ => (w, SRaise InvalidStateError)
  end.

(** *** get_result *)

Definition get_result_locked (w : world) : world * step_result :=
  match _result (sched w) with
  | Some v => aexit (SReturn v) w
  | None => aexit (SRaise (AttributeError "_result")) w
  end.

Definition get_result (pc : coro) (thrown : option exn) (w : world) : world * step_result :=
  match pc with
  | Reader_begin =>
      match thrown with
      | Some e => (w, SRaise e)
      | None =>
          match lock_acquire w with
          | (w, None) => get_result_locked w
          | (w, Some f) => (w, SAwait f (Reader_acquire f))
          end
      end
  | Reader_acquire f =>
      match lock_acquire_resume f (awaited w f thrown) w with
      | (w, Some e) => (w, SRaise e)
      | (w, None) => get_result_locked w
      end
  | _ => (w, SRaise InvalidStateError)
  end.

(** *** _run *)

(** [asyncio.gather(self._inner(c), asyncio.sleep(self.interval))]: both
    coroutines become tasks, each with gather's done-callback. *)
Definition gather_inner_sleep (self : fid) (c : nat) (w : world) : fid * world :=
  let ti := length (futures w) in
  let g := (ti + 2)%nat in
  let w := record (EvCycle self c ti) w in
  let '(_, w) := create_task "" (Inner_begin c) [CbGatherDone g] w in
  let '(_, w) := create_task "" (Sleep_begin (interval (sched w))) [CbGatherDone g] w in
  new_future (KGather [ti; S ti] 0 false) [] w.

(** [with suppress(E): ...] on the exception the body ended with. *)
Definition suppress (which : exn -> bool) (r : option exn) : option exn :=
  match r with
  | Some e => if which e then None else Some e
  | None => None
  end.

(** From the exit of [wait_for] (with exception [r], if any) to the end of
    the loop body; [next] is the next iteration. *)
Definition _run_rest (next : world -> world * step_result) (g : fid) (r : option exn)
    (w : world) : world * step_result :=
  match suppress is_timeout_error r with
  | Some e => (w, SRaise e)
  | None =>
      match suppress is_cancelled_error (exn_of (result w g)) with
      | Some e => (w, SRaise e)
      | None => next w
      end
  end.

(** The loop [for c in itertools.count(1)] from iteration [c], up to the next
    suspension.  [fuel] bounds the iterations that pass without suspending;
    see [_run_loop_fuel]: one is all a step ever uses. *)
Fixpoint _run_loop (fuel : nat) (self : fid) (c : nat) (w : world) : world * step_result :=
  match fuel with
  | O => (w, SDiverge)
  | S fuel =>
      let '(g, w) := gather_inner_sleep self c w in
      let timeout := interval (sched w) in
      if timeout <=? 0 then
        (* wait_for with timeout <= 0 *)
        if done w g then _run_rest (_run_loop fuel self (S c)) g (exn_of (result w g)) w
        else
          let '(w, _) := fut_cancel g w in
          _run_rest (_run_loop fuel self (S c)) g (Some TimeoutError) w
      else
        let '(x, w) := create_future w in
        let w := call_later timeout (HTimerRelease x) w in
        let w := add_done_callback g (CbReleaseWaiter x) w in
        (w, SAwait x (Run_wait_for c g x))
  end.

Definition run_fuel : nat := 1.

Definition _run (self : fid) (pc : coro) (thrown : option exn) (w : world)
  : world * step_result :=
  match pc with
  | Run_begin =>
      match thrown with
      | Some e => (w, SRaise e)
      | None => _run_loop run_fuel self 1 w
      end
  | Run_wait_for c g x =>
      let next := _run_loop run_fuel self (S c) in
      match awaited w x thrown with
      | inr e =>
          let w :=
            if is_cancelled_error e
            then (fut_cancel g (remove_done_callback g (CbReleaseWaiter x) w)).1
            else w in
          _run_rest next g (Some e) (cancel_timer (HTimerRelease x) w)
      | inl _ =>
          if done w g then
            _run_rest next g (exn_of (result w g)) (cancel_timer (HTimerRelease x) w)
          else
            (* _cancel_and_wait(fut) *)
            let w := remove_done_callback g (CbReleaseWaiter x) w in
            let '(y, w) := create_future w in
            let w := add_done_callback g (CbReleaseWaiter y) w in
            let '(w, _) := fut_cancel g w in
            (w, SAwait y (Run_cancel_wait c g x y))
      end
  | Run_cancel_wait c g x y =>
      let next := _run_loop run_fuel self (S c) in
      let a := awaited w y thrown in
      let w := remove_done_callback g (CbReleaseWaiter y) w in
      let w := cancel_timer (HTimerRelease x) w in
      match a with
      | inr e => _run_rest next g (Some e) w
      | inl _ => _run_rest next g (Some TimeoutError) w
      end
  | _ => (w, SRaise InvalidStateError)
  end.

Definition _start (w : world) : world :=
  let '(m, w) := create_task (name (sched w) +:+ "-main") Run_begin [] w in
  with_sched (set_main m) w.

Definition _stop (w : world) : world * option exn :=
  match _main (sched w) with
  | Some m => ((fut_cancel m w).1, None)
  | None => (w, Some (AttributeError "_main"))
  end.

Definition start (delay : option Z) (w : world) : world * option exn :=
  if running (sched w) then (w, Some (RuntimeError "Coroutine is already running!"))
  else
    let w := with_sched (set_running true) w in
    match delay with
    | None => (call_soon HStart w, None)
    | Some d => (call_later d HStart w, None)
    end.

Definition stop (delay : option Z) (w : world) : world * option exn :=
  if negb (running (sched w)) then (w, Some (RuntimeError "Coroutine is already stopped!"))
  else
    let w := with_sched (set_running false) w in
    match delay with
    | None => _stop w
    | Some d => (call_later d HStop w, None)
    end.

(** ** Task stepping and the loop *)

(** The coroutine a task wraps, resumed at program point [co]. *)
Definition resume (self : fid) (co : coro) (thrown : option exn) (w : world)
  : world * step_result :=
  match co with
  | Run_begin | Run_wait_for _ _ _ | Run_cancel_wait _ _ _ _ => _run self co thrown w
  | Inner_begin _ | Inner_acquire _ _ | Inner_await _ _ => _inner self co thrown w
  | Sleep_begin _ | Sleep_yield | Sleep_wait _ => sleep co thrown w
  | Work_begin _ | Work_yield _ | Work_sleep _ _ => work co thrown w
  | Reader_begin | Reader_acquire _ => get_result co thrown w
  end.

Definition store_coro (t : fid) (co : coro) (fw : option fid) (w : world) : world :=
  with_futures (alter (fun f =>
    match f_kind f with
    | KTask n _ _ mc => Future (f_state f) (f_callbacks f) (KTask n co fw mc)
    | _ => f
    end) t) w.

(** [Task.__step(exc)]. *)
Definition task_step (t : fid) (exc : option exn) (w : world) : world :=
  match futures w !! t with
  | Some (Future Pending _ (KTask _ co _ mc)) =>
      let exc := if mc then Some CancelledError else exc in
      let w0 := store_coro t co None (set_must_cancel t false w) in
      let '(w1, r) := resume t co exc w0 in
      match r with
      | SReturn v =>
          if must_cancel w1 t then finish t Cancelled w1 else set_fut_result t v w1
      | SRaise e =>
          if is_cancelled_error e then finish t Cancelled w1 else set_fut_exception t e w1
      | SAwait f co' =>
          let w2 := add_done_callback f (CbWakeup t) w1 in
          let w3 := store_coro t co' (Some f) w2 in
          if must_cancel w3 t then
            let '(w4, b) := fut_cancel f w3 in
            if b then set_must_cancel t false w4 else w4
          else w3
      | SYield co' => call_soon (HStep t) (store_coro t co' None w1)
      | SDiverge => w
      end
  | _ => w
  end.

(** [Task.__wakeup(future)]. *)
Definition task_wakeup (t f : fid) (w : world) : world :=
  match result w f with
  | inr e => task_step t (Some e) w
  | inl _ => task_step t None w
  end.

(** gather's [_done_callback(fut)] for a child [fut] of the outer future
    [g] (return_exceptions is false). *)
Definition gather_done_callback (g child : fid) (w : world) : world :=
  match futures w !! g with
  | Some (Future st cbs (KGather children n cr)) =>
      let w := with_futures (<[g := Future st cbs (KGather children (S n) cr)]>) w in
      match st with
      | Pending =>
          if cancelled w child then set_fut_exception g CancelledError w
          else
            match result w child with
            | inr e => set_fut_exception g e w
            | inl _ =>
                if (S n =? length children)%nat then
                  if cr then set_fut_exception g CancelledError w
                  else set_fut_result g (PyList (omap (fun c =>
                         match result w c with inl v => Some v | inr _ => None end)
                         children)) w
                else w
            end
      | _ => w
      end
  | _ => w
  end.

(** [_release_waiter(waiter)]. *)
Definition release_waiter (x : fid) (w : world) : world :=
  if done w x then w else set_fut_result x (Plain VNone) w.

(** [futures._set_result_unless_cancelled(fut, None)] *)
Definition set_result_unless_cancelled (f : fid) (w : world) : world :=
  if cancelled w f then w else set_fut_result f (Plain VNone) w.

(** An exception that leaves a callback goes to the loop's exception
    handler; here it is recorded. *)
Definition unhandled (h : handle) (r : world * option exn) : world :=
  match r with
  | (w, Some e) => record (EvUnhandled h e) w
  | (w, None) => w
  end.

(** A caller task reaches [await p.get_result()]: the body of [get_result]
    starts in the caller's own step. *)
Definition call_get_result (w : world) : world :=
  let '(r, w) := new_future (KTask "caller" Reader_begin None false) [] w in
  task_step r None w.

Definition run_handle (h : handle) (w : world) : world :=
  match h with
  | HStep t => task_step t None w
  | HCallback (CbWakeup t) f => task_wakeup t f w
  | HCallback (CbGatherDone g) f => gather_done_callback g f w
  | HCallback (CbReleaseWaiter x) _ => release_waiter x w
  | HTimerRelease x => release_waiter x w
  | HTimerSetResult f => set_result_unless_cancelled f w
  | HStart => _start w
  | HStop => unhandled h (_stop w)
  | HCallStart d => unhandled h (start d w)
  | HCallStop d => unhandled h (stop d w)
  | HCallGetResult => call_get_result w
  end.

Definition is_due (now : Z) (th : Z * handle) : bool := th.1 <=? now.

(** [BaseEventLoop._run_once]: when nothing is ready, time passes until the
    first timer is due; the timers that are due join the ready queue; the
    handles that are ready now are run, those they schedule wait for the
    next iteration. *)
Definition run_once (w : world) : world :=
  let now :=
    match _ready w, _scheduled w with
    | [], (t, _) :: _ => Z.max (time w) t
    | _, _ => time w
    end in
  let batch := _ready w ++ (filter (fun th => is_due now th) (_scheduled w)).*2 in
  let w0 := World (sched w) (futures w) []
                  (filter (fun th => negb (is_due now th)) (_scheduled w))
                  now (ncalls w) (trace w) in
  foldl (fun w h => run_handle h w) w0 batch.

Definition run (n : nat) (w : world) : world := Nat.iter n run_once w.

(** A loop at time 0 with the scheduler [p] on it and a script of what
    callers will do and when. *)
Definition boot (p : Periodic) (script : list (Z * handle)) : world :=
  World p [] [] (foldl (fun l th => insert_timer th.1 th.2 l) [] script) 0 0 [].

(** ** The tests of the repository, run on the model (1 tick = 0.01 s) *)

Definition state_of (w : world) (i : fid) : option outcome := f_state <$> futures w !! i.

Definition awake_msg : coroutine_function :=
  CoroutineFunction "awake_msg" (fun _ _ _ => WorkRun 50 (Returns (VStr "Good Morning!"))).

Definition just_raise : coroutine_function :=
  CoroutineFunction "just_raise" (fun _ _ _ => WorkRun 10 (Raises (UserError "ValueError"))).

Definition test_script : list (Z * handle) :=
  [(0, HCallStart None); (1, HCallGetResult)].

Definition readers (w : world) : list outcome :=
  omap (fun f => match f_kind f with
                 | KTask _ Reader_begin _ _ | KTask _ (Reader_acquire _) _ _ => Some (f_state f)
                 | _ => None end) (futures w).

(** * Definitions used in the statements and proofs *)

Definition coro_of (f : future) : option coro :=
  match f_kind f with KTask _ co _ _ => Some co | _ => None end.

Definition name_of (f : future) : option string :=
  match f_kind f with KTask n _ _ _ => Some n | _ => None end.

Definition is_begin (co : coro) : bool :=
  match co with
  | Run_begin | Inner_begin _ | Sleep_begin _ | Work_begin _ | Reader_begin => true
  | _ => false
  end.

(** The coroutine a program point belongs to. *)
Inductive family := FRun | FInner | FSleep | FWork | FReader.

#[export] Instance family_eq_dec : EqDecision family.
Proof. solve_decision. Defined.

Definition family_of (co : coro) : family :=
  match co with
  | Run_begin | Run_wait_for _ _ _ | Run_cancel_wait _ _ _ _ => FRun
  | Inner_begin _ | Inner_acquire _ _ | Inner_await _ _ => FInner
  | Sleep_begin _ | Sleep_yield | Sleep_wait _ => FSleep
  | Work_begin _ | Work_yield _ | Work_sleep _ _ => FWork
  | Reader_begin | Reader_acquire _ => FReader
  end.

(** ** Atomic changes of the world

    Every function of the model changes the world by a sequence of the
    changes below.  [self] is the task whose step is running, if any: only
    that task moves to another program point, and only it records a cycle
    or a spawn. *)

Definition kind_step (own : bool) (k k' : fkind) : Prop :=
  match k, k' with
  | KPlain, KPlain => True
  | KGather ch _ _, KGather ch' _ _ => ch' = ch
  | KTask n co _ _, KTask n' co' _ _ =>
      n' = n /\ family_of co' = family_of co /\
      (own = false -> co' = co) /\ (co' = co \/ is_begin co' = false)
  | _, _ => False
  end.

Definition fut_step (own : bool) (f f' : future) : Prop :=
  (f_state f <> Pending -> f_state f' = f_state f) /\ kind_step own (f_kind f) (f_kind f').

Definition alloc_ok (w : world) (k : fkind) : Prop :=
  match k with
  | KTask _ co _ _ =>
      is_begin co = true /\
      match co with
      | Inner_begin c => exists m, EvCycle m c (length (futures w)) ∈ trace w
      | _ => True
      end
  | _ => True
  end.

Definition is_plain_event (e : event) : bool :=
  match e with
  | EvRequest _ | EvGrant _ | EvUnhandled _ _ => true
  | _ => false
  end.

Inductive atom (self : option fid) : world -> world -> Prop :=
| a_ready w f : atom self w (with_ready f w)
| a_scheduled w f : atom self w (with_scheduled f w)
| a_time w t : atom self w (with_time t w)
| a_count w : atom self w (count_call w)
| a_alloc w k cbs : alloc_ok w k -> atom self w (new_future k cbs w).2
| a_update w i f f' :
    futures w !! i = Some f ->
    fut_step (bool_decide (self = Some i)) f f' ->
    atom self w (with_futures (<[i := f']>) w)
| a_lock w l : atom self w (put_lock l w)
| a_running w b : atom self w (with_sched (set_running b) w)
| a_main w m : atom self w (with_sched (set_main m) w)
| a_task w t : atom self w (with_sched (set_task t) w)
| a_write w s t v :
    result w t = inl v ->
    atom self w (record (EvWrite s t v) (with_sched (set_result v) w))
| a_cycle w m c :
    self = Some m ->
    (exists f co, futures w !! m = Some f /\ coro_of f = Some co /\ family_of co = FRun) ->
    atom self w (record (EvCycle m c (length (futures w))) w)
| a_spawn w ti t c :
    self = Some ti ->
    (exists f, futures w !! ti = Some f /\ coro_of f = Some (Inner_begin c)) ->
    (exists f, futures w !! t = Some f /\ name_of f = Some (task_name (sched w) c)) ->
    atom self w (record (EvSpawn ti t (task_name (sched w) c)) w)
| a_record w e : is_plain_event e = true -> atom self w (record e w).

Definition reach (self : option fid) : relation world := rtc (atom self).

Definition task_at (w : world) (t : fid) (co : coro) : Prop :=
  exists f, futures w !! t = Some f /\ coro_of f = Some co.

Definition run_task (w : world) (t : fid) : Prop :=
  exists f co, futures w !! t = Some f /\ coro_of f = Some co /\ family_of co = FRun.

Definition suspends_in (fam : family) (r : step_result) : Prop :=
  match r with
  | SAwait _ co' | SYield co' => is_begin co' = false /\ family_of co' = fam
  | _ => True
  end.

(** The task a handle steps, if it steps one. *)
Definition stepper (w : world) (h : handle) : option fid :=
  match h with
  | HStep t | HCallback (CbWakeup t) _ => Some t
  | HCallGetResult => Some (length (futures w))
  | _ => None
  end.

(** ** Runs of the loop as sequences of atoms *)

Definition any_atom (w w' : world) : Prop := exists self, atom self w w'.

Definition evolves : relation world := rtc any_atom.

(** ** What an atom does to the trace and to the scheduler object *)

Definition is_write (e : event) : bool :=
  match e with EvWrite _ _ _ => true | _ => false end.

Definition event_ok (self : option nat) (w : world) (e : event) : Prop :=
  match e with
  | EvWrite s t v => result w t = inl v /\ _result (sched w) = Some v
  | EvCycle m c ti => self = Some m /\ ti = length (futures w) /\ run_task w m
  | EvSpawn ti t name =>
      self = Some ti /\
      exists c, task_at w ti (Inner_begin c) /\ name = task_name (sched w) c /\
                exists f, futures w !! t = Some f /\ name_of f = Some name
  | _ => True
  end.

Definition cfg (p : Periodic) : coroutine_function * list value * list (string * value) * Z :=
  (_coro p, _args p, _kwargs p, _interval p).

(** ** Invariants of every run *)

Definition written (e : event) : option pyobj :=
  match e with EvWrite _ _ v => Some v | _ => None end.

Definition last_write (tr : list event) : option pyobj := last (omap written tr).

(** [r0] is what [__init__] left in the slot. *)
Record wf (r0 : option pyobj) (w : world) : Prop := {
  wf_writes : forall s t v, EvWrite s t v ∈ trace w -> state_of w t = Some (Result v);
  wf_slot : _result (sched w) =
            match last_write (trace w) with Some v => Some v | None => r0 end;
  wf_inner : forall i f c, futures w !! i = Some f -> coro_of f = Some (Inner_begin c) ->
             exists m, EvCycle m c i ∈ trace w;
  wf_spawn : forall ti t name, EvSpawn ti t name ∈ trace w ->
             exists m c f, EvCycle m c ti ∈ trace w /\ name = task_name (sched w) c /\
                           futures w !! t = Some f /\ name_of f = Some name
}.

(** [pstate] is the part of the world the program layer owns: the runtime
    primitives leave it alone. *)
Definition pstate (w : world) : Periodic * list event := (sched w, trace w).

(** ** The cycle counter *)







(** ** Scenarios *)

(** A fresh loop with a scheduler that nobody has started. *)
Definition idle (p : Periodic) : world := boot p [].

(** test_interval_is_longer_than_blocking: interval 2.0 s, work 0.5 s. *)
Definition world_long_interval (ignore_exceptions : bool) : world :=
  boot (__init__ awake_msg 200 [] ignore_exceptions []) test_script.

(** test_interval_is_shorter_than_blocking: interval 0.2 s, work 0.5 s. *)
Definition world_short_interval (ignore_exceptions : bool) : world :=
  boot (__init__ awake_msg 20 [] ignore_exceptions []) test_script.

(** test_coroutine_throws_unhandled_exception: interval 1 s, work raises
    ValueError after 0.1 s. *)
Definition world_just_raise : world :=
  boot (__init__ just_raise 100 [] false []) [(0, HCallStart None)].

(** The fields of the scheduler other than the lock. *)
Definition frame_fields (p : Periodic) :=
  (_coro p, _args p, _kwargs p, _interval p, _running p, _result p, _task p, _main p).

(** [get_result] is given the lock in this step: at once, or because the
    waiter it queued has been woken. *)
Definition granted (pc : coro) (thrown : option exn) (w : world) : Prop :=
  match pc with
  | Reader_begin => thrown = None /\ (lock_acquire w).2 = None
  | Reader_acquire f => exists v, awaited w f thrown = inl v
  | _ => False
  end.

(** *** What a timeout and stop() do to the outstanding work *)



(** ** C6: the lock serves its queue in order *)

Definition requested (e : event) : option nat :=
  match e with EvRequest f => Some f | _ => None end.

Definition was_granted (e : event) : option nat :=
  match e with EvGrant f => Some f | _ => None end.

(** The waiters queued so far, and those that were given the lock, in order. *)
Definition requests (tr : list event) : list nat := omap requested tr.

Definition grants (tr : list event) : list nat := omap was_granted tr.

Definition kind_of (w : world) (i : nat) : option fkind := f_kind <$> futures w !! i.

(** What the rest of the program may do between two operations of the lock:
    anything that leaves the lock, and the futures queued on it, alone. *)
Record lock_env (w w' : world) : Prop := {
  env_lock : lock_of w' = lock_of w;
  env_requests : requests (trace w') = requests (trace w);
  env_grants : grants (trace w') = grants (trace w);
  env_length : (length (futures w) <= length (futures w'))%nat;
  env_waiters : forall f, f ∈ _waiters (lock_of w) ->
                state_of w' f = state_of w f /\ kind_of w' f = kind_of w f
}.

(** The operations on the lock: [acquire] up to its suspension, [release],
    the resumption of a queued task (with the outcome of its waiter, or with
    an exception thrown into it), the cancellation of a waiter (what
    [Task.cancel] of a queued task does), and steps of the rest. *)
Inductive lock_step : world -> world -> Prop :=
| ls_acquire w : lock_step w (lock_acquire w).1
| ls_release w : lock_step w (lock_release w).1
| ls_resume w f thrown :
    f ∈ _waiters (lock_of w) ->
    lock_step w (lock_acquire_resume f (awaited w f thrown) w).1
| ls_cancel w f : f ∈ _waiters (lock_of w) -> lock_step w (fut_cancel f w).1
| ls_env w w' : lock_env w w' -> lock_step w w'.

Record lock_inv (w : world) : Prop := {
  li_nodup : NoDup (requests (trace w));
  li_bound : forall f, f ∈ requests (trace w) -> (f < length (futures w))%nat;
  li_order : exists R1 R2, requests (trace w) = R1 ++ R2 /\
               grants (trace w) `sublist_of` R1 /\
               _waiters (lock_of w) `sublist_of` R2;
  li_plain : forall f, f ∈ _waiters (lock_of w) -> kind_of w f = Some KPlain;
  li_head : forall f v, f ∈ _waiters (lock_of w) ->
              state_of w f = Some (Result v) -> head (_waiters (lock_of w)) = Some f
}.

(** *** The two users of the lock go through these operations *)

Definition lock_steps : relation world := rtc lock_step.

(** The program point of a task that is queued on the lock, with its waiter. *)
Definition acq_pc (co : coro) : option fid :=
  match co with
  | Inner_acquire _ f | Reader_acquire f => Some f
  | _ => None
  end.

(** A coroutine queued on the lock is resumed with its waiter in the queue. *)
Definition queued (w : world) (pc : coro) : Prop :=
  forall f, acq_pc pc = Some f -> f ∈ _waiters (lock_of w).

(** ** The lock on the running loop

    The lock serves its queue in order as long as the rest of the program
    leaves its waiters alone.  On the loop this holds because the futures
    that timers and [_release_waiter] complete are never waiters of the
    lock, and because a task that is queued on the lock is resumed with its
    waiter still in the queue. *)

Definition cb_tgt (cb : callback) : option fid :=
  match cb with CbReleaseWaiter x => Some x | _ => None end.

(** The future a handle completes when it runs. *)
Definition tgt (h : handle) : option fid :=
  match h with
  | HTimerSetResult f | HTimerRelease f => Some f
  | HCallback cb _ => cb_tgt cb
  | _ => None
  end.

(** A plain future that exists and was never queued on the lock. *)
Definition foreign (w : world) (x : fid) : Prop :=
  (x < length (futures w))%nat /\ (x ∉ requests (trace w)) /\ kind_of w x = Some KPlain.

Definition cb_ok (w : world) (cb : callback) : Prop :=
  forall x, cb_tgt cb = Some x -> foreign w x.

Definition handle_ok (w : world) (h : handle) : Prop :=
  forall x, tgt h = Some x -> foreign w x.

Record loop_inv (w : world) : Prop := {
  inv_lock : lock_inv w;
  inv_ready : forall h, h ∈ _ready w -> handle_ok w h;
  inv_scheduled : forall th, th ∈ _scheduled w -> handle_ok w th.2;
  inv_callbacks : forall i f cb,
    futures w !! i = Some f -> cb ∈ f_callbacks f -> cb_ok w cb
}.

(** From [w] to [w'] the invariant is kept, no waiter left the queue except
    [d], and no future was lost or queued on the lock. *)
Record keeps (d : option fid) (w w' : world) : Prop := {
  k_inv : loop_inv w';
  k_waiters : forall x, x ∈ _waiters (lock_of w) -> Some x <> d ->
                x ∈ _waiters (lock_of w');
  k_length : (length (futures w) <= length (futures w'))%nat;
  k_foreign : forall x, foreign w x -> foreign w' x
}.

(** *** Tasks queued on the lock *)

(** Task [t] is pending at [await fut] in [Lock.acquire], with waiter [f]. *)
Definition acq (w : world) (t f : fid) : Prop :=
  exists cbs n co fw mc,
    futures w !! t = Some (Future Pending cbs (KTask n co fw mc)) /\ acq_pc co = Some f.

(** Every task that waits for the lock has its waiter in the queue, and no
    two of them share a waiter. *)
Record acq_inv (w : world) : Prop := {
  acq_queued : forall t f, acq w t f -> f ∈ _waiters (lock_of w);
  acq_unique : forall t1 t2 f, acq w t1 f -> acq w t2 f -> t1 = t2
}.

(** A coroutine that suspends in [Lock.acquire] has just queued a fresh
    waiter. *)
Definition queues_in (w0 : world) (r : world * step_result) : Prop :=
  match r.2 with
  | SAwait _ co' | SYield co' =>
      forall f, acq_pc co' = Some f ->
        f ∈ _waiters (lock_of r.1) /\ (length (futures w0) <= f)%nat
  | _ => True
  end.

(** A script of what callers do: calls of [start], [stop] and
    [get_result]. *)
Definition is_call (h : handle) : bool :=
  match h with
  | HCallStart _ | HCallStop _ | HCallGetResult => true
  | _ => false
  end.

Definition caller_script (script : list (Z * handle)) : Prop :=
  Forall (fun th => is_call th.2 = true) script.

(** The unit of work of the scenario below returns the number of calls made
    before it, so that the values of two writers differ. *)
Definition call_index : coroutine_function :=
  CoroutineFunction "call_index" (fun _ _ n => WorkRun 50 (Returns (VInt (Z.of_nat n)))).

(** Two driving loops at once: [stop(5.0)] clears the running flag at once
    and cancels the first loop five seconds later, so [start()] is accepted
    again.  The caller's [get_result()] at 0.01 s queues behind the first
    writer; the writer of the second loop queues behind the caller. *)
Definition world_two_writers : world :=
  boot (__init__ call_index 200 [] false [])
       [(0, HCallStart None); (1, HCallGetResult);
        (2, HCallStop (Some 500)); (3, HCallStart None)].

(** ** A non-positive interval *)

(** What [gather(self._inner(c), sleep(interval))] adds to the heap: the two
    tasks and the outer future. *)
Definition cycle_tasks (w : world) (c : nat) : list future :=
  let g := (length (futures w) + 2)%nat in
  [Future Pending [CbGatherDone g] (KTask "" (Inner_begin c) None false);
   Future Pending [CbGatherDone g] (KTask "" (Sleep_begin (interval (sched w))) None false);
   Future Pending [] (KGather [length (futures w); S (length (futures w))] 0 false)].

Definition cancelled_cycle_tasks (w : world) (c : nat) : list future :=
  let g := (length (futures w) + 2)%nat in
  [Future Pending [CbGatherDone g] (KTask "" (Inner_begin c) None true);
   Future Pending [CbGatherDone g] (KTask "" (Sleep_begin (interval (sched w))) None true);
   Future Pending [] (KGather [length (futures w); S (length (futures w))] 0 true)].

Definition control (p : Periodic) : bool * option fid := (_running p, _main p).

(** ** From one cycle to the next *)

(** What the start of cycle [c] in [_run] does to the world [w]: the cycle is
    recorded, the tasks of [_inner(c)] and [sleep(interval)] and their gather
    are created, and [wait_for] leaves a waiter with its timer, due one
    interval from now. *)
Definition begins_cycle (m : fid) (c : nat) (w : world) (r : world * step_result) : Prop :=
  let L := length (futures w) in
  r.2 = SAwait (L + 3) (Run_wait_for c (L + 2) (L + 3)) /\
  trace r.1 = trace w ++ [EvCycle m c L] /\
  sched r.1 = sched w /\ ncalls r.1 = ncalls w /\ time r.1 = time w /\
  _ready r.1 = _ready w ++ [HStep L; HStep (S L)] /\
  _scheduled r.1 = insert_timer (time w + interval (sched w)) (HTimerRelease (L + 3)) (_scheduled w) /\
  futures r.1 = futures w ++
    [Future Pending [CbGatherDone (L + 2)] (KTask "" (Inner_begin c) None false);
     Future Pending [CbGatherDone (L + 2)]
       (KTask "" (Sleep_begin (interval (sched w))) None false);
     Future Pending [CbReleaseWaiter (L + 3)] (KGather [L; S L] 0 false);
     Future Pending [] KPlain].

(** ** Which task a queued [_inner] awaits *)

(** Three driving loops at once ([stop(5.0)] then [start()], twice): three
    [_inner] overlap, each with a work task of its own; the unit of work
    returns its call index. *)
Definition world_three_writers : world :=
  boot (__init__ call_index 200 [] false [])
       [(0, HCallStart None); (2, HCallStop (Some 500)); (3, HCallStart None);
        (4, HCallStop (Some 500)); (5, HCallStart None)].

(** ** The cycle counter

    Each iteration of [_run] is recorded with the task [_run] created for
    [_inner]; that task is new, so no two iterations share it. *)





(** ** A failure of the work, from the raise to the end of the loop *)





(** ** Mutual exclusion and progress of the lock

    [_inner] is the only coroutine that suspends inside
    [async with self._lock]: at [await self._task].  A task suspended there
    holds the lock. *)

(** The program point of a pending task. *)
Definition task_pc (x : future) : option coro :=
  match x with
  | Future Pending _ (KTask _ co _ _) => Some co
  | _ => None
  end.

Definition pc (w : world) (t : fid) : option coro := futures w !! t ≫= task_pc.

Definition crit_pc (co : coro) : bool :=
  match co with Inner_await _ _ => true | _ => false end.

Definition holder (w : world) (t : fid) : bool :=
  match pc w t with Some co => crit_pc co | None => false end.

(** The future a task suspended on the lock is waiting for: the waiter it
    queued, or, inside the lock, the work task. *)
Definition waits_on (co : coro) : option fid :=
  match co with
  | Inner_acquire _ f | Reader_acquire f => Some f
  | Inner_await _ t => Some t
  | _ => None
  end.

(** While a task holds the lock the lock is locked, at most one task holds
    it, and a waiter is woken only when the lock is free.  [self] is the task
    that is stepping, if any: between the lines of its step it is left out. *)
Record mutex (self : option fid) (w : world) : Prop := {
  mx_locked : forall t, Some t <> self -> holder w t = true -> _locked (lock_of w) = true;
  mx_unique : forall t1 t2, Some t1 <> self -> Some t2 <> self ->
                holder w t1 = true -> holder w t2 = true -> t1 = t2;
  mx_woken : forall f v, f ∈ _waiters (lock_of w) ->
               state_of w f = Some (Result v) -> _locked (lock_of w) = false
}.

(** The lock is locked only while a task holds it. *)
Definition held (self : option fid) (w : world) : Prop :=
  _locked (lock_of w) = true -> exists t, Some t <> self /\ holder w t = true.

Definition full (self : option fid) (w : world) : Prop := mutex self w /\ held self w.

(** The lock is taken by the task that is stepping. *)
Definition owned (self : option fid) (w : world) : Prop :=
  mutex self w /\ _locked (lock_of w) = true /\
  forall t, Some t <> self -> holder w t = false.

(** The step ends suspended inside the lock. *)
Definition crit (r : step_result) : bool :=
  match r with
  | SAwait _ co | SYield co => crit_pc co
  | _ => false
  end.

(** What every function of the model keeps, but for the task that steps
    ([self]): pending tasks stay at their program points, new tasks start at
    the beginning, what is ready stays ready, a future that is done stays as
    it is, a wake-up that is registered on a future is scheduled when the
    future ends, and the queue of the lock only gets new futures. *)
Record stable (self : option fid) (w w' : world) : Prop := {
  st_pc : forall t x, futures w !! t = Some x ->
            exists x', futures w' !! t = Some x' /\ (Some t <> self -> task_pc x' = task_pc x);
  st_new : forall t x', Some t <> self -> futures w !! t = None -> futures w' !! t = Some x' ->
             match task_pc x' with Some co => is_begin co = true | None => True end;
  st_ready : exists l, _ready w' = _ready w ++ l;
  st_done : forall f x, futures w !! f = Some x -> f_state x <> Pending ->
              exists x', futures w' !! f = Some x' /\ f_state x' = f_state x;
  st_wake : forall f x t, futures w !! f = Some x -> f_state x = Pending ->
              CbWakeup t ∈ f_callbacks x ->
              exists x', futures w' !! f = Some x' /\
                ((f_state x' = Pending /\ CbWakeup t ∈ f_callbacks x') \/
                 (f_state x' <> Pending /\ HCallback (CbWakeup t) f ∈ _ready w'));
  st_queue : forall x, x ∈ _waiters (lock_of w') ->
               x ∈ _waiters (lock_of w) \/ (length (futures w) <= x)%nat;
  st_task : forall t, _task (sched w') = Some t ->
              (t < length (futures w'))%nat \/ _task (sched w) = Some t
}.

(** Steps that neither take nor release the lock and wake no waiter. *)
Definition settled (w w' : world) : Prop :=
  _locked (lock_of w') = _locked (lock_of w) /\
  forall f v, f ∈ _waiters (lock_of w') -> state_of w' f = Some (Result v) ->
    f ∈ _waiters (lock_of w) /\ state_of w f = Some (Result v).

(** Steps that leave the lock as it is and wake no waiter. *)
Definition quiet (w w' : world) : Prop :=
  lock_of w' = lock_of w /\
  forall f v, f ∈ _waiters (lock_of w) -> state_of w' f = Some (Result v) ->
    state_of w f = Some (Result v).

Definition calm (self : option fid) (w w' : world) : Prop := stable self w w' /\ quiet w w'.

(** What a step of a coroutine leaves behind. *)
Definition step_post (self : option fid) (r : world * step_result) : Prop :=
  (crit r.2 = false -> full self r.1) /\ (crit r.2 = true -> owned self r.1).

(** No task is queued on the lock. *)
Definition plain_waiters (w : world) : Prop :=
  forall f, f ∈ _waiters (lock_of w) -> exists x, futures w !! f = Some x /\ task_pc x = None.

(** What a coroutine finds when it is resumed at [co]. *)
Definition step_pre (self : option fid) (co : coro) (w : world) : Prop :=
  if crit_pc co then owned self w else full self w.

(** *** One step of a task *)

(** The shapes of [Task.__step]: nothing happens, or the coroutine is
    resumed from the world [w0] and then suspends again, or ends. *)
Definition step_start (t : fid) (co : coro) (w : world) : world :=
  store_coro t co None (set_must_cancel t false w).

Definition step_exc (mc : bool) (exc : option exn) : option exn :=
  if mc then Some CancelledError else exc.

(** After a step of a coroutine every waiter of the lock was queued before
    and is not the one the coroutine has left, or is the new one it now
    waits for. *)
Definition queue_post (w : world) (co : coro) (r : world * step_result) : Prop :=
  forall x, x ∈ _waiters (lock_of r.1) ->
    (x ∈ _waiters (lock_of w) /\ acq_pc co <> Some x) \/
    (exists fa co', r.2 = SAwait fa co' /\ acq_pc co' = Some x /\
                    (length (futures w) <= x)%nat).

(** *** What a suspended task waits for *)

(** The slot [_task] holds a task of the loop. *)
Definition task_ok (w : world) : Prop :=
  forall t, _task (sched w) = Some t -> (t < length (futures w))%nat.

(** The wake-up of task [t] is registered on the future [f], or, when [f]
    is done, is among the handles [R] that are about to run. *)
Definition wakes (w : world) (R : list handle) (t f : fid) : Prop :=
  exists x, futures w !! f = Some x /\
    ((f_state x = Pending /\ CbWakeup t ∈ f_callbacks x) \/
     (f_state x <> Pending /\ HCallback (CbWakeup t) f ∈ R)).

(** A step that suspends on the lock, or inside it, suspends on the future
    its program point names, and that future exists. *)
Definition awaits_ok (r : world * step_result) : Prop :=
  match r.2 with
  | SAwait fa co' => forall f, waits_on co' = Some f -> f = fa /\ (fa < length (futures r.1))%nat
  | SYield co' => waits_on co' = None
  | _ => True
  end.

(** *** The step of a task, in full *)

(** Task [t], at [co] in [w], is resumed in [w0], its coroutine runs up to
    [w1] and ends the step with [r], and [Task.__step] leaves [w']. *)
Record stepped (t : fid) (exc : option exn) (w : world) (co : coro) (w0 w1 w' : world)
    (r : step_result) : Prop := {
  sp_pc : pc w t = Some co;
  sp_start : calm None w w0;
  sp_start_inv : loop_inv w0;
  sp_queued : queued w0 co;
  sp_resume : exists thrown, resume t co thrown w0 = (w1, r);
  sp_stable : stable None w0 w1;
  sp_inv : loop_inv w1;
  sp_pc1 : pc w1 t = Some co;
  sp_end : stable (Some t) w1 w';
  sp_lock : lock_of w' = lock_of w1;
  sp_pc' : pc w' t = match r with SAwait _ co' | SYield co' => Some co' | _ => None end;
  sp_wakes : forall fa co', r = SAwait fa co' -> (fa < length (futures w1))%nat ->
               wakes w' (_ready w') t fa;
  sp_final : match r with
             | SReturn _ | SRaise _ => exists st, st <> Pending /\ w' = finish t st w1
             | _ => True
             end;
  sp_exact : resume t co (step_exc (must_cancel w t) exc) w0 = (w1, r);
  sp_from : w0 = step_start t co w;
  sp_pstate : pstate w' = pstate w1;
  sp_outcome : match r with
               | SReturn v =>
                   w' = finish t (if must_cancel w1 t then Cancelled else Result v) w1
               | SRaise e =>
                   w' = finish t (if is_cancelled_error e then Cancelled else Exception e) w1
               | _ => True
               end
}.

(** [B] is what is left of the batch of handles the loop is running. *)
Record sound (B : list handle) (w : world) : Prop := {
  sd_loop : loop_inv w;
  sd_acq : acq_inv w;
  sd_full : full None w;
  sd_task : task_ok w;
  sd_orphan : forall f, f ∈ _waiters (lock_of w) -> exists t, acq w t f;
  sd_wakes : forall t co f, pc w t = Some co -> waits_on co = Some f ->
               wakes w (B ++ _ready w) t f;
  sd_handles : forall h, h ∈ B -> handle_ok w h
}.

(** The world in which [_run_once] runs its batch. *)
Definition batch_now (w : world) : Z :=
  match _ready w, _scheduled w with
  | [], (t, _) :: _ => Z.max (time w) t
  | _, _ => time w
  end.

Definition batch (w : world) : list handle :=
  _ready w ++ (filter (fun th => is_due (batch_now w) th) (_scheduled w)).*2.

Definition batch_world (w : world) : world :=
  World (sched w) (futures w) []
        (filter (fun th => negb (is_due (batch_now w) th)) (_scheduled w))
        (batch_now w) (ncalls w) (trace w).

(** What the body of [async with self._lock] leaves behind: the task
    suspended inside the lock, or the lock released. *)
Definition inside (c : nat) (w : world) (r : world * step_result) : Prop :=
  grants (trace r.1) = grants (trace w) /\
  (forall j, kind_of r.1 j = kind_of w j) /\
  ((exists tw, r.2 = SAwait tw (Inner_await c tw) /\ _locked (lock_of r.1) = true) \/
   (match r.2 with SReturn _ | SRaise _ => True | _ => False end /\
    _locked (lock_of r.1) = false)).

(** * Proofs *)

Lemma reach_step self x w w' : atom self w w' -> reach self x w -> reach self x w'.
Proof. intros Ha H. by eapply rtc_r. Qed.

Lemma fut_step_refl own f : fut_step own f f.
Proof. split; [done|]. destruct (f_kind f); simpl; auto. Qed.

Lemma fut_step_trans own f1 f2 f3 : fut_step own f1 f2 -> fut_step own f2 f3 -> fut_step own f1 f3.
Proof.
  intros [Hs1 Hk1] [Hs2 Hk2]. split.
  - intros Hd. rewrite Hs2; rewrite Hs1; done.
  - destruct (f_kind f1), (f_kind f2), (f_kind f3); simpl in *; try done; [congruence|].
    destruct Hk1 as (-> & Hf1 & Ho1 & Hb1), Hk2 as (-> & Hf2 & Ho2 & Hb2).
    repeat split; [congruence| |].
    + intros Ho. rewrite Ho2, Ho1; done.
    + destruct Hb2 as [->|]; auto.
Qed.

(** Along a run of atoms every future stays where it is and changes as
    [fut_step] allows; new futures come after the old ones. *)
Lemma atom_lookup self w w' i f :
  atom self w w' -> futures w !! i = Some f ->
  exists f', futures w' !! i = Some f' /\ fut_step (bool_decide (self = Some i)) f f'.
Proof.
  intros Ha Hi. destruct Ha; simpl; try (exists f; split; [done|apply fut_step_refl]).
  - exists f. split; [|apply fut_step_refl]. by apply lookup_app_l_Some.
  - destruct (decide (i0 = i)) as [->|Hne].
    + exists f'. split; [|congruence].
      apply list_lookup_insert_eq. by eapply lookup_lt_Some.
    + exists f. split; [|apply fut_step_refl]. by rewrite list_lookup_insert_ne.
Qed.

Lemma reach_lookup self x w i f :
  reach self x w -> futures x !! i = Some f ->
  exists f', futures w !! i = Some f' /\ fut_step (bool_decide (self = Some i)) f f'.
Proof.
  intros H. revert f. induction H as [x|x y z Ha H IH]; intros f Hi.
  - exists f. split; [done|apply fut_step_refl].
  - destruct (atom_lookup _ _ _ _ _ Ha Hi) as (f1 & H1 & Hs1).
    destruct (IH _ H1) as (f2 & H2 & Hs2).
    exists f2. split; [done|]. by eapply fut_step_trans.
Qed.

Lemma alter_lookup_Some {A} (g : A -> A) (l : list A) i x :
  l !! i = Some x -> alter g i l = <[i := g x]> l.
Proof.
  revert i. induction l as [|a l IH]; intros [|i] H; simplify_eq/=; [done|].
  f_equal. by apply IH.
Qed.

Lemma alter_lookup_None {A} (g : A -> A) (l : list A) i :
  l !! i = None -> alter g i l = l.
Proof.
  revert i. induction l as [|a l IH]; intros [|i] H; simplify_eq/=; [done..|].
  f_equal. by apply IH.
Qed.

Lemma with_futures_id w l : l = futures w -> with_futures (fun _ => l) w = w.
Proof. intros ->. by destruct w. Qed.

Lemma reach_alter self x w g i :
  (forall f, futures w !! i = Some f -> fut_step (bool_decide (self = Some i)) f (g f)) ->
  reach self x w -> reach self x (with_futures (alter g i) w).
Proof.
  intros Hg H. destruct (futures w !! i) as [f|] eqn:E.
  - replace (with_futures (alter g i) w) with (with_futures (<[i := g f]>) w).
    + eapply reach_step; [|done]. eapply a_update; eauto.
    + unfold with_futures. by rewrite (alter_lookup_Some _ _ _ _ E).
  - replace (with_futures (alter g i) w) with w; [done|].
    unfold with_futures. rewrite (alter_lookup_None _ _ _ E). by destruct w.
Qed.

Lemma reach_call_soon self x h w : reach self x w -> reach self x (call_soon h w).
Proof. apply reach_step, a_ready. Qed.

Lemma reach_call_later self x d h w : reach self x w -> reach self x (call_later d h w).
Proof. apply reach_step, a_scheduled. Qed.

Lemma reach_cancel_timer self x h w : reach self x w -> reach self x (cancel_timer h w).
Proof. apply reach_step, a_scheduled. Qed.

Lemma reach_count_call self x w : reach self x w -> reach self x (count_call w).
Proof. apply reach_step, a_count. Qed.

Lemma reach_new_future self x k cbs w :
  alloc_ok w k -> reach self x w -> reach self x (new_future k cbs w).2.
Proof. intros. by eapply reach_step; [apply a_alloc|]. Qed.

Lemma reach_create_future self x w : reach self x w -> reach self x (create_future w).2.
Proof. by apply reach_new_future. Qed.

Lemma reach_create_task self x n co cbs w :
  alloc_ok w (KTask n co None false) ->
  reach self x w -> reach self x (create_task n co cbs w).2.
Proof. intros Hk H. unfold create_task. simpl. by apply reach_call_soon, reach_new_future. Qed.

Lemma reach_foldl_call_soon self x i cbs : forall w,
  reach self x w -> reach self x (foldl (fun w cb => call_soon (HCallback cb i) w) w cbs).
Proof.
  induction cbs as [|cb cbs IH]; intros w H; simpl; [done|].
  by apply IH, reach_call_soon.
Qed.

Lemma reach_finish self x i st w : reach self x w -> reach self x (finish i st w).
Proof.
  intros H. unfold finish.
  destruct (futures w !! i) as [[[] cbs k]|] eqn:E; try done.
  apply reach_foldl_call_soon. eapply reach_step; [|done].
  eapply a_update; [done|]. split; [done|]. destruct k; simpl; auto.
Qed.

Lemma reach_add_done_callback self x i cb w :
  reach self x w -> reach self x (add_done_callback i cb w).
Proof.
  intros H. unfold add_done_callback.
  destruct (futures w !! i) as [[[] cbs k]|] eqn:E; try done; try by apply reach_call_soon.
  eapply reach_step; [|done].
  eapply a_update; [done|]. split; [done|]. destruct k; simpl; auto.
Qed.

Lemma reach_remove_done_callback self x i cb w :
  reach self x w -> reach self x (remove_done_callback i cb w).
Proof.
  intros H. apply reach_alter; [|done].
  intros [st cbs []] _; split; simpl; auto.
Qed.

Lemma reach_set_must_cancel self x i b w :
  reach self x w -> reach self x (set_must_cancel i b w).
Proof.
  intros H. apply reach_alter; [|done].
  intros [st cbs []] _; split; simpl; auto.
Qed.

Lemma reach_set_cancel_requested self x i w :
  reach self x w -> reach self x (set_cancel_requested i w).
Proof.
  intros H. apply reach_alter; [|done].
  intros [st cbs []] _; split; simpl; auto.
Qed.

Lemma reach_cancel self x d : forall i w,
  reach self x w -> reach self x (cancel d i w).1.
Proof.
  induction d as [|d IH]; intros i w H; simpl.
  - repeat case_match; simpl; try done;
      first [by apply reach_finish | by apply reach_set_must_cancel].
  - destruct (futures w !! i) as [[[] cbs k]|]; try done.
    destruct k as [|children n cr|n co [f|] mc]; simpl; try done.
    + by apply reach_finish.
    + assert (forall l w0 b, reach self x w0 ->
        reach self x (foldl (fun '(w, ret) child =>
                  let '(w', b) := cancel d child w in (w', ret || b)) (w0, b) l).1) as Hf.
      { induction l as [|a l IHl]; intros w0 b Hw0; simpl; [done|].
        specialize (IH a w0 Hw0). destruct (cancel d a w0) as [w1 b1].
        by apply IHl. }
      specialize (Hf children w false H).
      destruct (foldl _ _ children) as [w' ret].
      destruct ret; [by apply reach_set_cancel_requested|done].
    + specialize (IH f w H). destruct (cancel d f w) as [w' b].
      destruct b; [done|]. by apply reach_set_must_cancel.
    + by apply reach_set_must_cancel.
Qed.

Lemma reach_fut_cancel self x i w : reach self x w -> reach self x (fut_cancel i w).1.
Proof. apply reach_cancel. Qed.

Lemma coro_of_step own f f' co :
  fut_step own f f' -> coro_of f = Some co ->
  exists co', coro_of f' = Some co' /\ family_of co' = family_of co /\
              (own = false -> co' = co) /\ (co' = co \/ is_begin co' = false).
Proof.
  intros [_ Hk] Hc. unfold coro_of in *.
  destruct (f_kind f), (f_kind f'); simplify_eq/=; try done.
  destruct Hk as (_ & ? & ? & ?). eauto.
Qed.

Lemma run_task_reach self w w' t : reach self w w' -> run_task w t -> run_task w' t.
Proof.
  intros H (f & co & Hf & Hc & Hfam).
  destruct (reach_lookup _ _ _ _ _ H Hf) as (f' & Hf' & Hs).
  destruct (coro_of_step _ _ _ _ Hs Hc) as (co' & ? & ? & _).
  exists f', co'. repeat split; [done..|congruence].
Qed.

Lemma reach_record self x e w :
  is_plain_event e = true -> reach self x w -> reach self x (record e w).
Proof. intros. by eapply reach_step; [apply a_record|]. Qed.

Lemma reach_put_lock self x l w : reach self x w -> reach self x (put_lock l w).
Proof. apply reach_step, a_lock. Qed.

Lemma reach_set_fut_result self x i v w :
  reach self x w -> reach self x (set_fut_result i v w).
Proof. apply reach_finish. Qed.

Lemma reach_set_fut_exception self x i e w :
  reach self x w -> reach self x (set_fut_exception i e w).
Proof. apply reach_finish. Qed.

Lemma reach__wake_up_first self x w : reach self x w -> reach self x (_wake_up_first w).
Proof.
  intros H. unfold _wake_up_first. repeat case_match; try done. by apply reach_finish.
Qed.

Lemma reach_lock_acquire self x w : reach self x w -> reach self x (lock_acquire w).1.
Proof.
  intros H. unfold lock_acquire. case_match; simpl.
  - by apply reach_put_lock.
  - apply reach_record; [done|]. by apply reach_put_lock, reach_create_future.
Qed.

Lemma reach_lock_acquire_resume self x f r w :
  reach self x w -> reach self x (lock_acquire_resume f r w).1.
Proof.
  intros H. unfold lock_acquire_resume. repeat case_match; simpl.
  - apply reach_record; [done|]. by do 2 apply reach_put_lock.
  - by apply reach_put_lock.
  - by apply reach__wake_up_first, reach_put_lock.
  - by apply reach_put_lock.
Qed.

Lemma reach_lock_release self x w : reach self x w -> reach self x (lock_release w).1.
Proof.
  intros H. unfold lock_release. case_match; simpl; [|done].
  by apply reach__wake_up_first, reach_put_lock.
Qed.

Lemma reach_aexit self x r w : reach self x w -> reach self x (aexit r w).1.
Proof.
  intros H. unfold aexit. pose proof (reach_lock_release self x w H).
  by destruct (lock_release w) as [w' [e|]].
Qed.

Lemma reach__inner_assign self x s t r w :
  (forall v, r = inl v -> result w t = inl v) ->
  reach self x w -> reach self x (_inner_assign s t r w).1.
Proof.
  intros Hr H. unfold _inner_assign. destruct r as [v|e]; apply reach_aexit; [|done].
  eapply reach_step; [|done]. apply a_write. by apply Hr.
Qed.

Lemma reach__inner_locked self x s c w :
  reach self x w -> reach self x (_inner_locked s c w).1.
Proof.
  intros H. unfold _inner_locked. repeat case_match; simpl; try done.
  - by apply reach__inner_assign.
  - by apply reach_aexit.
Qed.

Lemma reach__inner_begin x ti c w :
  task_at w ti (Inner_begin c) ->
  reach (Some ti) x w -> reach (Some ti) x (_inner_begin ti c w).1.
Proof.
  intros (f & Hf & Hc) H. unfold _inner_begin.
  set (p := sched w).
  set (r := co_call _ _ _ _).
  destruct (create_task (task_name p c) (Work_begin r) [] (count_call w)) as [t w1] eqn:E1.
  assert (reach (Some ti) x (record (EvSpawn ti t (task_name p c))
                               (with_sched (set_task t) w1))) as H1.
  { unfold create_task in E1. simpl in E1. simplify_eq.
    match goal with |- reach _ _ (record _ ?W0) => set (W := W0) end.
    change (task_name p c) with (task_name (sched W) c).
    eapply reach_step.
    - eapply (a_spawn _ W ti _ c); [done| |].
      + exists f. split; [|done]. simpl. by apply lookup_app_l_Some.
      + eexists. split; [simpl; apply list_lookup_middle; done|]. done.
    - eapply reach_step; [apply a_task|].
      apply reach_call_soon. eapply reach_step; [apply a_alloc; done|].
      by apply reach_count_call. }
  pose proof (reach_lock_acquire _ _ _ H1) as Ha.
  destruct (lock_acquire _) as [w2 [fw|]]; simpl in *; [done|].
  by apply reach__inner_locked.
Qed.

Lemma reach__inner x ti pc thrown w :
  task_at w ti pc ->
  reach (Some ti) x w -> reach (Some ti) x (_inner ti pc thrown w).1.
Proof.
  intros Ht H. unfold _inner. destruct pc; try done.
  - destruct thrown; [done|]. by apply reach__inner_begin.
  - pose proof (reach_lock_acquire_resume _ _ f (awaited w f thrown) _ H) as Ha.
    destruct (lock_acquire_resume _ _ _) as [w1 [e|]]; [done|].
    by apply reach__inner_locked.
  - apply reach__inner_assign; [|done]. intros v. by destruct thrown.
Qed.

Lemma reach_get_result_locked self x w :
  reach self x w -> reach self x (get_result_locked w).1.
Proof. intros H. unfold get_result_locked. case_match; by apply reach_aexit. Qed.

Lemma reach_get_result self x pc thrown w :
  reach self x w -> reach self x (get_result pc thrown w).1.
Proof.
  intros H. unfold get_result. destruct pc; try done.
  - destruct thrown; [done|].
    pose proof (reach_lock_acquire _ _ _ H) as Ha.
    destruct (lock_acquire w) as [w1 [f|]]; [done|]. by apply reach_get_result_locked.
  - pose proof (reach_lock_acquire_resume _ _ f (awaited w f thrown) _ H) as Ha.
    destruct (lock_acquire_resume _ _ _) as [w1 [e|]]; [done|].
    by apply reach_get_result_locked.
Qed.

Lemma reach_sleep_begin self x d w : reach self x w -> reach self x (sleep_begin d w).1.
Proof.
  intros H. unfold sleep_begin. case_match; [done|]. simpl.
  by apply reach_call_later, reach_create_future.
Qed.

Lemma reach_sleep self x pc thrown w : reach self x w -> reach self x (sleep pc thrown w).1.
Proof.
  intros H. unfold sleep. destruct pc; try done.
  - destruct thrown; [done|]. pose proof (reach_sleep_begin _ _ delay _ H).
    by destruct (sleep_begin delay w) as [w1 [f|]].
  - by destruct thrown.
  - destruct (awaited w f thrown); by apply reach_cancel_timer.
Qed.

Lemma reach_work self x pc thrown w : reach self x w -> reach self x (work pc thrown w).1.
Proof.
  intros H. unfold work. destruct pc; try done.
  - destruct thrown; [done|]. pose proof (reach_sleep_begin _ _ (w_delay r) _ H).
    by destruct (sleep_begin (w_delay r) w) as [w1 [f|]].
  - by destruct thrown.
  - destruct (awaited w f thrown); by apply reach_cancel_timer.
Qed.

Lemma reach_gather_inner_sleep x m c w :
  run_task w m ->
  reach (Some m) x w -> reach (Some m) x (gather_inner_sleep m c w).2.
Proof.
  intros (f & co & Hf & Hc & Hfam) H. unfold gather_inner_sleep. simpl.
  eapply reach_step; [by apply a_alloc|].
  apply reach_call_soon. eapply reach_step; [by apply a_alloc|].
  apply reach_call_soon. eapply reach_step.
  { apply a_alloc. split; [done|]. exists m. simpl. apply elem_of_app. right.
    apply list_elem_of_singleton. done. }
  eapply reach_step; [|done]. apply a_cycle; [done|]. by exists f, co.
Qed.

Lemma reach__run_rest self x next g r w :
  (forall w', reach self w w' -> reach self x w' -> reach self x (next w').1) ->
  reach self x w -> reach self x (_run_rest next g r w).1.
Proof.
  intros Hn H. unfold _run_rest. repeat case_match; simpl; auto.
  apply Hn; [apply rtc_refl|done].
Qed.

Lemma reach__run_loop fuel : forall x m c w,
  run_task w m ->
  reach (Some m) x w -> reach (Some m) x (_run_loop fuel m c w).1.
Proof.
  induction fuel as [|fuel IH]; intros x m c w Hm H; cbn [_run_loop]; [done|].
  pose proof (reach_gather_inner_sleep w m c w Hm (rtc_refl _ _)) as Hg0.
  pose proof (reach_gather_inner_sleep x m c w Hm H) as Hg.
  destruct (gather_inner_sleep m c w) as [g w1]. cbn [snd] in *.
  pose proof (run_task_reach _ _ _ _ Hg0 Hm) as Hm1.
  destruct (interval (sched w1) <=? 0).
  - destruct (done w1 g).
    + apply reach__run_rest; [|done]. intros w' Hw' Hx. apply IH; [|done].
      eapply run_task_reach; [exact Hw'|exact Hm1].
    + pose proof (reach_fut_cancel _ x g w1 Hg) as Hc.
      pose proof (reach_fut_cancel (Some m) w1 g w1 (rtc_refl _ _)) as Hc1.
      destruct (fut_cancel g w1) as [w2 b]. cbn [fst] in *.
      apply reach__run_rest; [|done]. intros w' Hw' Hx. apply IH; [|done].
      eapply run_task_reach; [exact Hw'|]. eapply run_task_reach; [exact Hc1|exact Hm1].
  - destruct (create_future w1) as [y w2] eqn:E.
    cbn [fst]. apply reach_add_done_callback, reach_call_later.
    pose proof (reach_create_future _ x w1 Hg) as Hy. by rewrite E in Hy.
Qed.

Lemma reach__run x m pc thrown w :
  run_task w m ->
  reach (Some m) x w -> reach (Some m) x (_run m pc thrown w).1.
Proof.
  intros Hm H. unfold _run.
  assert (forall c w0 w', reach (Some m) w w0 -> reach (Some m) w0 w' -> reach (Some m) x w' ->
            reach (Some m) x (_run_loop run_fuel m c w').1) as Hnext.
  { intros c w0 w' H0 H1 Hx. apply reach__run_loop; [|done].
    eapply run_task_reach; [exact H1|]. eapply run_task_reach; [exact H0|exact Hm]. }
  destruct pc; try done.
  - destruct thrown; [done|]. by apply reach__run_loop.
  - destruct (awaited w x0 thrown) as [v|e].
    + destruct (done w g).
      * apply reach__run_rest; [|by apply reach_cancel_timer].
        intros w' Hw' Hx. eapply (Hnext _ (cancel_timer (HTimerRelease x0) w)); try done.
        apply reach_cancel_timer, rtc_refl.
      * destruct (create_future _) as [y w1] eqn:E1.
        destruct (fut_cancel g _) as [w2 b] eqn:E2. cbn [fst].
        pose proof (reach_fut_cancel (Some m) x g (add_done_callback g (CbReleaseWaiter y) w1))
          as Hc.
        rewrite E2 in Hc. apply Hc. apply reach_add_done_callback.
        pose proof (reach_create_future (Some m) x
                      (remove_done_callback g (CbReleaseWaiter x0) w)) as Hd.
        rewrite E1 in Hd. apply Hd. by apply reach_remove_done_callback.
    + assert (forall x, reach (Some m) x w -> reach (Some m) x
               (cancel_timer (HTimerRelease x0)
                  (if is_cancelled_error e
                   then (fut_cancel g (remove_done_callback g (CbReleaseWaiter x0) w)).1
                   else w))) as Hw.
      { intros x1 Hx1. apply reach_cancel_timer. destruct (is_cancelled_error e); [|done].
        by apply reach_fut_cancel, reach_remove_done_callback. }
      apply reach__run_rest; [|by apply Hw].
      intros w' Hw' Hx. eapply Hnext; [|exact Hw'|done]. apply Hw, rtc_refl.
  - assert (forall x, reach (Some m) x w -> reach (Some m) x
             (cancel_timer (HTimerRelease x0)
                (remove_done_callback g (CbReleaseWaiter y) w))) as Hw.
    { intros x1 Hx1. by apply reach_cancel_timer, reach_remove_done_callback. }
    destruct (awaited w y thrown);
      (apply reach__run_rest; [|by apply Hw]);
      intros w' Hw' Hx; (eapply Hnext; [|exact Hw'|done]); apply Hw, rtc_refl.
Qed.

Lemma reach_resume x t co thrown w :
  task_at w t co ->
  reach (Some t) x w -> reach (Some t) x (resume t co thrown w).1.
Proof.
  intros Ht H. unfold resume.
  assert (family_of co = FRun -> run_task w t) as Hrun.
  { destruct Ht as (f & ? & ?). intros. by exists f, co. }
  destruct co; first [by apply reach__run; [apply Hrun|] | by apply reach__inner
                     | by apply reach_get_result | by apply reach_sleep
                     | by apply reach_work ].
Qed.

Lemma _run_rest_pc next g r w :
  (forall w', suspends_in FRun (next w').2) -> suspends_in FRun (_run_rest next g r w).2.
Proof. intros Hn. unfold _run_rest. repeat case_match; simpl; auto. Qed.

Lemma _run_loop_pc fuel : forall m c w, suspends_in FRun (_run_loop fuel m c w).2.
Proof.
  induction fuel as [|fuel IH]; intros m c w; cbn [_run_loop]; [done|].
  destruct (gather_inner_sleep m c w) as [g w1].
  destruct (interval (sched w1) <=? 0).
  - destruct (done w1 g); [by apply _run_rest_pc|].
    destruct (fut_cancel g w1) as [w2 b]. by apply _run_rest_pc.
  - by destruct (create_future w1).
Qed.

Lemma aexit_pc fam r w : suspends_in fam r -> suspends_in fam (aexit r w).2.
Proof. intros H. unfold aexit. by destruct (lock_release w) as [w' [e|]]. Qed.

(** A coroutine suspends at a program point of its own, never at a start. *)
Lemma resume_pc t co thrown w : suspends_in (family_of co) (resume t co thrown w).2.
Proof.
  unfold resume. destruct co; cbn [family_of].
  - unfold _run. destruct thrown; [done|]. apply _run_loop_pc.
  - unfold _run. destruct (awaited w x thrown).
    + destruct (done w g); [apply _run_rest_pc; intros; apply _run_loop_pc|].
      destruct (create_future _) as [y w1]. by destruct (fut_cancel g _).
    + apply _run_rest_pc; intros; apply _run_loop_pc.
  - unfold _run. destruct (awaited w y thrown);
      apply _run_rest_pc; intros; apply _run_loop_pc.
  - unfold _inner, _inner_begin. destruct thrown; [done|].
    destruct (create_task _ _ _ _) as [t1 w1].
    destruct (lock_acquire _) as [w2 [f|]]; [done|].
    unfold _inner_locked, _inner_assign. repeat case_match; try done; by apply aexit_pc.
  - unfold _inner. destruct (lock_acquire_resume _ _ _) as [w1 [e|]]; [done|].
    unfold _inner_locked, _inner_assign. repeat case_match; try done; by apply aexit_pc.
  - unfold _inner, _inner_assign. case_match; by apply aexit_pc.
  - unfold sleep. destruct thrown; [done|]. by destruct (sleep_begin _ _) as [w1 [f|]].
  - unfold sleep. by destruct thrown.
  - unfold sleep. by destruct (awaited w f thrown).
  - unfold work. destruct thrown; [done|]. by destruct (sleep_begin _ _) as [w1 [f|]].
  - unfold work, work_finish. destruct thrown; [done|]. by destruct (w_outcome r).
  - unfold work, work_finish. destruct (awaited w f thrown); [|done]. by destruct (w_outcome r).
  - unfold get_result. destruct thrown; [done|].
    destruct (lock_acquire _) as [w2 [f|]]; [done|].
    unfold get_result_locked. case_match; by apply aexit_pc.
  - unfold get_result. destruct (lock_acquire_resume _ _ _) as [w1 [e|]]; [done|].
    unfold get_result_locked. case_match; by apply aexit_pc.
Qed.

Lemma reach_store_coro x t co' fw w :
  (forall f co, futures w !! t = Some f -> coro_of f = Some co ->
     family_of co' = family_of co /\ (co' = co \/ is_begin co' = false)) ->
  reach (Some t) x w -> reach (Some t) x (store_coro t co' fw w).
Proof.
  intros Hco H. apply reach_alter; [|done].
  intros [st cbs k] Hf. split; [by destruct k|].
  destruct k; simpl; try done.
  destruct (Hco _ co Hf eq_refl) as [? ?].
  rewrite bool_decide_eq_true_2 by done. repeat split; [done| |done]. done.
Qed.

Lemma task_at_family self w w' t co :
  reach self w w' -> task_at w t co ->
  forall f co0, futures w' !! t = Some f -> coro_of f = Some co0 ->
    family_of co0 = family_of co.
Proof.
  intros H (f0 & Hf0 & Hc0) f co0 Hf Hc.
  destruct (reach_lookup _ _ _ _ _ H Hf0) as (f' & Hf' & Hs).
  destruct (coro_of_step _ _ _ _ Hs Hc0) as (co' & ? & ? & _).
  congruence.
Qed.

Lemma reach_task_step x t exc w :
  reach (Some t) x w -> reach (Some t) x (task_step t exc w).
Proof.
  intros H. unfold task_step.
  destruct (futures w !! t) as [[[] cbs [| |n co fw mc]]|] eqn:E; try done.
  set (exc' := if mc then Some CancelledError else exc).
  set (w0 := store_coro t co None (set_must_cancel t false w)).
  assert (futures w0 !! t = Some (Future Pending cbs (KTask n co None false))) as E0.
  { unfold w0, store_coro, set_must_cancel, with_futures. cbn [futures].
    rewrite !list_lookup_alter_eq, E. done. }
  assert (task_at w0 t co) as Ht by (by eexists).
  assert (forall x, reach (Some t) x w -> reach (Some t) x w0) as Hw0.
  { intros x1 Hx1. apply reach_store_coro; [|by apply reach_set_must_cancel].
    intros f co0 Hf Hc. unfold set_must_cancel, with_futures in Hf. cbn [futures] in Hf.
    rewrite list_lookup_alter_eq, E in Hf.
    unfold coro_of in Hc. simplify_eq/=. split; [done|by left]. }
  pose proof (reach_resume x t co exc' w0 Ht (Hw0 _ H)) as Hr.
  pose proof (reach_resume w0 t co exc' w0 Ht (rtc_refl _ _)) as Hr0.
  pose proof (resume_pc t co exc' w0) as Hpc.
  destruct (resume t co exc' w0) as [w1 r]. cbn [fst snd] in *.
  destruct r as [f co'|co'|v|e|]; simpl in Hpc.
  - destruct Hpc as [Hb Hfam].
    set (w3 := store_coro t co' (Some f) (add_done_callback f (CbWakeup t) w1)).
    assert (reach (Some t) x w3) as H3.
    { apply reach_store_coro; [|by apply reach_add_done_callback].
      intros f0 co0 Hf0 Hc0. split; [|by right].
      rewrite Hfam. symmetry.
      eapply (task_at_family _ w0); [|exact Ht|exact Hf0|exact Hc0].
      apply reach_add_done_callback. exact Hr0. }
    destruct (must_cancel w3 t); [|done].
    pose proof (reach_fut_cancel _ x f w3 H3) as Hc.
    destruct (fut_cancel f w3) as [w4 b]. destruct b; [|done].
    by apply reach_set_must_cancel.
  - destruct Hpc as [Hb Hfam].
    apply reach_call_soon, reach_store_coro; [|done].
    intros f0 co0 Hf0 Hc0. split; [|by right].
    rewrite Hfam. symmetry.
    eapply (task_at_family _ w0); [exact Hr0|exact Ht|exact Hf0|exact Hc0].
  - destruct (must_cancel w1 t); by apply reach_finish.
  - destruct (is_cancelled_error e); by apply reach_finish.
  - done.
Qed.

Lemma reach_task_wakeup x t f w :
  reach (Some t) x w -> reach (Some t) x (task_wakeup t f w).
Proof. intros H. unfold task_wakeup. case_match; by apply reach_task_step. Qed.

Lemma reach_gather_done_callback self x g c w :
  reach self x w -> reach self x (gather_done_callback g c w).
Proof.
  intros H. unfold gather_done_callback.
  destruct (futures w !! g) as [[st cbs [|children n cr|]]|] eqn:E; try done.
  assert (reach self x (with_futures (<[g:=Future st cbs (KGather children (S n) cr)]>) w)).
  { eapply reach_step; [|done]. eapply a_update; [done|]. by split. }
  repeat case_match; try done; by apply reach_finish.
Qed.

Lemma reach_release_waiter self x y w : reach self x w -> reach self x (release_waiter y w).
Proof. intros H. unfold release_waiter. case_match; [done|by apply reach_finish]. Qed.

Lemma reach_set_result_unless_cancelled self x f w :
  reach self x w -> reach self x (set_result_unless_cancelled f w).
Proof.
  intros H. unfold set_result_unless_cancelled. case_match; [done|by apply reach_finish].
Qed.

Lemma reach__start self x w : reach self x w -> reach self x (_start w).
Proof.
  intros H. unfold _start. simpl.
  eapply reach_step; [apply a_main|]. apply reach_call_soon.
  by eapply reach_step; [apply a_alloc|].
Qed.

Lemma reach__stop self x w : reach self x w -> reach self x (_stop w).1.
Proof. intros H. unfold _stop. case_match; simpl; [|done]. by apply reach_fut_cancel. Qed.

Lemma reach_start self x d w : reach self x w -> reach self x (start d w).1.
Proof.
  intros H. unfold start. repeat case_match; simpl; try done.
  - apply reach_call_later. by eapply reach_step; [apply a_running|].
  - apply reach_call_soon. by eapply reach_step; [apply a_running|].
Qed.

Lemma reach_stop self x d w : reach self x w -> reach self x (stop d w).1.
Proof.
  intros H. unfold stop. repeat case_match; simpl; try done.
  - apply reach_call_later. by eapply reach_step; [apply a_running|].
  - apply reach__stop. by eapply reach_step; [apply a_running|].
Qed.

Lemma reach_unhandled self x h r :
  reach self x r.1 -> reach self x (unhandled h r).
Proof. intros H. destruct r as [w [e|]]; simpl in *; [|done]. by apply reach_record. Qed.

Lemma reach_call_get_result x w :
  reach (Some (length (futures w))) x w ->
  reach (Some (length (futures w))) x (call_get_result w).
Proof.
  intros H. unfold call_get_result. simpl. apply reach_task_step.
  by eapply reach_step; [apply a_alloc|].
Qed.

Lemma reach_run_handle h w : reach (stepper w h) w (run_handle h w).
Proof.
  destruct h as [t|[]f|y|f| | |d|d|]; simpl.
  - apply reach_task_step, rtc_refl.
  - apply reach_task_wakeup, rtc_refl.
  - apply reach_gather_done_callback, rtc_refl.
  - apply reach_release_waiter, rtc_refl.
  - apply reach_release_waiter, rtc_refl.
  - apply reach_set_result_unless_cancelled, rtc_refl.
  - apply reach__start, rtc_refl.
  - apply reach_unhandled, reach__stop, rtc_refl.
  - apply reach_unhandled, reach_start, rtc_refl.
  - apply reach_unhandled, reach_stop, rtc_refl.
  - apply reach_call_get_result, rtc_refl.
Qed.

Lemma reach_evolves self w w' : reach self w w' -> evolves w w'.
Proof. induction 1; [done|]. eapply rtc_l; [by eexists|done]. Qed.

Lemma evolves_run_handles hs : forall w, evolves w (foldl (fun w h => run_handle h w) w hs).
Proof.
  induction hs as [|h hs IH]; intros w; simpl; [done|].
  etrans; [|apply IH]. eapply reach_evolves, reach_run_handle.
Qed.

Lemma evolves_run_once w : evolves w (run_once w).
Proof.
  unfold run_once.
  match goal with |- evolves _ (foldl _ ?w0 _) => set (W := w0) end.
  etrans; [|apply evolves_run_handles].
  assert (exists f g t, W = with_time t (with_scheduled g (with_ready f w))) as (f & g & t & ->).
  { by exists (fun _ => []),
      (fun l => filter (fun th => negb (is_due (time W) th)) l), (time W). }
  eapply rtc_r; [|eexists None; apply a_time].
  eapply rtc_r; [|eexists None; apply a_scheduled].
  eapply rtc_once. eexists None. apply a_ready.
Qed.

Lemma evolves_run n w : evolves w (run n w).
Proof. induction n as [|n IH]; simpl; [done|]. etrans; [exact IH|apply evolves_run_once]. Qed.

Lemma evolves_inv (I : world -> Prop) :
  (forall self w w', atom self w w' -> I w -> I w') ->
  forall w w', evolves w w' -> I w -> I w'.
Proof. intros Hs w w' H. induction H as [|x y z [self Ha] _ IH]; eauto. Qed.

(** An atom leaves the trace as it is, or adds one event, justified by the
    state it is recorded in. *)
Lemma atom_trace self w w' :
  atom self w w' ->
  (trace w' = trace w /\ _result (sched w') = _result (sched w)) \/
  (exists e, trace w' = trace w ++ [e] /\ futures w' = futures w /\
             event_ok self w' e /\
             (is_write e = false -> sched w' = sched w)).
Proof.
  intros Ha. destruct Ha; simpl; auto; right; eexists; (split; [done|]); simpl; auto.
  all: repeat split; try done.
  - exists c. done.
  - by destruct e.
Qed.

Lemma atom_cfg self w w' : atom self w w' -> cfg (sched w') = cfg (sched w).
Proof. by destruct 1. Qed.

Lemma evolves_cfg w w' : evolves w w' -> cfg (sched w') = cfg (sched w).
Proof.
  intros H. induction H as [|x y z [self Ha] _ IH]; [done|].
  rewrite IH. by eapply atom_cfg.
Qed.

Lemma fut_step_own own f f' : fut_step own f f' -> fut_step true f f'.
Proof.
  intros [Hs Hk]. split; [done|].
  destruct (f_kind f), (f_kind f'); simpl in *; try done.
  destruct Hk as (? & ? & ? & ?). repeat split; done.
Qed.

Lemma evolves_lookup w w' i f :
  evolves w w' -> futures w !! i = Some f ->
  exists f', futures w' !! i = Some f' /\ fut_step true f f'.
Proof.
  intros H. revert f. induction H as [x|x y z [self Ha] _ IH]; intros f Hi.
  - exists f. split; [done|apply fut_step_refl].
  - destruct (atom_lookup _ _ _ _ _ Ha Hi) as (f1 & H1 & Hs1).
    destruct (IH _ H1) as (f2 & H2 & Hs2).
    exists f2. split; [done|]. eapply fut_step_trans; [|done]. by eapply fut_step_own.
Qed.

(** A future that is done stays as it is: its state is final. *)
Lemma evolves_state w w' i st :
  evolves w w' -> state_of w i = Some st -> st <> Pending -> state_of w' i = Some st.
Proof.
  unfold state_of. intros H Hs Hne.
  destruct (futures w !! i) as [f|] eqn:E; simplify_eq/=.
  destruct (evolves_lookup _ _ _ _ H E) as (f' & -> & [Hst _]). simpl.
  by rewrite Hst.
Qed.

Lemma evolves_name w w' i f n :
  evolves w w' -> futures w !! i = Some f -> name_of f = Some n ->
  exists f', futures w' !! i = Some f' /\ name_of f' = Some n.
Proof.
  intros H Hf Hn. destruct (evolves_lookup _ _ _ _ H Hf) as (f' & Hf' & [_ Hk]).
  exists f'. split; [done|]. unfold name_of in *.
  destruct (f_kind f), (f_kind f'); simplify_eq/=; try done.
  by destruct Hk as (-> & _).
Qed.

Lemma task_name_cfg p p' c : cfg p' = cfg p -> task_name p' c = task_name p c.
Proof. unfold cfg, task_name, name. intros [= -> _ _ _]. done. Qed.

Lemma last_write_snoc tr e :
  last_write (tr ++ [e]) = match written e with Some v => Some v | None => last_write tr end.
Proof.
  unfold last_write. rewrite omap_app. simpl. destruct (written e); simpl.
  - by rewrite last_snoc.
  - by rewrite app_nil_r.
Qed.

Lemma result_state w t v : result w t = inl v -> state_of w t = Some (Result v).
Proof.
  unfold result, state_of. destruct (futures w !! t) as [[[] ? ?]|]; simpl; congruence.
Qed.

Lemma wf_atom r0 self w w' : atom self w w' -> wf r0 w -> wf r0 w'.
Proof.
  intros Ha [Hw Hs Hi Hp].
  pose proof (atom_cfg _ _ _ Ha) as Hcfg.
  assert (evolves w w') as Hev by (apply rtc_once; by eexists).
  assert (forall e, e ∈ trace w' -> e ∈ trace w \/
            (trace w' = trace w ++ [e] /\ futures w' = futures w /\
             event_ok self w' e)) as Hnew.
  { intros e He. destruct (atom_trace _ _ _ Ha) as [[Ht _]|(e' & Ht & Hf & Hok & _)];
      rewrite Ht in He; [by left|].
    apply elem_of_app in He as [?|He]; [by left|].
    apply list_elem_of_singleton in He as ->. by right. }
  assert (forall e, e ∈ trace w -> e ∈ trace w') as Hold.
  { intros e He. destruct (atom_trace _ _ _ Ha) as [[-> _]|(e' & -> & _)]; [done|].
    apply elem_of_app; auto. }
  split.
  - intros s t v He. destruct (Hnew _ He) as [Ho|(_ & _ & [Hr _])].
    + eapply evolves_state; [done|by eapply Hw|done].
    + by apply result_state.
  - destruct (atom_trace _ _ _ Ha) as [[-> ->]|(e & -> & _ & Hok & Hsch)]; [done|].
    rewrite last_write_snoc. destruct e; simpl in *; try (rewrite Hsch by done; done).
    by destruct Hok as [_ ->].
  - intros i f c Hf Hc.
    assert (exists m, EvCycle m c i ∈ trace w) as [m Hm]; [|by exists m; apply Hold].
    destruct Ha as [w fr|w fs|w t0|w|w k cbs Hk|w i0 f0 f1 Hlk Hst|w l|w b|w m0|w t0
                   |w s t0 v Hr|w m0 c0 Hs0 Hr|w ti t0 c0 Hs0 H1 H2|w e He]; simpl in *; eauto.
    + apply lookup_app_Some in Hf as [Hf|[Hlen Hf]]; [eauto|].
      destruct (i - length (futures w))%nat as [|j] eqn:Ej; simplify_eq/=.
      unfold coro_of in Hc. simpl in Hc. destruct k; simplify_eq/=.
      destruct Hk as [_ [m Hm]]. exists m.
      replace i with (length (futures w)) by lia. done.
    + destruct (decide (i0 = i)) as [->|Hne].
      * rewrite list_lookup_insert_eq in Hf by (by eapply lookup_lt_Some). simplify_eq.
        destruct Hst as [_ Hk]. unfold coro_of in Hc.
        destruct (f_kind f0) eqn:E0, (f_kind f) eqn:E1; simplify_eq/=; try done.
        destruct Hk as (_ & _ & _ & [<-|?]); [|done].
        eapply Hi; [done|]. unfold coro_of. by rewrite E0.
      * rewrite list_lookup_insert_ne in Hf by done. eauto.
  - intros ti t name He. destruct (Hnew _ He) as [Ho|(_ & Hf & [_ (c & (f & Hti & Hc) & -> & f' & Ht' & Hn)])].
    + destruct (Hp _ _ _ Ho) as (m & c & f & Hc & -> & Hf & Hn).
      destruct (evolves_name _ _ _ _ _ Hev Hf Hn) as (f' & ? & ?).
      exists m, c, f'. repeat split; [by apply Hold| |done..].
      symmetry. by apply task_name_cfg.
    + rewrite Hf in Hti. destruct (Hi _ _ _ Hti Hc) as [m Hm].
      exists m, c, f'. repeat split; [by apply Hold|done..].
Qed.

Lemma wf_evolves r0 w w' : evolves w w' -> wf r0 w -> wf r0 w'.
Proof. apply evolves_inv. intros. by eapply wf_atom. Qed.

Lemma wf_boot p script : wf (_result p) (boot p script).
Proof. split; simpl; try done; intros *; by rewrite ?elem_of_nil. Qed.

Lemma wf_run p script n : wf (_result p) (run n (boot p script)).
Proof. eapply wf_evolves; [apply evolves_run|apply wf_boot]. Qed.

Lemma pstate_foldl_call_soon (i : fid) (cbs : list callback) (w : world) :
  pstate (foldl (fun w cb => call_soon (HCallback cb i) w) w cbs) = pstate w.
Proof.
  revert w. induction cbs as [|cb cbs IH]; intros w; simpl; [done|].
  by rewrite IH.
Qed.

Lemma pstate_finish i st w : pstate (finish i st w) = pstate w.
Proof.
  unfold finish. repeat case_match; try done.
  by rewrite pstate_foldl_call_soon.
Qed.

Lemma pstate_add_done_callback i cb w : pstate (add_done_callback i cb w) = pstate w.
Proof. unfold add_done_callback. by repeat case_match. Qed.

Lemma pstate_cancel d : forall i w, pstate (cancel d i w).1 = pstate w.
Proof.
  induction d as [|d IH]; intros i w; simpl.
  - repeat case_match; simpl; try done. apply pstate_finish.
  - destruct (futures w !! i) as [[[] cbs k]|]; try done.
    destruct k as [|children n cr|n co [f|] mc]; simpl; try done.
    + apply pstate_finish.
    + assert (forall l w0 b,
        pstate (foldl (fun '(w, ret) child =>
                  let '(w', b) := cancel d child w in (w', ret || b)) (w0, b) l).1
        = pstate w0) as Hf.
      { induction l as [|a l IHl]; intros w0 b; simpl; [done|].
        specialize (IH a w0). destruct (cancel d a w0) as [w1 b1].
        rewrite IHl. done. }
      specialize (Hf children w false).
      destruct (foldl _ _ children) as [w' ret]. by destruct ret.
    + specialize (IH f w). destruct (cancel d f w) as [w' b]. by destruct b.
Qed.

Lemma pstate_fut_cancel i w : pstate (fut_cancel i w).1 = pstate w.
Proof. apply pstate_cancel. Qed.

Lemma pstate_call_soon h w : pstate (call_soon h w) = pstate w.
Proof. done. Qed.



Lemma pstate_new_future k cbs w : pstate (new_future k cbs w).2 = pstate w.
Proof. done. Qed.


Lemma pstate_create_task n co cbs w : pstate (create_task n co cbs w).2 = pstate w.
Proof. done. Qed.

Lemma pstate_remove_done_callback i cb w : pstate (remove_done_callback i cb w) = pstate w.
Proof. done. Qed.

Lemma pstate_set_must_cancel i b w : pstate (set_must_cancel i b w) = pstate w.
Proof. done. Qed.

Lemma pstate_store_coro t co fw w : pstate (store_coro t co fw w) = pstate w.
Proof. done. Qed.

Lemma pstate_with_futures f w : pstate (with_futures f w) = pstate w.
Proof. done. Qed.

Lemma pstate_count_call w : pstate (count_call w) = pstate w.
Proof. done. Qed.

Lemma pstate_set_fut_result i v w : pstate (set_fut_result i v w) = pstate w.
Proof. apply pstate_finish. Qed.

Lemma pstate_set_fut_exception i e w : pstate (set_fut_exception i e w) = pstate w.
Proof. apply pstate_finish. Qed.

Lemma pstate_release_waiter x w : pstate (release_waiter x w) = pstate w.
Proof. unfold release_waiter. case_match; [done|apply pstate_finish]. Qed.

Lemma pstate_set_result_unless_cancelled f w :
  pstate (set_result_unless_cancelled f w) = pstate w.
Proof. unfold set_result_unless_cancelled. case_match; [done|apply pstate_finish]. Qed.

Lemma pstate_gather_done_callback g c w : pstate (gather_done_callback g c w) = pstate w.
Proof.
  unfold gather_done_callback.
  repeat case_match; rewrite ?pstate_set_fut_exception, ?pstate_set_fut_result; done.
Qed.

Lemma pstate__wake_up_first w : pstate (_wake_up_first w) = pstate w.
Proof. unfold _wake_up_first. repeat case_match; try done. apply pstate_finish. Qed.

Lemma pstate_sleep_begin d w : pstate (sleep_begin d w).1 = pstate w.
Proof. unfold sleep_begin. by case_match. Qed.

Lemma pstate_sleep pc thrown w : pstate (sleep pc thrown w).1 = pstate w.
Proof.
  unfold sleep. repeat case_match; simplify_eq/=; try done.
  all: match goal with H : sleep_begin ?d ?w = _ |- _ =>
         rewrite <- (pstate_sleep_begin d w), H end; done.
Qed.

Lemma pstate_work pc thrown w : pstate (work pc thrown w).1 = pstate w.
Proof.
  unfold work. repeat case_match; simplify_eq/=; try done.
  all: match goal with H : sleep_begin ?d ?w = _ |- _ =>
         rewrite <- (pstate_sleep_begin d w), H end; done.
Qed.

Lemma trace_pstate w w' : pstate w' = pstate w -> trace w' = trace w.
Proof. by intros [= _ ->]. Qed.


























(** ** Lifecycle, interval and the result slot *)

(** C4.  [start()] while [running] is true raises (RuntimeError, the spec's
    InvalidStateError) and changes nothing, and so does [stop()] while
    [running] is false; otherwise [start()] sets [running] to true and
    [stop()] sets it to false. *)
Theorem start_stop_guard (w : world) (d : option Z) (b : bool)
    (Hb : running (sched w) = b) :
  if b then
    start d w = (w, Some (RuntimeError "Coroutine is already running!")) /\
    running (sched (stop d w).1) = false
  else
    stop d w = (w, Some (RuntimeError "Coroutine is already stopped!")) /\
    (start d w).2 = None /\ running (sched (start d w).1) = true.
Proof.
  destruct b.
  - split.
    + unfold start. by rewrite Hb.
    + unfold stop. rewrite Hb. simpl. destruct d as [d|]; simpl; [done|].
      unfold _stop. simpl. destruct (_main (sched w)) as [m|]; simpl; [|done].
      set (w1 := with_sched (set_running false) w).
      change (running (sched (fut_cancel m w1).1)
              = running (pstate w1).1).
      by rewrite <- (pstate_fut_cancel m w1).
  - repeat split.
    + unfold stop. by rewrite Hb.
    + unfold start. rewrite Hb. by destruct d.
    + unfold start. rewrite Hb. by destruct d.
Qed.

Lemma start_stop_guard_witness :
  let w := idle (__init__ awake_msg 200 [] false []) in
  stop None w = (w, Some (RuntimeError "Coroutine is already stopped!")) /\
  (start None w).2 = None /\ running (sched (start None w).1) = true.
Proof. exact (start_stop_guard (idle (__init__ awake_msg 200 [] false [])) None false eq_refl). Defined.

(** C9.  On a scheduler that was started but whose [_start] callback has not
    run yet (the slot [_main] is unset), [stop()] without delay raises
    AttributeError, and [running] is already false when it does. *)
Theorem stop_before_start_callback (w : world)
    (Hr : running (sched w) = false) (Hm : _main (sched w) = None) :
  let w1 := (start None w).1 in
  (start None w).2 = None /\
  running (sched w1) = true /\
  _ready w1 = _ready w ++ [HStart] /\
  _main (sched w1) = None /\
  (stop None w1).2 = Some (AttributeError "_main") /\
  running (sched (stop None w1).1) = false.
Proof.
  unfold start. rewrite Hr. simpl. unfold stop, _stop. simpl. rewrite Hm. done.
Qed.

Lemma stop_before_start_callback_witness :
  let w := idle (__init__ awake_msg 200 [] false []) in
  (stop None (start None w).1).2 = Some (AttributeError "_main") /\
  running (sched (stop None (start None w).1).1) = false.
Proof.
  pose proof (stop_before_start_callback (idle (__init__ awake_msg 200 [] false []))
                eq_refl eq_refl) as H.
  split; apply H.
Defined.

(** C7, as stated, fails: [__init__] stores whatever interval it is given. *)
Lemma interval_not_validated :
  interval (__init__ awake_msg (-5) [] false []) = -5 /\
  ~ 0 < interval (__init__ awake_msg (-5) [] false []).
Proof. split; [done|]. simpl. lia. Qed.

(** C7, amended.  The interval is the constructor's argument and no step of
    any run changes it. *)
Theorem interval_fixed (cf : coroutine_function) (i : Z) (args : list value)
    (ign : bool) (kwargs : list (string * value)) (script : list (Z * handle)) (n : nat) :
  interval (__init__ cf i args ign kwargs) = i /\
  interval (sched (run n (boot (__init__ cf i args ign kwargs) script))) = i.
Proof.
  split; [done|].
  pose proof (evolves_cfg _ _ (evolves_run n (boot (__init__ cf i args ign kwargs) script)))
    as H.
  unfold cfg in H. by injection H.
Qed.

(** *** get_result leaves the scheduler's fields alone *)

Lemma ff_pstate w w' : pstate w' = pstate w -> frame_fields (sched w') = frame_fields (sched w).
Proof. by intros [= -> _]. Qed.

Lemma ff_lock_acquire w : frame_fields (sched (lock_acquire w).1) = frame_fields (sched w).
Proof. unfold lock_acquire. by case_match. Qed.

Lemma ff_lock_release w : frame_fields (sched (lock_release w).1) = frame_fields (sched w).
Proof.
  unfold lock_release. case_match; [|done]. simpl.
  by rewrite (ff_pstate _ _ (pstate__wake_up_first _)).
Qed.

Lemma ff_lock_acquire_resume f r w :
  frame_fields (sched (lock_acquire_resume f r w).1) = frame_fields (sched w).
Proof.
  unfold lock_acquire_resume. repeat case_match; simpl; try done.
  by rewrite (ff_pstate _ _ (pstate__wake_up_first _)).
Qed.

Lemma ff_aexit r w : frame_fields (sched (aexit r w).1) = frame_fields (sched w).
Proof.
  unfold aexit. pose proof (ff_lock_release w). by destruct (lock_release w) as [w' [e|]].
Qed.

Lemma ff_get_result_locked w :
  frame_fields (sched (get_result_locked w).1) = frame_fields (sched w).
Proof. unfold get_result_locked. case_match; apply ff_aexit. Qed.

Lemma ff_get_result pc thrown w :
  frame_fields (sched (get_result pc thrown w).1) = frame_fields (sched w).
Proof.
  unfold get_result. destruct pc; try done.
  - destruct thrown; [done|]. pose proof (ff_lock_acquire w) as Ha.
    destruct (lock_acquire w) as [w1 [f|]]; [done|].
    by rewrite ff_get_result_locked.
  - pose proof (ff_lock_acquire_resume f (awaited w f thrown) w) as Ha.
    destruct (lock_acquire_resume _ _ _) as [w1 [e|]]; [done|].
    by rewrite ff_get_result_locked.
Qed.

(** C10.  [get_result()] changes no field of the scheduler but the lock:
    not in its body, whatever it is resumed with, and not in the step of the
    task that runs it, whether that step suspends, returns or raises. *)
Theorem get_result_frame (pc : coro) (thrown : option exn) (w : world) :
  frame_fields (sched (get_result pc thrown w).1) = frame_fields (sched w) /\
  (forall r exc st cbs n fw mc,
     futures w !! r = Some (Future st cbs (KTask n pc fw mc)) ->
     family_of pc = FReader ->
     frame_fields (sched (task_step r exc w)) = frame_fields (sched w)).
Proof.
  split; [apply ff_get_result|].
  intros r exc st cbs n fw mc Hr Hfam. unfold task_step. rewrite Hr.
  destruct st; try done.
  set (w0 := store_coro r pc None (set_must_cancel r false w)).
  set (e := if mc then Some CancelledError else exc).
  assert (frame_fields (sched (resume r pc e w0).1) = frame_fields (sched w)) as Hres.
  { change (frame_fields (sched w)) with (frame_fields (sched w0)).
    destruct pc; try done; apply ff_get_result. }
  destruct (resume r pc e w0) as [w1 res].
  cbn [fst] in Hres.
  destruct res; [..|done]; (etrans; [|exact Hres]); repeat case_match; apply ff_pstate;
    rewrite ?pstate_set_must_cancel, ?pstate_finish, ?pstate_set_fut_result,
      ?pstate_set_fut_exception; try done.
  all: try match goal with E : fut_cancel ?g ?w2 = _ |- _ =>
        pose proof (pstate_fut_cancel g w2) as Hc; rewrite E in Hc; simpl in Hc;
        rewrite Hc end.
  all: try by rewrite ?pstate_store_coro, ?pstate_add_done_callback.
Qed.

(** *** Reading the slot under the lock *)

Lemma aexit_locked r w : _locked (lock_of w) = true -> (aexit r w).2 = r.
Proof. intros H. unfold aexit, lock_release. by rewrite H. Qed.

Lemma get_result_locked_outcome w :
  _locked (lock_of w) = true ->
  (get_result_locked w).2 =
    match _result (sched w) with
    | Some v => SReturn v
    | None => SRaise (AttributeError "_result")
    end.
Proof. intros H. unfold get_result_locked. case_match; by apply aexit_locked. Qed.

(** What a [get_result] that is given the lock does: it reads the slot as it
    is at that moment. *)
Lemma get_result_granted pc thrown w :
  granted pc thrown w ->
  (get_result pc thrown w).2 =
    match _result (sched w) with
    | Some v => SReturn v
    | None => SRaise (AttributeError "_result")
    end.
Proof.
  unfold granted, get_result. destruct pc; try done.
  - intros [-> Ha]. unfold lock_acquire in *. case_match; [|done].
    by rewrite get_result_locked_outcome.
  - intros [v Hv]. rewrite Hv. unfold lock_acquire_resume.
    by rewrite get_result_locked_outcome.
Qed.

(** C3, as stated, fails: in the first test of the repository the call is
    made at 0.01 s, when no cycle has completed; it waits for the lock that
    the first cycle holds and returns that cycle's value. *)
Lemma get_result_waits_for_first_cycle :
  let w0 := world_long_interval false in
  (let w := run 6 w0 in
   time w = 1 /\ readers w = [Pending] /\
   omap written (trace w) = [] /\ _result (sched w) = None) /\
  readers (run 10 w0) = [Result (Plain (VStr "Good Morning!"))].
Proof. by vm_compute. Qed.

(** C3, amended.  With ignore_exceptions false, a [get_result()] that is
    given the lock when no cycle has written the slot yet raises
    AttributeError (the spec's ResultNotReadyError); once a cycle has
    written it, [get_result()] returns the value written last. *)
Theorem get_result_not_ready (cf : coroutine_function) (i : Z) (args : list value)
    (kwargs : list (string * value)) (script : list (Z * handle)) (n : nat)
    (pc : coro) (thrown : option exn) :
  let w := run n (boot (__init__ cf i args false kwargs) script) in
  granted pc thrown w ->
  (get_result pc thrown w).2 =
    match last_write (trace w) with
    | None => SRaise (AttributeError "_result")
    | Some v => SReturn v
    end.
Proof.
  intros w Hg. subst w. rewrite (get_result_granted _ _ _ Hg).
  rewrite (wf_slot _ _ (wf_run (__init__ cf i args false kwargs) script n)).
  by destruct (last_write _).
Qed.

Lemma get_result_not_ready_witness :
  let w := run 9 (world_long_interval false) in
  (get_result (Reader_acquire 9) None w).2 = SReturn (Plain (VStr "Good Morning!")).
Proof.
  refine (get_result_not_ready awake_msg 200 [] [] test_script 9 (Reader_acquire 9) None _).
  by exists (Plain VTrue).
Defined.

(** C5, as stated, fails: with ignore_exceptions true and an interval longer
    than the work, a call made before the first completion returns the
    value of the first cycle, not the placeholder. *)
Lemma get_result_placeholder_not_returned :
  let w0 := world_long_interval true in
  (let w := run 6 w0 in
   time w = 1 /\ readers w = [Pending] /\
   omap written (trace w) = [] /\ _result (sched w) = Some Sentinel) /\
  readers (run 10 w0) = [Result (Plain (VStr "Good Morning!"))].
Proof. by vm_compute. Qed.

(** C5, amended.  With ignore_exceptions true the slot holds the placeholder
    from construction on; a [get_result()] that is given the lock returns the
    placeholder when no cycle has written the slot yet and the value written
    last afterwards, so it never raises; and no unit of work returns the
    placeholder. *)
Theorem get_result_placeholder (cf : coroutine_function) (i : Z) (args : list value)
    (kwargs : list (string * value)) (script : list (Z * handle)) (n : nat)
    (pc : coro) (thrown : option exn) :
  let p := __init__ cf i args true kwargs in
  let w := run n (boot p script) in
  granted pc thrown w ->
  _result p = Some Sentinel /\
  (get_result pc thrown w).2 =
    SReturn (match last_write (trace w) with None => Sentinel | Some v => v end) /\
  (forall r, work_finish r <> SReturn Sentinel).
Proof.
  intros p w Hg. subst w. split; [done|]. split.
  - rewrite (get_result_granted _ _ _ Hg).
    rewrite (wf_slot _ _ (wf_run p script n)).
    by destruct (last_write _).
  - intros r. unfold work_finish. by destruct (w_outcome r).
Qed.

Lemma get_result_placeholder_witness :
  let w := run 12 (world_short_interval true) in
  (get_result (Reader_acquire 9) None w).2 = SReturn Sentinel.
Proof.
  refine (proj1 (proj2 (get_result_placeholder awake_msg 20 [] [] test_script 12
                          (Reader_acquire 9) None _))).
  by exists (Plain VTrue).
Defined.

(** ** Steps on the heap of futures, computed *)

Lemma futures_foldl_call_soon i cbs : forall w,
  futures (foldl (fun w cb => call_soon (HCallback cb i) w) w cbs) = futures w.
Proof. induction cbs as [|cb cbs IH]; intros w; simpl; [done|]. by rewrite IH. Qed.

Lemma ready_foldl_call_soon i cbs : forall w,
  _ready (foldl (fun w cb => call_soon (HCallback cb i) w) w cbs)
  = _ready w ++ ((fun cb => HCallback cb i) <$> cbs).
Proof.
  induction cbs as [|cb cbs IH]; intros w; simpl; [by rewrite app_nil_r|].
  rewrite IH. simpl. by rewrite <- app_assoc.
Qed.

(** [finish] on a pending future: the state changes, the callbacks are
    scheduled in order. *)
Lemma finish_pending i st cbs k w :
  futures w !! i = Some (Future Pending cbs k) ->
  futures (finish i st w) = <[i := Future st [] k]> (futures w) /\
  _ready (finish i st w) = _ready w ++ ((fun cb => HCallback cb i) <$> cbs).
Proof.
  intros H. unfold finish. rewrite H. by rewrite futures_foldl_call_soon, ready_foldl_call_soon.
Qed.

Lemma finish_state_eq i st cbs k w :
  futures w !! i = Some (Future Pending cbs k) -> state_of (finish i st w) i = Some st.
Proof.
  intros H. unfold state_of. rewrite (proj1 (finish_pending i st cbs k w H)).
  rewrite list_lookup_insert_eq by (by eapply lookup_lt_Some). done.
Qed.

Lemma state_of_lookup w i f : futures w !! i = Some f -> state_of w i = Some (f_state f).
Proof. unfold state_of. by intros ->. Qed.

Lemma state_of_done w i st : state_of w i = Some st -> st <> Pending -> done w i = true.
Proof.
  unfold state_of, done. destruct (futures w !! i) as [[[] ? ?]|]; intros; simplify_eq/=; done.
Qed.

Lemma state_of_result w i st : state_of w i = Some st -> result w i = result_of_state st.
Proof. unfold state_of, result. destruct (futures w !! i); intros; simplify_eq/=; done. Qed.

Lemma state_of_alter w i j g :
  (forall f, f_state (g f) = f_state f) ->
  state_of (with_futures (alter g i) w) j = state_of w j.
Proof.
  intros Hg. unfold state_of, with_futures. cbn [futures].
  destruct (decide (i = j)) as [->|Hne].
  - rewrite list_lookup_alter_eq. destruct (futures w !! j); simpl; [|done]. by rewrite Hg.
  - by rewrite list_lookup_alter_ne.
Qed.

Lemma state_of_store_coro w t co fw j : state_of (store_coro t co fw w) j = state_of w j.
Proof. apply state_of_alter. intros [st cbs []]; done. Qed.

Lemma state_of_set_must_cancel w t b j : state_of (set_must_cancel t b w) j = state_of w j.
Proof. apply state_of_alter. intros [st cbs []]; done. Qed.


Lemma state_of_remove_done_callback w g cb j :
  state_of (remove_done_callback g cb w) j = state_of w j.
Proof. apply state_of_alter. by intros [st cbs k]. Qed.

(** *** A failure of the work: the links from the work to the driving loop *)

Lemma lock_release_locked w :
  _locked (lock_of w) = true ->
  (lock_release w).2 = None /\
  _locked (lock_of (lock_release w).1) = false /\
  trace (lock_release w).1 = trace w.
Proof.
  intros H. unfold lock_release. rewrite H. cbn [fst snd]. split; [done|].
  pose proof (pstate__wake_up_first (put_lock (MkLock false (_waiters (lock_of w))) w)) as Hp.
  injection Hp as Hs Ht. unfold lock_of at 1. by rewrite Hs, Ht.
Qed.










Lemma cancel_gather2 d g cbs a b n cr w w1 :
  futures w !! g = Some (Future Pending cbs (KGather [a; b] n cr)) ->
  cancel d a w = (w1, true) ->
  cancel (S d) g w = (set_cancel_requested g (cancel d b w1).1, true).
Proof.
  intros H Hc. simpl. rewrite H. simpl. rewrite Hc.
  destruct (cancel d b w1) as [w2 b2]. done.
Qed.















Lemma run_add k n w : run (k + n) w = run k (run n w).
Proof. unfold run. by rewrite Nat.iter_add. Qed.





Lemma remove_first_sublist f l : remove_first f l `sublist_of` l.
Proof.
  induction l as [|x l IH]; simpl; [done|].
  destruct (decide (x = f)); [by apply sublist_cons|by apply sublist_skip].
Qed.

Lemma remove_first_head f l : remove_first f (f :: l) = l.
Proof. simpl. by rewrite decide_True. Qed.

Lemma remove_first_head_ne f h l :
  head l = Some h -> h <> f -> head (remove_first f l) = Some h.
Proof. destruct l as [|x l]; simpl; [done|]. intros [= ->] Hne. by rewrite decide_False. Qed.

Lemma remove_first_elem f l x : x ∈ remove_first f l -> x ∈ l.
Proof. intros H. eapply elem_of_sublist; [done|apply remove_first_sublist]. Qed.

Lemma lock_inv_waiters_nodup w : lock_inv w -> NoDup (_waiters (lock_of w)).
Proof.
  intros [Hnd _ (R1 & R2 & HR & _ & Hq) _ _].
  eapply sublist_NoDup; [|exact Hq]. rewrite HR in Hnd. by apply NoDup_app in Hnd as (_ & _ & ?).
Qed.

Lemma lock_inv_waiters_bound w f :
  lock_inv w -> f ∈ _waiters (lock_of w) -> (f < length (futures w))%nat.
Proof.
  intros [_ Hb (R1 & R2 & HR & _ & Hq) _ _] Hf. apply Hb. rewrite HR.
  apply elem_of_app. right. by eapply elem_of_sublist.
Qed.

Lemma state_of_finish j i st w :
  state_of (finish i st w) j =
    if decide (j = i) then
      match state_of w i with Some Pending => Some st | o => o end
    else state_of w j.
Proof.
  unfold state_of, finish.
  destruct (futures w !! i) as [[sti cbs k]|] eqn:E.
  - destruct sti; try (case_decide; [by subst; rewrite E|done]).
    rewrite futures_foldl_call_soon. cbn [futures with_futures].
    case_decide as Hd.
    + subst. rewrite list_lookup_insert_eq by (by eapply lookup_lt_Some). done.
    + rewrite list_lookup_insert_ne by done. done.
  - case_decide; [by subst; rewrite E|done].
Qed.

Lemma kind_of_finish j i st w : kind_of (finish i st w) j = kind_of w j.
Proof.
  unfold kind_of, finish.
  destruct (futures w !! i) as [[[] cbs k]|] eqn:E; try done.
  rewrite futures_foldl_call_soon. cbn [futures with_futures].
  destruct (decide (i = j)) as [->|Hne].
  - rewrite list_lookup_insert_eq by (by eapply lookup_lt_Some). by rewrite E.
  - by rewrite list_lookup_insert_ne.
Qed.

Lemma length_finish i st w : length (futures (finish i st w)) = length (futures w).
Proof.
  unfold finish. destruct (futures w !! i) as [[[] cbs k]|]; try done.
  rewrite futures_foldl_call_soon. cbn [futures with_futures]. by rewrite length_insert.
Qed.

Lemma remove_first_not_in f l : NoDup l -> f ∉ remove_first f l.
Proof.
  induction 1 as [|x l Hx Hnd IH]; simpl; [apply not_elem_of_nil|].
  destruct (decide (x = f)) as [->|Hne]; [done|].
  intros [?|?]%elem_of_cons; [congruence|done].
Qed.

(** The invariant looks at the world through the queue, the two projections
    of the trace, and the futures that are queued. *)
Lemma lock_inv_update w w' :
  lock_inv w ->
  _waiters (lock_of w') = _waiters (lock_of w) ->
  requests (trace w') = requests (trace w) ->
  grants (trace w') = grants (trace w) ->
  (length (futures w) <= length (futures w'))%nat ->
  (forall f, f ∈ _waiters (lock_of w) -> kind_of w' f = kind_of w f) ->
  (forall f v, f ∈ _waiters (lock_of w) -> state_of w' f = Some (Result v) ->
     state_of w f = Some (Result v) \/ head (_waiters (lock_of w)) = Some f) ->
  lock_inv w'.
Proof.
  intros [Hnd Hb Ho Hp Hh] Hq Hr Hg Hlen Hk Hs. split.
  - by rewrite Hr.
  - intros f Hf. rewrite Hr in Hf. specialize (Hb f Hf). lia.
  - rewrite Hr, Hg, Hq. done.
  - intros f Hf. rewrite Hq in Hf. rewrite Hk by done. by apply Hp.
  - intros f v Hf Hst. rewrite Hq in *. destruct (Hs f v Hf Hst) as [Ho'|Hhd]; [|done].
    by eapply Hh.
Qed.

Lemma wake_up_first_spec w :
  pstate (_wake_up_first w) = pstate w /\
  length (futures (_wake_up_first w)) = length (futures w) /\
  (forall j, kind_of (_wake_up_first w) j = kind_of w j) /\
  (forall j v, state_of (_wake_up_first w) j = Some (Result v) ->
     state_of w j = Some (Result v) \/ head (_waiters (lock_of w)) = Some j).
Proof.
  split; [apply pstate__wake_up_first|]. unfold _wake_up_first.
  destruct (_waiters (lock_of w)) as [|h q]; [by auto|].
  destruct (done w h); [by auto|]. unfold set_fut_result.
  split; [apply length_finish|]. split; [intros; apply kind_of_finish|].
  intros j v. rewrite state_of_finish. case_decide; [subst; by right|by left].
Qed.

Lemma lock_of_pstate w w' : pstate w' = pstate w -> lock_of w' = lock_of w.
Proof. unfold lock_of. by intros [= -> _]. Qed.

Lemma lock_inv_wake_up_first w : lock_inv w -> lock_inv (_wake_up_first w).
Proof.
  intros H. destruct (wake_up_first_spec w) as (Hp & Hl & Hk & Hs).
  apply (lock_inv_update w); try done.
  - by rewrite (lock_of_pstate _ _ Hp).
  - by rewrite (trace_pstate _ _ Hp).
  - by rewrite (trace_pstate _ _ Hp).
  - lia.
  - intros. apply Hs. done.
Qed.

Lemma lock_inv_flag w b :
  lock_inv w -> lock_inv (put_lock (MkLock b (_waiters (lock_of w))) w).
Proof. intros H. apply (lock_inv_update w); auto. Qed.

Lemma lock_inv_acquire w : lock_inv w -> lock_inv (lock_acquire w).1.
Proof.
  intros H. unfold lock_acquire.
  destruct (negb _ && _); [by apply lock_inv_flag|].
  cbn [create_future new_future fst snd].
  destruct H as [Hnd Hb (R1 & R2 & HR & HG & HQ) Hp Hh].
  set (f := length (futures w)). set (Q := _waiters (lock_of w)) in *.
  assert (requests (trace w ++ [EvRequest f]) = requests (trace w) ++ [f]) as Hreq.
  { unfold requests. by rewrite omap_app. }
  assert (grants (trace w ++ [EvRequest f]) = grants (trace w)) as Hgr.
  { unfold grants. rewrite omap_app. simpl. by rewrite app_nil_r. }
  assert (forall x, x ∈ Q -> (x < f)%nat) as Hqb.
  { intros x Hx. apply Hb. rewrite HR. apply elem_of_app. right. by eapply elem_of_sublist. }
  split; cbn [trace record put_lock with_sched with_futures sched futures lock_of _lock set_lock
              _waiters].
  - rewrite Hreq. apply NoDup_app. split; [done|]. split; [|apply NoDup_singleton].
    intros x Hx ->%list_elem_of_singleton. specialize (Hb _ Hx). unfold f in Hb. lia.
  - intros x. rewrite Hreq, length_app. simpl.
    intros [Hx| ->%list_elem_of_singleton]%elem_of_app; [specialize (Hb _ Hx)|unfold f]; lia.
  - exists R1, (R2 ++ [f]). rewrite Hreq, Hgr, HR, <- app_assoc.
    split; [done|]. split; [done|]. by apply sublist_app.
  - intros x [Hx| ->%list_elem_of_singleton]%elem_of_app; unfold kind_of;
      cbn [futures record put_lock with_sched with_futures].
    + specialize (Hqb _ Hx). rewrite lookup_app_l by done. by apply Hp.
    + unfold f. by rewrite list_lookup_middle.
  - intros x v [Hx| ->%list_elem_of_singleton]%elem_of_app; unfold state_of;
      cbn [futures record put_lock with_sched with_futures].
    + specialize (Hqb _ Hx). rewrite lookup_app_l by done. intros Hst.
      pose proof (Hh x v Hx Hst) as Hhd. destruct Q; [done|]. done.
    + unfold f. by rewrite list_lookup_middle.
Qed.

Lemma lock_inv_release w : lock_inv w -> lock_inv (lock_release w).1.
Proof.
  intros H. unfold lock_release. destruct (_locked (lock_of w)); [|done].
  cbn [fst]. by apply lock_inv_wake_up_first, lock_inv_flag.
Qed.

Lemma lock_inv_dequeue w f l :
  lock_inv w ->
  lock_inv (put_lock (MkLock l (remove_first f (_waiters (lock_of w)))) w) /\
  (f ∈ _waiters (lock_of w) ->
   forall v, state_of w f = Some (Result v) ->
     remove_first f (_waiters (lock_of w)) = tail (_waiters (lock_of w)) /\
     head (_waiters (lock_of w)) = Some f /\
     forall x u, x ∈ remove_first f (_waiters (lock_of w)) ->
       state_of w x <> Some (Result u)).
Proof.
  intros H. pose proof (lock_inv_waiters_nodup _ H) as HndQ.
  destruct H as [Hnd Hb (R1 & R2 & HR & HG & HQ) Hp Hh]. split.
  - split; cbn [trace put_lock with_sched sched futures lock_of _lock set_lock _waiters];
      try done.
    + exists R1, R2. split; [done|]. split; [done|].
      etrans; [apply remove_first_sublist|done].
    + intros x Hx. apply Hp. by eapply remove_first_elem.
    + intros x v Hx Hst. pose proof (Hh x v (remove_first_elem _ _ _ Hx) Hst) as Hhd.
      apply remove_first_head_ne; [done|]. intros ->. by eapply remove_first_not_in.
  - intros Hf v Hst. pose proof (Hh f v Hf Hst) as Hhd.
    destruct (_waiters (lock_of w)) as [|h q] eqn:EQ; simplify_eq/=.
    rewrite decide_True by done. repeat split; try done.
    intros x u Hx Hxs. pose proof (Hh x u (list_elem_of_further _ _ _ Hx) Hxs) as Hx'.
    simplify_eq/=. by apply NoDup_cons in HndQ as [? _].
Qed.

Lemma lock_inv_resume w f r :
  lock_inv w -> f ∈ _waiters (lock_of w) ->
  (forall v, r = inl v -> exists u, state_of w f = Some (Result u)) ->
  lock_inv (lock_acquire_resume f r w).1.
Proof.
  intros H Hf Hr. unfold lock_acquire_resume.
  set (w1 := put_lock (MkLock (_locked (lock_of w)) (remove_first f (_waiters (lock_of w)))) w).
  destruct (lock_inv_dequeue w f (_locked (lock_of w)) H) as [H1 Hhead]. fold w1 in H1.
  destruct r as [v|e].
  - destruct (Hr v eq_refl) as [u Hu].
    destruct (Hhead Hf u Hu) as (Htl & Hhd & Hnone).
    cbn [fst]. destruct H1 as [Hnd Hb (R1 & R2 & HR & HG & HQ) Hp Hh].
    assert (grants (trace w1 ++ [EvGrant f]) = grants (trace w1) ++ [f]) as Hgr.
    { unfold grants. by rewrite omap_app. }
    assert (requests (trace w1 ++ [EvGrant f]) = requests (trace w1)) as Hreq.
    { unfold requests. rewrite omap_app. simpl. by rewrite app_nil_r. }
    pose proof (lock_inv_waiters_nodup _ H) as HndQ.
    destruct H as [_ _ (S1 & S2 & HS & HSG & HSQ) _ _].
    destruct (_waiters (lock_of w)) as [|h q] eqn:EQ; simplify_eq/=.
    apply sublist_cons_l in HSQ as (k1 & k2 & -> & Hq).
    rewrite decide_True in * by done.
    split; cbn [trace record put_lock with_sched sched futures lock_of _lock set_lock _waiters];
      unfold w1; cbn [trace record put_lock with_sched sched futures lock_of _lock set_lock
                      _waiters].
    + change (NoDup (requests (trace w ++ [EvGrant f]))).
      change (trace w1) with (trace w) in Hreq. by rewrite Hreq.
    + intros x. change (trace w1) with (trace w) in Hreq. rewrite Hreq. apply Hb.
    + change (trace w1) with (trace w) in Hreq, Hgr. rewrite Hreq, Hgr.
      exists (S1 ++ k1 ++ [f]), k2. rewrite HS.
      split; [by rewrite <- !app_assoc|]. split; [|done].
      apply sublist_app; [done|]. apply sublist_inserts_l. done.
    + intros x Hx. by apply Hp.
    + intros x v' Hx Hst. exfalso. by eapply (Hnone x v').
  - assert (lock_inv (if _locked (lock_of w) then w1 else _wake_up_first w1)) as Hw.
    { destruct (_locked (lock_of w)); [done|by apply lock_inv_wake_up_first]. }
    destruct (is_cancelled_error e); done.
Qed.

Lemma cancel_plain_any f w :
  kind_of w f = Some KPlain -> (fut_cancel f w).1 = finish f Cancelled w.
Proof.
  unfold kind_of, fut_cancel, cancel_depth. intros Hk.
  destruct (futures w !! f) as [[st cbs k]|] eqn:E; simplify_eq/=.
  rewrite E. unfold finish. rewrite E. by destruct st.
Qed.

Lemma lock_inv_cancel w f :
  lock_inv w -> f ∈ _waiters (lock_of w) -> lock_inv (fut_cancel f w).1.
Proof.
  intros H Hf. rewrite (cancel_plain_any f w) by (by apply (li_plain _ H)).
  apply (lock_inv_update w); try done.
  - by rewrite (lock_of_pstate _ _ (pstate_finish _ _ _)).
  - by rewrite (trace_pstate _ _ (pstate_finish _ _ _)).
  - by rewrite (trace_pstate _ _ (pstate_finish _ _ _)).
  - by rewrite length_finish.
  - intros. apply kind_of_finish.
  - intros x v _. rewrite state_of_finish. case_decide; [|by left].
    subst. destruct (state_of w f) as [[]|]; try done; by left.
Qed.

Lemma lock_inv_env w w' : lock_inv w -> lock_env w w' -> lock_inv w'.
Proof.
  intros H [Hl Hr Hg Hlen Hw]. apply (lock_inv_update w); try done.
  - by rewrite Hl.
  - intros f Hf. by apply Hw.
  - intros f v Hf Hst. left. by rewrite <- (proj1 (Hw f Hf)).
Qed.

Lemma lock_inv_step w w' : lock_step w w' -> lock_inv w -> lock_inv w'.
Proof.
  intros Hs H. destruct Hs as [w|w|w f thrown Hf|w f Hf|w w' He].
  - by apply lock_inv_acquire.
  - by apply lock_inv_release.
  - apply lock_inv_resume; [done..|]. intros v Hv. exists v.
    destruct thrown; [done|]. simpl in Hv.
    unfold result, state_of in *. destruct (futures w !! f) as [[[] ? ?]|]; simplify_eq/=; done.
  - by apply lock_inv_cancel.
  - by eapply lock_inv_env.
Qed.

Lemma lock_inv_boot p script : _waiters (_lock p) = [] -> lock_inv (boot p script).
Proof.
  intros Hq. split; simpl; unfold lock_of; simpl; rewrite ?Hq.
  - apply NoDup_nil_2.
  - intros f Hf. by apply elem_of_nil in Hf.
  - by exists [], [].
  - intros f Hf. by apply elem_of_nil in Hf.
  - intros f v Hf. by apply elem_of_nil in Hf.
Qed.

Lemma lock_steps_aexit r w : lock_steps w (aexit r w).1.
Proof.
  unfold aexit. pose proof (ls_release w) as Hs.
  destruct (lock_release w) as [w1 [e|]]; by apply rtc_once.
Qed.

Lemma lock_steps_get_result_locked w : lock_steps w (get_result_locked w).1.
Proof. unfold get_result_locked. case_match; by apply lock_steps_aexit. Qed.

Lemma lock_steps_get_result pc thrown w :
  queued w pc -> lock_steps w (get_result pc thrown w).1.
Proof.
  unfold get_result, queued. destruct pc; try (intros; apply rtc_refl).
  - intros _. destruct thrown; [apply rtc_refl|].
    pose proof (ls_acquire w) as Ha.
    destruct (lock_acquire w) as [w1 [f|]]; [by apply rtc_once|].
    eapply rtc_l; [exact Ha|]. by apply lock_steps_get_result_locked.
  - intros Hq. pose proof (ls_resume w f thrown (Hq f eq_refl)) as Ha.
    destruct (lock_acquire_resume _ _ _) as [w1 [e|]]; [by apply rtc_once|].
    eapply rtc_l; [exact Ha|]. by apply lock_steps_get_result_locked.
Qed.

(** Steps of [_inner] that are not operations of the lock. *)
Lemma lock_env_write self t v w :
  lock_env w (record (EvWrite self t v) (with_sched (set_result v) w)).
Proof.
  split; try done.
  - simpl. unfold requests. rewrite omap_app. simpl. by rewrite app_nil_r.
  - simpl. unfold grants. rewrite omap_app. simpl. by rewrite app_nil_r.
Qed.

Lemma lock_env_spawn self c w :
  (forall f, f ∈ _waiters (lock_of w) -> (f < length (futures w))%nat) ->
  let p := sched w in
  let r := co_call (_coro p) (_args p) (_kwargs p) (ncalls w) in
  let tw := (create_task (task_name p c) (Work_begin r) [] (count_call w)) in
  lock_env w (record (EvSpawn self tw.1 (task_name p c)) (with_sched (set_task tw.1) tw.2)).
Proof.
  intros Hb. simpl. split; try done.
  - simpl. unfold requests. rewrite omap_app. simpl. by rewrite app_nil_r.
  - simpl. unfold grants. rewrite omap_app. simpl. by rewrite app_nil_r.
  - simpl. rewrite length_app. lia.
  - intros f Hf. specialize (Hb f Hf). unfold state_of, kind_of. simpl.
    by rewrite lookup_app_l.
Qed.

Lemma lock_steps__inner_assign self t r w : lock_steps w (_inner_assign self t r w).1.
Proof.
  unfold _inner_assign. destruct r as [v|e]; [|by apply lock_steps_aexit].
  eapply rtc_l; [apply ls_env, (lock_env_write self t v)|].
  by apply lock_steps_aexit.
Qed.

Lemma lock_steps__inner_locked self c w : lock_steps w (_inner_locked self c w).1.
Proof.
  unfold _inner_locked. repeat case_match; try apply rtc_refl.
  - by apply lock_steps__inner_assign.
  - by apply lock_steps_aexit.
Qed.

Lemma lock_steps__inner self pc thrown w :
  lock_inv w -> queued w pc -> lock_steps w (_inner self pc thrown w).1.
Proof.
  intros Hinv. unfold _inner, queued. destruct pc; try (intros; apply rtc_refl).
  - intros _. destruct thrown; [apply rtc_refl|]. unfold _inner_begin.
    pose proof (lock_env_spawn self counter w
                  (fun f Hf => lock_inv_waiters_bound w f Hinv Hf)) as He.
    cbn zeta in He.
    destruct (create_task _ _ _ _) as [t w1]. cbn [fst snd] in He.
    eapply rtc_l; [apply ls_env, He|].
    match goal with |- context [lock_acquire ?w0] =>
      pose proof (ls_acquire w0) as Ha;
      destruct (lock_acquire w0) as [w2 [f|]] end; [by apply rtc_once|].
    eapply rtc_l; [exact Ha|]. by apply lock_steps__inner_locked.
  - intros Hq. pose proof (ls_resume w f thrown (Hq f eq_refl)) as Ha.
    destruct (lock_acquire_resume _ _ _) as [w1 [e|]]; [by apply rtc_once|].
    eapply rtc_l; [exact Ha|]. by apply lock_steps__inner_locked.
  - intros _. by apply lock_steps__inner_assign.
Qed.

Lemma lock_inv_steps w w' : lock_steps w w' -> lock_inv w -> lock_inv w'.
Proof. induction 1; eauto using lock_inv_step. Qed.

(** No barging: while the lock is held, or a waiter that is not cancelled is
    queued, [acquire] queues the newcomer at the tail. *)
Lemma acquire_queues w :
  _locked (lock_of w) = true \/
  (exists f, f ∈ _waiters (lock_of w) /\ cancelled w f = false) ->
  (lock_acquire w).2 = Some (length (futures w)) /\
  _waiters (lock_of (lock_acquire w).1) = _waiters (lock_of w) ++ [length (futures w)] /\
  _locked (lock_of (lock_acquire w).1) = _locked (lock_of w).
Proof.
  intros H. unfold lock_acquire.
  assert (negb (_locked (lock_of w)) && forallb (cancelled w) (_waiters (lock_of w)) = false)
    as ->; [|done].
  destruct H as [->|(f & Hf & Hc)]; [done|].
  apply andb_false_iff. right. apply not_true_iff_false. intros Hall.
  rewrite forallb_forall in Hall. rewrite (Hall f) in Hc; [done|].
  by apply list_elem_of_In.
Qed.

Lemma done_state_of w i :
  done w i = match state_of w i with Some Pending | None => false | Some _ => true end.
Proof. unfold done, state_of. by destruct (futures w !! i) as [[[] ? ?]|]. Qed.

(** When the lock is released, the waiter at the head of the queue is woken:
    its future is done, so its task is scheduled. *)
Lemma release_wakes_head w h q :
  lock_inv w -> _locked (lock_of w) = true -> _waiters (lock_of w) = h :: q ->
  done (lock_release w).1 h = true.
Proof.
  intros Hinv Hl Hq. unfold lock_release. rewrite Hl. cbn [fst]. unfold _wake_up_first.
  set (w1 := put_lock (MkLock false (_waiters (lock_of w))) w).
  assert (_waiters (lock_of w1) = h :: q) as -> by (by rewrite <- Hq).
  destruct (done w1 h) eqn:Hd; [done|].
  assert (h < length (futures w1))%nat as Hb.
  { apply (lock_inv_waiters_bound w h Hinv). rewrite Hq. by left. }
  apply lookup_lt_is_Some in Hb as [fh Hfh].
  rewrite done_state_of in *. unfold set_fut_result. rewrite state_of_finish.
  rewrite decide_True by done. unfold state_of in *. rewrite Hfh in *.
  by destruct fh as [[] ? ?].
Qed.

Lemma keeps_refl d w : loop_inv w -> keeps d w w.
Proof. intros H. split; auto. Qed.

Lemma keeps_trans d w1 w2 w3 : keeps d w1 w2 -> keeps d w2 w3 -> keeps d w1 w3.
Proof.
  intros [I1 W1 L1 F1] [I2 W2 L2 F2]. split; auto. lia.
Qed.

Lemma keeps_weaken d w w' : keeps None w w' -> keeps d w w'.
Proof. intros [I W L F]. split; auto. Qed.

Lemma cb_ok_handle w cb i : cb_ok w cb -> handle_ok w (HCallback cb i).
Proof. done. Qed.

Lemma handle_ok_tgt w h : tgt h = None -> handle_ok w h.
Proof. intros H x Hx. congruence. Qed.

Lemma cb_ok_tgt w cb : cb_tgt cb = None -> cb_ok w cb.
Proof. intros H x Hx. congruence. Qed.

(** How a step is shown to keep the invariant: the lock part by the lemmas
    on the lock, the rest by looking at the handles and callbacks it adds. *)
Lemma keeps_intro d w w' :
  loop_inv w -> lock_inv w' ->
  (forall x, x ∈ _waiters (lock_of w) -> Some x <> d -> x ∈ _waiters (lock_of w')) ->
  (length (futures w) <= length (futures w'))%nat ->
  (forall x, x ∈ requests (trace w') ->
     x ∈ requests (trace w) \/ (length (futures w) <= x)%nat) ->
  (forall h, h ∈ _ready w' -> handle_ok w h) ->
  (forall th, th ∈ _scheduled w' -> handle_ok w th.2) ->
  (forall i f cb, futures w' !! i = Some f -> cb ∈ f_callbacks f -> cb_ok w cb) ->
  (forall x, kind_of w x = Some KPlain -> kind_of w' x = Some KPlain) ->
  keeps d w w'.
Proof.
  intros Hinv Hl Hw Hlen Hreq Hr Hs Hc Hk.
  assert (forall x, foreign w x -> foreign w' x) as Hf.
  { intros x (Hx & Hn & Hp). split; [lia|]. split; [|by apply Hk]. intros Hin.
    destruct (Hreq x Hin) as [?|?]; [done|lia]. }
  split; try done. split; try done.
  - intros h Hh x Hx. apply Hf. by apply (Hr h Hh).
  - intros th Hh x Hx. apply Hf. by apply (Hs th Hh).
  - intros i f cb Hi Hcb x Hx. apply Hf. by apply (Hc i f cb Hi Hcb).
Qed.

Ltac old_handles Hinv :=
  first [ by apply (inv_ready _ Hinv)
        | by apply (inv_scheduled _ Hinv)
        | by eapply (inv_callbacks _ Hinv); eauto ].

(** Steps that leave the lock and its waiters alone. *)
Lemma keeps_env w w' :
  loop_inv w -> lock_env w w' ->
  (forall h, h ∈ _ready w' -> handle_ok w h) ->
  (forall th, th ∈ _scheduled w' -> handle_ok w th.2) ->
  (forall i f cb, futures w' !! i = Some f -> cb ∈ f_callbacks f -> cb_ok w cb) ->
  (forall x, kind_of w x = Some KPlain -> kind_of w' x = Some KPlain) ->
  keeps None w w'.
Proof.
  intros Hinv He Hr Hs Hc Hk. apply keeps_intro; try done.
  - eapply lock_inv_env; [apply Hinv|done].
  - intros x Hx _. by rewrite (env_lock _ _ He).
  - apply He.
  - intros x Hx. left. by rewrite <- (env_requests _ _ He).
Qed.

Lemma lock_env_refl w : lock_env w w.
Proof. by split. Qed.

(** *** The loop's queues *)

Lemma keeps_call_soon h w : loop_inv w -> handle_ok w h -> keeps None w (call_soon h w).
Proof.
  intros Hinv Hh. apply keeps_env; try done; try (intros; old_handles Hinv).
  simpl. intros h' [Hin| ->%list_elem_of_singleton]%elem_of_app; [old_handles Hinv|done].
Qed.

Lemma elem_of_insert_timer x t h l :
  x ∈ insert_timer t h l -> x = (t, h) \/ x ∈ l.
Proof.
  induction l as [|[t' h'] l IH]; simpl.
  - intros ->%list_elem_of_singleton. by left.
  - destruct (t' <=? t).
    + intros [->|Hin]%elem_of_cons; [right; by left|].
      destruct (IH Hin) as [?|?]; [by left|right; by right].
    + intros [->|Hin]%elem_of_cons; [by left|by right].
Qed.

Lemma keeps_call_later delay h w :
  loop_inv w -> handle_ok w h -> keeps None w (call_later delay h w).
Proof.
  intros Hinv Hh. apply keeps_env; try done; try (intros; old_handles Hinv).
  simpl. intros th [->|Hin]%elem_of_insert_timer; [done|]. by apply (inv_scheduled _ Hinv).
Qed.

Lemma keeps_cancel_timer h w : loop_inv w -> keeps None w (cancel_timer h w).
Proof.
  intros Hinv. apply keeps_env; try done; try (intros; old_handles Hinv).
  unfold cancel_timer. cbn [with_scheduled _scheduled].
  intros th [_ Hin]%list_elem_of_filter. old_handles Hinv.
Qed.

Lemma keeps_count_call w : loop_inv w -> keeps None w (count_call w).
Proof. intros Hinv. apply keeps_env; try done; intros; old_handles Hinv. Qed.

(** *** The scheduler object and the trace *)

Lemma keeps_with_sched g w :
  loop_inv w -> _lock (g (sched w)) = _lock (sched w) -> keeps None w (with_sched g w).
Proof.
  intros Hinv Hl. apply keeps_env; try done; try (intros; old_handles Hinv).
Qed.

Lemma requests_snoc tr e :
  requests (tr ++ [e]) = requests tr ++ match requested e with Some f => [f] | None => [] end.
Proof. unfold requests. rewrite omap_app. simpl. by destruct (requested e). Qed.

Lemma grants_snoc tr e :
  grants (tr ++ [e]) = grants tr ++ match was_granted e with Some f => [f] | None => [] end.
Proof. unfold grants. rewrite omap_app. simpl. by destruct (was_granted e). Qed.

Lemma keeps_record e w :
  loop_inv w -> requested e = None -> was_granted e = None -> keeps None w (record e w).
Proof.
  intros Hinv Hr Hg. apply keeps_env; try done; try (intros; old_handles Hinv).
  split; try done; simpl.
  - by rewrite requests_snoc, Hr, app_nil_r.
  - by rewrite grants_snoc, Hg, app_nil_r.
Qed.

(** *** The heap of futures *)

Lemma keeps_new_future k cbs w :
  loop_inv w -> (forall cb, cb ∈ cbs -> cb_ok w cb) ->
  keeps None w (new_future k cbs w).2 /\
  (k = KPlain -> foreign (new_future k cbs w).2 (length (futures w))).
Proof.
  intros Hinv Hcbs.
  assert (forall f, f ∈ requests (trace w) -> (f < length (futures w))%nat) as Hb.
  { apply (li_bound w (inv_lock w Hinv)). }
  split.
  - apply keeps_env; try done; try (intros; old_handles Hinv).
    + split; try done; simpl.
      * rewrite length_app. lia.
      * intros f Hf. unfold state_of, kind_of. simpl.
        rewrite lookup_app_l; [done|]. by apply (lock_inv_waiters_bound w f (inv_lock w Hinv)).
    + simpl. intros i f cb Hi Hcb.
      apply lookup_app_Some in Hi as [Hi|[_ Hi]]; [old_handles Hinv|].
      apply list_lookup_singleton_Some in Hi as [_ <-]. by apply Hcbs.
    + intros x Hx. unfold kind_of in *. simpl.
      destruct (futures w !! x) as [fx|] eqn:E; [|done].
      by rewrite (lookup_app_l_Some _ _ _ _ E).
  - intros ->. split; simpl; [rewrite length_app; simpl; lia|]. split.
    + intros Hin. specialize (Hb _ Hin). lia.
    + unfold kind_of. simpl. rewrite lookup_app_r by done. by rewrite Nat.sub_diag.
Qed.

Lemma keeps_create_future w :
  loop_inv w ->
  keeps None w (create_future w).2 /\ foreign (create_future w).2 (length (futures w)).
Proof.
  intros Hinv.
  destruct (keeps_new_future KPlain [] w Hinv) as [K F]; [by intros cb ?%elem_of_nil|].
  split; [exact K|by apply F].
Qed.

Lemma keeps_create_task n co cbs w :
  loop_inv w -> (forall cb, cb ∈ cbs -> cb_ok w cb) ->
  keeps None w (create_task n co cbs w).2.
Proof.
  intros Hinv Hcbs. unfold create_task.
  destruct (keeps_new_future (KTask n co None false) cbs w Hinv Hcbs) as [Hk _].
  destruct (new_future _ _ _) as [t w1]. simpl in *.
  eapply keeps_trans; [exact Hk|]. apply keeps_call_soon; [apply Hk|done].
Qed.

(** A change of one future that keeps its state, and its kind when it is a
    plain future. *)
Lemma keeps_alter g i w :
  loop_inv w ->
  (forall f, futures w !! i = Some f ->
     f_state (g f) = f_state f /\ (f_kind f = KPlain -> f_kind (g f) = KPlain) /\
     forall cb, cb ∈ f_callbacks (g f) -> cb ∈ f_callbacks f \/ cb_ok w cb) ->
  keeps None w (with_futures (alter g i) w).
Proof.
  intros Hinv Hg. apply keeps_env; try done; try (intros; old_handles Hinv).
  - split; try done; simpl.
    + by rewrite length_alter.
    + intros f Hf. unfold state_of, kind_of. simpl.
      destruct (decide (i = f)) as [->|Hne]; [|by rewrite list_lookup_alter_ne].
      rewrite list_lookup_alter_eq.
      pose proof (li_plain w (inv_lock w Hinv) f Hf) as Hp. unfold kind_of in Hp.
      destruct (futures w !! f) as [x|] eqn:E; [|done]. simpl in *.
      destruct (Hg x eq_refl) as (-> & Hk & _). split; [done|].
      assert (f_kind x = KPlain) as Hx by congruence. rewrite Hk by done. by rewrite Hx.
  - simpl. intros j f cb Hj Hcb.
    destruct (decide (i = j)) as [->|Hne].
    + rewrite list_lookup_alter_eq in Hj.
      destruct (futures w !! j) as [x|] eqn:E; simplify_eq/=.
      destruct (Hg x eq_refl) as (_ & _ & Hc).
      destruct (Hc cb Hcb) as [?|?]; [old_handles Hinv|done].
    + rewrite list_lookup_alter_ne in Hj by done. old_handles Hinv.
  - intros x Hx. unfold kind_of in *. simpl.
    destruct (decide (i = x)) as [->|Hne]; [|by rewrite list_lookup_alter_ne].
    rewrite list_lookup_alter_eq.
    destruct (futures w !! x) as [fx|] eqn:E; [|done]. simpl in *.
    destruct (Hg fx eq_refl) as (_ & Hk & _). f_equal. apply Hk. congruence.
Qed.

Lemma keeps_insert i f f' w :
  loop_inv w -> futures w !! i = Some f ->
  f_state f' = f_state f -> (f_kind f = KPlain -> f_kind f' = KPlain) ->
  (forall cb, cb ∈ f_callbacks f' -> cb ∈ f_callbacks f \/ cb_ok w cb) ->
  keeps None w (with_futures (<[i := f']>) w).
Proof.
  intros Hinv Hi Hs Hk Hc.
  replace (with_futures (<[i := f']>) w) with (with_futures (alter (fun _ => f') i) w).
  - apply keeps_alter; [done|]. intros x Hx. by simplify_eq.
  - unfold with_futures. by rewrite (alter_lookup_Some _ _ _ _ Hi).
Qed.

Lemma keeps_store_coro t co fw w : loop_inv w -> keeps None w (store_coro t co fw w).
Proof.
  intros Hinv. apply keeps_alter; [done|]. intros [st cbs []] _; simpl; (split; [done|split; [done|by left]]).
Qed.

Lemma keeps_set_must_cancel t b w : loop_inv w -> keeps None w (set_must_cancel t b w).
Proof.
  intros Hinv. apply keeps_alter; [done|]. intros [st cbs []] _; simpl; (split; [done|split; [done|by left]]).
Qed.

Lemma keeps_set_cancel_requested g w : loop_inv w -> keeps None w (set_cancel_requested g w).
Proof.
  intros Hinv. apply keeps_alter; [done|]. intros [st cbs []] _; simpl; (split; [done|split; [done|by left]]).
Qed.

Lemma keeps_remove_done_callback i cb w :
  loop_inv w -> keeps None w (remove_done_callback i cb w).
Proof.
  intros Hinv. apply keeps_alter; [done|]. intros [st cbs k] _.
  cbn [f_state f_kind f_callbacks].
  split; [done|]. split; [done|]. intros c [_ Hc]%list_elem_of_filter. by left.
Qed.

Lemma keeps_add_done_callback i cb w :
  loop_inv w -> cb_ok w cb -> keeps None w (add_done_callback i cb w).
Proof.
  intros Hinv Hcb. unfold add_done_callback.
  destruct (futures w !! i) as [[st cbs k]|] eqn:E; [|by apply keeps_refl].
  destruct st; try (by apply keeps_call_soon).
  eapply keeps_insert; eauto. simpl.
  intros c [?| ->%list_elem_of_singleton]%elem_of_app; [by left|by right].
Qed.

Lemma scheduled_foldl_call_soon i cbs : forall w,
  _scheduled (foldl (fun w cb => call_soon (HCallback cb i) w) w cbs) = _scheduled w.
Proof. induction cbs as [|cb cbs IH]; intros w; simpl; [done|]. by rewrite IH. Qed.

(** [finish] keeps the invariant unless it gives a result to a waiter of
    the lock that is not at the head of the queue. *)
Lemma keeps_finish i st w :
  loop_inv w ->
  (i ∈ _waiters (lock_of w) -> forall v, st = Result v ->
     head (_waiters (lock_of w)) = Some i) ->
  keeps None w (finish i st w).
Proof.
  intros Hinv Hi.
  pose proof (pstate_finish i st w) as Hp.
  apply keeps_intro; try done.
  - apply (lock_inv_update w); try done.
    + apply Hinv.
    + by rewrite (lock_of_pstate _ _ Hp).
    + by rewrite (trace_pstate _ _ Hp).
    + by rewrite (trace_pstate _ _ Hp).
    + by rewrite length_finish.
    + intros. apply kind_of_finish.
    + intros x v Hx. rewrite state_of_finish. case_decide as Hd; [subst x|by left].
      destruct (state_of w i) as [[]|]; try (by left). intros [= ->]. right. by eapply Hi.
  - intros x Hx _. by rewrite (lock_of_pstate _ _ Hp).
  - by rewrite length_finish.
  - intros x Hx. left. by rewrite <- (trace_pstate _ _ Hp).
  - unfold finish. destruct (futures w !! i) as [[[] cbs k]|] eqn:E;
      try (intros; old_handles Hinv).
    rewrite ready_foldl_call_soon. simpl.
    intros h [Hh|Hh]%elem_of_app; [old_handles Hinv|].
    apply list_elem_of_fmap in Hh as (cb & -> & Hcb).
    apply cb_ok_handle. by eapply (inv_callbacks _ Hinv).
  - unfold finish. destruct (futures w !! i) as [[[] cbs k]|] eqn:E;
      try (intros; old_handles Hinv).
    rewrite scheduled_foldl_call_soon. simpl. intros; old_handles Hinv.
  - unfold finish. destruct (futures w !! i) as [[[] cbs k]|] eqn:E;
      try (intros; old_handles Hinv).
    rewrite futures_foldl_call_soon. simpl. intros j f cb Hj Hcb.
    destruct (decide (i = j)) as [->|Hne].
    + rewrite list_lookup_insert_eq in Hj by (by eapply lookup_lt_Some).
      simplify_eq/=. by apply elem_of_nil in Hcb.
    + rewrite list_lookup_insert_ne in Hj by done. old_handles Hinv.
  - intros x Hx. by rewrite kind_of_finish.
Qed.

Lemma keeps_finish_cancelled i w : loop_inv w -> keeps None w (finish i Cancelled w).
Proof. intros Hinv. by apply keeps_finish. Qed.

Lemma keeps_finish_foreign i st w :
  loop_inv w -> i ∉ _waiters (lock_of w) -> keeps None w (finish i st w).
Proof. intros Hinv Hi. by apply keeps_finish. Qed.

(** A task or a gather is not a waiter of the lock. *)
Lemma not_waiter_kind w i f :
  lock_inv w -> futures w !! i = Some f -> f_kind f <> KPlain -> i ∉ _waiters (lock_of w).
Proof.
  intros Hinv Hi Hk Hin. pose proof (li_plain w Hinv i Hin) as Hp.
  unfold kind_of in Hp. rewrite Hi in Hp. by simplify_eq/=.
Qed.

Lemma not_waiter_foreign w x : lock_inv w -> foreign w x -> x ∉ _waiters (lock_of w).
Proof.
  intros Hinv (_ & Hx & _) Hin. apply Hx.
  destruct (li_order w Hinv) as (R1 & R2 & -> & _ & HQ).
  apply elem_of_app. right. by eapply elem_of_sublist.
Qed.

(** Cancellation, however deep it goes, keeps the invariant: the plain
    futures it cancels may be waiters of the lock, and cancelling a waiter
    is one of the operations of the lock. *)
Lemma keeps_cancel d : forall i w, loop_inv w -> keeps None w (cancel d i w).1.
Proof.
  induction d as [|d IH]; intros i w Hinv; simpl.
  - destruct (futures w !! i) as [[[] cbs [| |n co fw mc]]|]; simpl;
      try (by apply keeps_refl).
    + by apply keeps_finish_cancelled.
    + destruct fw; by apply keeps_set_must_cancel.
  - destruct (futures w !! i) as [[[] cbs [|children n cr|n co [f|] mc]]|]; simpl;
      try (by apply keeps_refl).
    + by apply keeps_finish_cancelled.
    + assert (forall l w0 b, loop_inv w0 ->
        keeps None w0 (foldl (fun '(w, ret) child =>
                  let '(w', b) := cancel d child w in (w', ret || b)) (w0, b) l).1) as Hf.
      { induction l as [|a l IHl]; intros w0 b H0; simpl; [by apply keeps_refl|].
        pose proof (IH a w0 H0) as Ha. destruct (cancel d a w0) as [w1 b1]. simpl in Ha.
        eapply keeps_trans; [exact Ha|]. apply IHl, Ha. }
      specialize (Hf children w false Hinv).
      destruct (foldl _ _ _) as [w' ret]. simpl in Hf.
      destruct ret; simpl; [|done].
      eapply keeps_trans; [exact Hf|]. apply keeps_set_cancel_requested, Hf.
    + pose proof (IH f w Hinv) as Hc. destruct (cancel d f w) as [w' b]. simpl in Hc.
      destruct b; simpl; [done|].
      eapply keeps_trans; [exact Hc|]. apply keeps_set_must_cancel, Hc.
    + by apply keeps_set_must_cancel.
Qed.

Lemma keeps_fut_cancel i w : loop_inv w -> keeps None w (fut_cancel i w).1.
Proof. apply keeps_cancel. Qed.

(** *** The lock *)

Lemma keeps_same d w w' :
  loop_inv w -> lock_inv w' ->
  futures w' = futures w -> _ready w' = _ready w -> _scheduled w' = _scheduled w ->
  requests (trace w') = requests (trace w) ->
  (forall x, x ∈ _waiters (lock_of w) -> Some x <> d -> x ∈ _waiters (lock_of w')) ->
  keeps d w w'.
Proof.
  intros Hinv Hl Hf Hr Hs Hq Hw. apply keeps_intro; try done.
  - by rewrite Hf.
  - intros x Hx. left. by rewrite <- Hq.
  - rewrite Hr. intros; old_handles Hinv.
  - rewrite Hs. intros; old_handles Hinv.
  - rewrite Hf. intros; old_handles Hinv.
  - intros x Hx. unfold kind_of in *. by rewrite Hf.
Qed.

Lemma keeps__wake_up_first w : loop_inv w -> keeps None w (_wake_up_first w).
Proof.
  intros Hinv. unfold _wake_up_first.
  destruct (_waiters (lock_of w)) as [|f q] eqn:E; [by apply keeps_refl|].
  destruct (done w f); [by apply keeps_refl|].
  apply keeps_finish; [done|]. intros _ v _. by rewrite E.
Qed.

Lemma keeps_lock_acquire w : loop_inv w -> keeps None w (lock_acquire w).1.
Proof.
  intros Hinv. pose proof (lock_inv_acquire w (inv_lock w Hinv)) as Hl.
  unfold lock_acquire in *.
  destruct (negb _ && _); [by apply keeps_same|].
  cbn [create_future new_future fst snd] in *.
  apply keeps_intro; try done.
  - simpl. intros x Hx _. apply elem_of_app. by left.
  - simpl. rewrite length_app. lia.
  - simpl. rewrite requests_snoc. simpl.
    intros x [Hx| ->%list_elem_of_singleton]%elem_of_app; [by left|by right].
  - simpl. intros; old_handles Hinv.
  - simpl. intros; old_handles Hinv.
  - simpl. intros i f cb Hi Hcb.
    apply lookup_app_Some in Hi as [Hi|[_ Hi]]; [old_handles Hinv|].
    apply list_lookup_singleton_Some in Hi as [_ <-]. by apply elem_of_nil in Hcb.
  - intros x Hx. unfold kind_of in *. simpl.
    destruct (futures w !! x) as [fx|] eqn:E; [|done].
    by rewrite (lookup_app_l_Some _ _ _ _ E).
Qed.

Lemma keeps_lock_release w : loop_inv w -> keeps None w (lock_release w).1.
Proof.
  intros Hinv. unfold lock_release.
  destruct (_locked (lock_of w)); [|by apply keeps_refl]. cbn [fst].
  assert (keeps None w (put_lock (MkLock false (_waiters (lock_of w))) w)) as Hk.
  { apply keeps_same; try done. apply lock_inv_flag, Hinv. }
  eapply keeps_trans; [exact Hk|]. apply keeps__wake_up_first, Hk.
Qed.

Lemma remove_first_other f x l : x ∈ l -> x <> f -> x ∈ remove_first f l.
Proof.
  induction l as [|a l IH]; simpl; [done|].
  intros [->|Hx]%elem_of_cons Hne.
  - rewrite decide_False by done. by left.
  - destruct (decide (a = f)); [done|]. right. by apply IH.
Qed.

Lemma keeps_lock_acquire_resume f thrown w :
  loop_inv w -> f ∈ _waiters (lock_of w) ->
  keeps (Some f) w (lock_acquire_resume f (awaited w f thrown) w).1.
Proof.
  intros Hinv Hf.
  assert (lock_inv (lock_acquire_resume f (awaited w f thrown) w).1) as Hl.
  { apply lock_inv_resume; [apply Hinv|done|]. intros v Hv. exists v.
    destruct thrown; [done|]. simpl in Hv.
    unfold result, state_of in *. destruct (futures w !! f) as [[[] ? ?]|]; simplify_eq/=; done. }
  unfold lock_acquire_resume in *.
  set (w1 := put_lock (MkLock (_locked (lock_of w)) (remove_first f (_waiters (lock_of w)))) w)
    in *.
  assert (keeps (Some f) w w1) as Hk.
  { apply keeps_same; try done.
    - apply (lock_inv_dequeue w f _ (inv_lock w Hinv)).
    - simpl. intros x Hx Hne. apply remove_first_other; [done|congruence]. }
  destruct (awaited w f thrown) as [v|e]; cbn [fst] in *.
  - apply keeps_same; try done.
    + simpl. by rewrite requests_snoc, app_nil_r.
    + simpl. intros x Hx Hne. apply remove_first_other; [done|congruence].
  - destruct (is_cancelled_error e); cbn [fst] in *; [|done].
    destruct (_locked (lock_of w)); [done|].
    eapply keeps_trans; [exact Hk|]. apply keeps_weaken, keeps__wake_up_first, Hk.
Qed.

(** *** The coroutines *)

Lemma keeps_aexit r w : loop_inv w -> keeps None w (aexit r w).1.
Proof.
  intros Hinv. unfold aexit. pose proof (keeps_lock_release w Hinv) as Hk.
  by destruct (lock_release w) as [w1 [e|]].
Qed.

Lemma keeps_sleep_begin delay w : loop_inv w -> keeps None w (sleep_begin delay w).1.
Proof.
  intros Hinv. unfold sleep_begin. destruct (delay <=? 0); [by apply keeps_refl|].
  destruct (keeps_create_future w Hinv) as [Hk Hf].
  unfold create_future, new_future in *. cbn [fst snd] in *.
  eapply keeps_trans; [exact Hk|]. apply keeps_call_later; [apply Hk|].
  intros x [= <-]. done.
Qed.

Lemma keeps_sleep pc thrown w : loop_inv w -> keeps None w (sleep pc thrown w).1.
Proof.
  intros Hinv. unfold sleep. destruct pc; try (by apply keeps_refl).
  - destruct thrown; [by apply keeps_refl|].
    pose proof (keeps_sleep_begin delay w Hinv) as Hk.
    by destruct (sleep_begin delay w) as [w1 [f|]].
  - destruct thrown; by apply keeps_refl.
  - pose proof (keeps_cancel_timer (HTimerSetResult f) w Hinv) as Hk.
    by destruct (awaited w f thrown).
Qed.

Lemma keeps_work pc thrown w : loop_inv w -> keeps None w (work pc thrown w).1.
Proof.
  intros Hinv. unfold work. destruct pc; try (by apply keeps_refl).
  - destruct thrown; [by apply keeps_refl|].
    pose proof (keeps_sleep_begin (w_delay r) w Hinv) as Hk.
    by destruct (sleep_begin (w_delay r) w) as [w1 [f|]].
  - destruct thrown; by apply keeps_refl.
  - pose proof (keeps_cancel_timer (HTimerSetResult f) w Hinv) as Hk.
    by destruct (awaited w f thrown).
Qed.

Lemma keeps_then d w w1 w2 :
  keeps d w w1 -> (loop_inv w1 -> keeps d w1 w2) -> keeps d w w2.
Proof. intros H1 H2. eapply keeps_trans; [exact H1|]. apply H2, H1. Qed.

Lemma keeps__inner_assign self t r w :
  loop_inv w -> keeps None w (_inner_assign self t r w).1.
Proof.
  intros Hinv. unfold _inner_assign. destruct r as [v|e]; [|by apply keeps_aexit].
  eapply keeps_then; [by apply (keeps_with_sched (set_result v))|]. intros H1.
  eapply keeps_then; [by apply (keeps_record (EvWrite self t v))|]. intros H2.
  by apply keeps_aexit.
Qed.

Lemma keeps__inner_locked self c w :
  loop_inv w -> keeps None w (_inner_locked self c w).1.
Proof.
  intros Hinv. unfold _inner_locked.
  destruct (_task (sched w)) as [t|]; [|by apply keeps_aexit].
  destruct (done w t); [by apply keeps__inner_assign|by apply keeps_refl].
Qed.

Lemma keeps__inner_begin self c w :
  loop_inv w -> keeps None w (_inner_begin self c w).1.
Proof.
  intros Hinv. unfold _inner_begin.
  set (r := co_call _ _ _ _). set (nm := task_name (sched w) c).
  pose proof (keeps_count_call w Hinv) as K1.
  assert (keeps None (count_call w) (create_task nm (Work_begin r) [] (count_call w)).2) as K2.
  { apply keeps_create_task; [apply K1|]. by intros cb ?%elem_of_nil. }
  destruct (create_task nm (Work_begin r) [] (count_call w)) as [t w1]. cbn [snd] in K2.
  eapply keeps_then; [exact K1|]. intros _.
  eapply keeps_then; [exact K2|]. intros H2.
  eapply keeps_then; [by apply (keeps_with_sched (set_task t))|]. intros H3.
  eapply keeps_then; [by apply (keeps_record (EvSpawn self t nm))|]. intros H4.
  pose proof (keeps_lock_acquire _ H4) as K5.
  destruct (lock_acquire _) as [w5 [f|]]; cbn [fst] in *; [done|].
  eapply keeps_then; [exact K5|]. intros H5. by apply keeps__inner_locked.
Qed.

Lemma keeps__inner self pc thrown w :
  loop_inv w -> queued w pc -> keeps (acq_pc pc) w (_inner self pc thrown w).1.
Proof.
  intros Hinv Hq. unfold _inner. destruct pc; try (by apply keeps_refl).
  - destruct thrown; [by apply keeps_refl|]. by apply keeps__inner_begin.
  - pose proof (keeps_lock_acquire_resume f thrown w Hinv (Hq f eq_refl)) as K.
    destruct (lock_acquire_resume _ _ _) as [w1 [e|]]; cbn [fst] in *; [done|].
    eapply keeps_then; [exact K|]. intros H1. by apply keeps_weaken, keeps__inner_locked.
  - by apply keeps__inner_assign.
Qed.

Lemma keeps_get_result_locked w : loop_inv w -> keeps None w (get_result_locked w).1.
Proof. intros Hinv. unfold get_result_locked. case_match; by apply keeps_aexit. Qed.

Lemma keeps_get_result pc thrown w :
  loop_inv w -> queued w pc -> keeps (acq_pc pc) w (get_result pc thrown w).1.
Proof.
  intros Hinv Hq. unfold get_result. destruct pc; try (by apply keeps_refl).
  - destruct thrown; [by apply keeps_refl|].
    pose proof (keeps_lock_acquire _ Hinv) as K.
    destruct (lock_acquire _) as [w1 [f|]]; cbn [fst] in *; [done|].
    eapply keeps_then; [exact K|]. intros H1. by apply keeps_get_result_locked.
  - pose proof (keeps_lock_acquire_resume f thrown w Hinv (Hq f eq_refl)) as K.
    destruct (lock_acquire_resume _ _ _) as [w1 [e|]]; cbn [fst] in *; [done|].
    eapply keeps_then; [exact K|]. intros H1. by apply keeps_weaken, keeps_get_result_locked.
Qed.

Lemma keeps_gather_inner_sleep self c w :
  loop_inv w -> keeps None w (gather_inner_sleep self c w).2.
Proof.
  intros Hinv. unfold gather_inner_sleep.
  set (g := (length (futures w) + 2)%nat).
  assert (forall w0 cb, cb ∈ [CbGatherDone g] -> cb_ok w0 cb) as Hcb.
  { intros w0 cb ->%list_elem_of_singleton. by apply cb_ok_tgt. }
  pose proof (keeps_record (EvCycle self c (length (futures w))) w Hinv eq_refl eq_refl) as K1.
  set (w1 := record _ w) in *.
  pose proof (keeps_create_task "" (Inner_begin c) [CbGatherDone g] w1 (k_inv _ _ _ K1) (Hcb w1))
    as K2.
  destruct (create_task "" (Inner_begin c) _ w1) as [t2 w2]. cbn [snd] in K2.
  pose proof (keeps_create_task "" (Sleep_begin (interval (sched w2))) [CbGatherDone g] w2
                (k_inv _ _ _ K2) (Hcb w2)) as K3.
  destruct (create_task "" (Sleep_begin _) _ w2) as [t3 w3]. cbn [snd] in K3.
  eapply keeps_then; [exact K1|]. intros _.
  eapply keeps_then; [exact K2|]. intros _.
  eapply keeps_then; [exact K3|]. intros H3.
  apply keeps_new_future; [done|]. by intros cb ?%elem_of_nil.
Qed.

Lemma keeps__run_rest next g r w :
  (forall w, loop_inv w -> keeps None w (next w).1) ->
  loop_inv w -> keeps None w (_run_rest next g r w).1.
Proof.
  intros Hn Hinv. unfold _run_rest.
  destruct (suppress is_timeout_error r); [by apply keeps_refl|].
  destruct (suppress _ _); [by apply keeps_refl|]. by apply Hn.
Qed.

Lemma keeps__run_loop fuel : forall self c w,
  loop_inv w -> keeps None w (_run_loop fuel self c w).1.
Proof.
  induction fuel as [|fuel IH]; intros self c w Hinv; cbn [_run_loop];
    [by apply keeps_refl|].
  pose proof (keeps_gather_inner_sleep self c w Hinv) as K1.
  destruct (gather_inner_sleep self c w) as [g w1]. cbn [snd] in K1.
  eapply keeps_then; [exact K1|]. intros H1.
  destruct (interval (sched w1) <=? 0).
  - destruct (done w1 g); [apply keeps__run_rest; [|done]; intros; by apply IH|].
    pose proof (keeps_fut_cancel g w1 H1) as K2.
    destruct (fut_cancel g w1) as [w2 b]. cbn [fst] in K2.
    eapply keeps_then; [exact K2|]. intros H2.
    apply keeps__run_rest; [|done]. intros; by apply IH.
  - destruct (keeps_create_future w1 H1) as [K2 F2].
    unfold create_future, new_future in *. cbn [fst snd] in *.
    set (x := length (futures w1)) in *.
    eapply keeps_then; [exact K2|]. intros H2.
    eapply keeps_then; [apply (keeps_call_later (interval (sched w1)) (HTimerRelease x)); [done|]|].
    { intros y [= <-]. done. }
    intros H3. apply keeps_add_done_callback; [done|].
    intros y [= <-]. done.
Qed.

Lemma keeps__run self pc thrown w : loop_inv w -> keeps None w (_run self pc thrown w).1.
Proof.
  intros Hinv. unfold _run.
  assert (forall c w, loop_inv w -> keeps None w (_run_loop run_fuel self c w).1) as Hn.
  { intros. by apply keeps__run_loop. }
  destruct pc; try (by apply keeps_refl).
  - destruct thrown; [by apply keeps_refl|]. by apply Hn.
  - destruct (awaited w x thrown) as [v|e].
    + destruct (done w g).
      * eapply keeps_then; [by apply keeps_cancel_timer|]. intros H1.
        apply keeps__run_rest; [|done]. intros; by apply Hn.
      * pose proof (keeps_remove_done_callback g (CbReleaseWaiter x) w Hinv) as K1.
        set (w1 := remove_done_callback _ _ w) in *.
        destruct (keeps_create_future w1 (k_inv _ _ _ K1)) as [K2 F2].
        unfold create_future, new_future in *. cbn [fst snd] in *.
        set (y := length (futures w1)) in *.
        set (w2 := with_futures _ w1) in *.
        assert (keeps None w2 (add_done_callback g (CbReleaseWaiter y) w2)) as K3.
        { apply keeps_add_done_callback; [apply K2|]. intros z [= <-]. done. }
        set (w3 := add_done_callback _ _ w2) in *.
        pose proof (keeps_fut_cancel g w3 (k_inv _ _ _ K3)) as K4.
        destruct (fut_cancel g w3) as [w4 b]. cbn [fst] in *.
        eauto using keeps_trans.
    + set (w1 := if is_cancelled_error e then _ else w).
      assert (keeps None w w1) as K1.
      { unfold w1. destruct (is_cancelled_error e); [|by apply keeps_refl].
        eapply keeps_then; [by apply keeps_remove_done_callback|]. intros H1.
        by apply keeps_fut_cancel. }
      eapply keeps_then; [exact K1|]. intros H1.
      eapply keeps_then; [by apply keeps_cancel_timer|]. intros H2.
      apply keeps__run_rest; [|done]. intros; by apply Hn.
  - set (w1 := remove_done_callback g (CbReleaseWaiter y) w).
    set (w2 := cancel_timer (HTimerRelease x) w1).
    assert (keeps None w w2) as K.
    { eapply keeps_then; [by apply keeps_remove_done_callback|]. intros H1.
      by apply keeps_cancel_timer. }
    destruct (awaited w y thrown);
      (eapply keeps_then; [exact K|]; intros H2;
       apply keeps__run_rest; [|done]; intros; by apply Hn).
Qed.

Lemma keeps__start w : loop_inv w -> keeps None w (_start w).
Proof.
  intros Hinv. unfold _start.
  pose proof (keeps_create_task (name (sched w) +:+ "-main") Run_begin [] w Hinv) as K.
  destruct (create_task _ _ _ _) as [m w1]. cbn [snd] in K.
  eapply keeps_then; [apply K; by intros cb ?%elem_of_nil|]. intros H1.
  by apply (keeps_with_sched (set_main m)).
Qed.

Lemma keeps__stop w : loop_inv w -> keeps None w (_stop w).1.
Proof.
  intros Hinv. unfold _stop. destruct (_main (sched w)); [|by apply keeps_refl].
  by apply keeps_fut_cancel.
Qed.

Lemma keeps_start delay w : loop_inv w -> keeps None w (start delay w).1.
Proof.
  intros Hinv. unfold start. destruct (running (sched w)); [by apply keeps_refl|].
  eapply keeps_then; [by apply (keeps_with_sched (set_running true))|]. intros H1.
  destruct delay; cbn [fst]; [by apply keeps_call_later|by apply keeps_call_soon].
Qed.

Lemma keeps_stop delay w : loop_inv w -> keeps None w (stop delay w).1.
Proof.
  intros Hinv. unfold stop. destruct (negb (running (sched w))); [by apply keeps_refl|].
  eapply keeps_then; [by apply (keeps_with_sched (set_running false))|]. intros H1.
  destruct delay; cbn [fst]; [by apply keeps_call_later|by apply keeps__stop].
Qed.

Lemma keeps_unhandled h w r :
  keeps None w r.1 -> keeps None w (unhandled h r).
Proof.
  intros K. unfold unhandled. destruct r as [w1 [e|]]; [|done]. cbn [fst] in K.
  eapply keeps_then; [exact K|]. intros H1. by apply keeps_record.
Qed.

Lemma keeps_resume t co thrown w :
  loop_inv w -> queued w co -> keeps (acq_pc co) w (resume t co thrown w).1.
Proof.
  intros Hinv Hq. unfold resume.
  destruct co; first [ by apply keeps_weaken, keeps__run
                     | by apply keeps__inner
                     | by apply keeps_get_result
                     | by apply keeps_weaken, keeps_sleep
                     | by apply keeps_weaken, keeps_work ].
Qed.

Lemma is_begin_acq_pc co : is_begin co = true -> acq_pc co = None.
Proof. by destruct co. Qed.

(** Tasks other than the one that steps neither reach nor leave
    [Lock.acquire]. *)
Lemma acq_atom_back self w w' t f :
  atom self w w' -> acq w' t f -> Some t <> self -> acq w t f.
Proof.
  intros Ha (cbs & n & co & fw & mc & Ht & Hpc) Hne.
  destruct Ha; simpl in *; try (by exists cbs, n, co, fw, mc).
  - apply lookup_app_Some in Ht as [Ht|[_ Ht]]; [by exists cbs, n, co, fw, mc|].
    apply list_lookup_singleton_Some in Ht as [_ Ht]. simplify_eq/=.
    destruct H as [Hb _]. apply is_begin_acq_pc in Hb. congruence.
  - destruct (decide (i = t)) as [->|Hi].
    + rewrite list_lookup_insert_eq in Ht by (by eapply lookup_lt_Some). simplify_eq/=.
      rewrite bool_decide_eq_false_2 in H0 by congruence.
      destruct H0 as [Hs Hk]. destruct f0 as [st0 cbs0 k0]. simpl in *.
      destruct k0 as [| |n0 co0 fw0 mc0]; try done.
      destruct Hk as (-> & _ & Hco & _). rewrite Hco in Hpc by done.
      destruct st0; try (by specialize (Hs ltac:(done))).
      by exists cbs0, n0, co0, fw0, mc0.
    + rewrite list_lookup_insert_ne in Ht by done. by exists cbs, n, co, fw, mc.
Qed.

Lemma acq_reach_back self w w' t f :
  reach self w w' -> acq w' t f -> Some t <> self -> acq w t f.
Proof.
  intros H. induction H as [|x y z Ha H IH]; [done|].
  intros Hz Hne. eapply acq_atom_back; [exact Ha| |done]. by apply IH.
Qed.

Lemma acq_pc_family co f : acq_pc co = Some f -> family_of co = FInner \/ family_of co = FReader.
Proof. destruct co; simpl; intros; simplify_eq; auto. Qed.

Lemma queues_in_family fam w0 r :
  suspends_in fam r.2 -> fam <> FInner -> fam <> FReader -> queues_in w0 r.
Proof.
  intros Hs H1 H2. unfold queues_in. destruct r as [w [fa co'|co'| | |]]; simpl in *; try done;
    intros f [?|?]%acq_pc_family; destruct Hs; congruence.
Qed.

Lemma queues_in_aexit w0 r w :
  match r with SAwait _ _ | SYield _ => False | _ => True end ->
  queues_in w0 (aexit r w).
Proof. intros H. unfold aexit, queues_in. destruct (lock_release w) as [w1 [e|]]; by destruct r. Qed.

Lemma lock_acquire_queued w w' f :
  lock_acquire w = (w', Some f) ->
  f = length (futures w) /\ _waiters (lock_of w') = _waiters (lock_of w) ++ [f].
Proof. unfold lock_acquire. case_match; intros; simplify_eq/=; done. Qed.

Lemma queues_in__inner_locked w0 self c w : queues_in w0 (_inner_locked self c w).
Proof.
  unfold _inner_locked, _inner_assign.
  repeat case_match; try done; by apply queues_in_aexit.
Qed.

Lemma queues_in_get_result_locked w0 w : queues_in w0 (get_result_locked w).
Proof. unfold get_result_locked. case_match; by apply queues_in_aexit. Qed.

Lemma resume_queues t co thrown w : queues_in w (resume t co thrown w).
Proof.
  pose proof (resume_pc t co thrown w) as Hpc.
  destruct (decide (family_of co = FInner)) as [Hi|Hi];
    [|destruct (decide (family_of co = FReader)) as [Hr|Hr];
      [|by eapply queues_in_family]].
  - clear Hpc. destruct co; try done; unfold resume, _inner.
    + destruct thrown; [done|]. unfold _inner_begin.
      destruct (create_task _ _ _ _) as [t1 w1] eqn:Ec.
      assert (length (futures w) <= length (futures w1))%nat as Hlen.
      { unfold create_task, new_future in Ec. simplify_eq/=. rewrite length_app. lia. }
      destruct (lock_acquire _) as [w2 [f|]] eqn:Ea; [|apply queues_in__inner_locked].
      apply lock_acquire_queued in Ea as [-> Hq]. unfold queues_in. simpl.
      intros f [= <-]. rewrite Hq. split; [apply elem_of_app; right; by left|done].
    + destruct (lock_acquire_resume _ _ _) as [w1 [e|]]; [done|].
      apply queues_in__inner_locked.
    + unfold _inner_assign. case_match; by apply queues_in_aexit.
  - clear Hpc. destruct co; try done; unfold resume, get_result.
    + destruct thrown; [done|].
      destruct (lock_acquire _) as [w2 [f|]] eqn:Ea; [|apply queues_in_get_result_locked].
      apply lock_acquire_queued in Ea as [-> Hq]. unfold queues_in. simpl.
      intros f [= <-]. rewrite Hq. split; [apply elem_of_app; right; by left|done].
    + destruct (lock_acquire_resume _ _ _) as [w1 [e|]]; [done|].
      apply queues_in_get_result_locked.
Qed.

Lemma acq_same_futures w w' t f : futures w' = futures w -> acq w' t f -> acq w t f.
Proof. unfold acq. by intros ->. Qed.

Lemma acq_store_coro t co' fw w f : acq (store_coro t co' fw w) t f -> acq_pc co' = Some f.
Proof.
  intros (cbs & n & co & fw' & mc & Ht & Hpc).
  unfold store_coro, with_futures in Ht. cbn [futures] in Ht.
  rewrite list_lookup_alter_eq in Ht.
  destruct (futures w !! t) as [[st cbs0 []]|]; simplify_eq/=. done.
Qed.

Lemma acq_finish_self t st w f : st <> Pending -> ~ acq (finish t st w) t f.
Proof.
  intros Hst (cbs & n & co & fw & mc & Ht & _).
  pose proof (state_of_finish t t st w) as Hs. rewrite decide_True in Hs by done.
  unfold state_of in Hs at 1. rewrite Ht in Hs. simpl in Hs.
  destruct (state_of w t) as [[]|]; simplify_eq/=.
Qed.

Lemma length_store_coro t co fw w : length (futures (store_coro t co fw w)) = length (futures w).
Proof. unfold store_coro. simpl. by rewrite length_alter. Qed.

Lemma length_set_must_cancel t b w :
  length (futures (set_must_cancel t b w)) = length (futures w).
Proof. unfold set_must_cancel. simpl. by rewrite length_alter. Qed.

(** Steps in which no task runs. *)
Lemma acq_inv_quiet w w' :
  reach None w w' -> keeps None w w' -> acq_inv w -> acq_inv w'.
Proof.
  intros Hr K [Hq Hu]. split.
  - intros t f Ha. apply (k_waiters _ _ _ K); [|done].
    eapply Hq, acq_reach_back; [exact Hr|exact Ha|done].
  - intros t1 t2 f H1 H2. eapply Hu; eapply acq_reach_back; eauto.
Qed.

(** One step of a task. *)
Lemma task_step_keeps t exc w :
  loop_inv w -> acq_inv w ->
  (exists d, keeps d w (task_step t exc w)) /\ acq_inv (task_step t exc w).
Proof.
  intros Hinv Hacq.
  pose proof (reach_task_step w t exc w (rtc_refl _ _)) as Hreach.
  assert (forall d w', keeps d w w' -> reach (Some t) w w' ->
            (forall f, d = Some f -> acq w t f) ->
            (forall f, acq w' t f ->
               f ∈ _waiters (lock_of w') /\ (length (futures w) <= f)%nat) ->
            acq_inv w') as Hfinal.
  { intros d w' K R Hd Hown. split.
    - intros t2 f2 Ha. destruct (decide (t2 = t)) as [->|Hne]; [by apply Hown|].
      assert (acq w t2 f2) as Ha0 by (eapply acq_reach_back; eauto; congruence).
      apply (k_waiters _ _ _ K); [by eapply (acq_queued w Hacq)|].
      intros <-. apply Hne. eapply (acq_unique w Hacq); eauto.
    - intros t1 t2 f H1 H2.
      destruct (decide (t1 = t)) as [->|Hn1], (decide (t2 = t)) as [->|Hn2]; try done.
      + exfalso. destruct (Hown f H1) as [_ Hfresh].
        assert (acq w t2 f) as Ha0 by (eapply acq_reach_back; eauto; congruence).
        pose proof (lock_inv_waiters_bound w f (inv_lock w Hinv)
                      (acq_queued w Hacq _ _ Ha0)). lia.
      + exfalso. destruct (Hown f H2) as [_ Hfresh].
        assert (acq w t1 f) as Ha0 by (eapply acq_reach_back; eauto; congruence).
        pose proof (lock_inv_waiters_bound w f (inv_lock w Hinv)
                      (acq_queued w Hacq _ _ Ha0)). lia.
      + eapply (acq_unique w Hacq); eapply acq_reach_back; eauto; congruence. }
  revert Hreach. unfold task_step.
  destruct (futures w !! t) as [[[] cbs [| |n co fw mc]]|] eqn:E;
    try (intros _; split; [exists None; by apply keeps_refl|done]).
  set (exc' := if mc then Some CancelledError else exc) in *.
  set (w0 := store_coro t co None (set_must_cancel t false w)) in *.
  assert (futures w0 !! t = Some (Future Pending cbs (KTask n co None false))) as E0.
  { unfold w0, store_coro, set_must_cancel, with_futures. cbn [futures].
    rewrite !list_lookup_alter_eq, E. done. }
  assert (keeps None w w0) as K0.
  { eapply keeps_then; [by apply keeps_set_must_cancel|]. intros H1.
    by apply keeps_store_coro. }
  assert (length (futures w0) = length (futures w)) as Hlen0.
  { unfold w0. by rewrite length_store_coro, length_set_must_cancel. }
  assert (forall f, acq_pc co = Some f -> acq w t f) as Hself.
  { intros f Hf. by exists cbs, n, co, fw, mc. }
  assert (queued w0 co) as Hq0.
  { intros f Hf. apply (k_waiters _ _ _ K0); [|done].
    by apply (acq_queued w Hacq t), Hself. }
  pose proof (keeps_resume t co exc' w0 (k_inv _ _ _ K0) Hq0) as Kr.
  pose proof (resume_queues t co exc' w0) as Hqueue.
  assert (task_at w0 t co) as Ht by (by eexists).
  pose proof (reach_resume w0 t co exc' w0 Ht (rtc_refl _ _)) as Hr0.
  destruct (resume t co exc' w0) as [w1 r]. cbn [fst snd] in *.
  assert (keeps (acq_pc co) w w1) as K1.
  { eapply keeps_trans; [apply keeps_weaken; exact K0|exact Kr]. }
  destruct (reach_lookup _ _ _ _ _ Hr0 E0) as (ft & Eft & _ & Hkt).
  assert (t ∉ _waiters (lock_of w1)) as Htw.
  { eapply not_waiter_kind; [exact (inv_lock _ (k_inv _ _ _ K1))|exact Eft|]. simpl in Hkt. by destruct (f_kind ft). }
  unfold queues_in in Hqueue. cbn [fst snd] in Hqueue.
  destruct r as [fa co'|co'|v|e|].
  - (* await *)
    set (w2 := add_done_callback fa (CbWakeup t) w1) in *.
    set (w3 := store_coro t co' (Some fa) w2) in *.
    assert (keeps None w1 w3) as K3.
    { eapply keeps_then; [apply (keeps_add_done_callback fa (CbWakeup t)); [exact (k_inv _ _ _ K1)|by apply cb_ok_tgt]|].
      intros H2. by apply keeps_store_coro. }
    assert (exists w4, (if must_cancel w3 t
                        then let '(w4, b) := fut_cancel fa w3 in
                             if b then set_must_cancel t false w4 else w4
                        else w3) = w4 /\ keeps None w3 w4 /\ reach None w3 w4)
      as (w4 & -> & K4 & R4).
    { destruct (must_cancel w3 t).
      - pose proof (keeps_fut_cancel fa w3 (k_inv _ _ _ K3)) as Kc.
        pose proof (reach_fut_cancel None w3 fa w3 (rtc_refl _ _)) as Rc.
        destruct (fut_cancel fa w3) as [w4 b]. cbn [fst] in *. destruct b.
        + eexists. split; [done|]. split.
          * eapply keeps_then; [exact Kc|]. intros H4. by apply keeps_set_must_cancel.
          * by apply reach_set_must_cancel.
        + by eexists.
      - eexists. split; [done|]. split; [exact (keeps_refl _ _ (k_inv _ _ _ K3))|apply rtc_refl]. }
    assert (keeps (acq_pc co) w w4) as K.
    { eapply keeps_trans; [exact K1|]. apply keeps_weaken. eapply keeps_trans; eauto. }
    intros Hreach. split; [by exists (acq_pc co)|].
    apply (Hfinal (acq_pc co)); try done.
    intros f Ha.
    assert (acq w3 t f) as Ha3.
    { destruct (decide (acq_pc co' = Some f)) as [Hpc|Hpc].
      - clear Hpc. destruct Ha as (cbs4 & n4 & co4 & fw4 & mc4 & Ht4 & Hpc4).
        (* back along the cancellation, in which the task itself does not step *)
        assert (forall x y, reach None x y -> forall cbs n co fw mc,
                  futures y !! t = Some (Future Pending cbs (KTask n co fw mc)) ->
                  acq_pc co = Some f -> acq x t f) as Hback.
        { intros x y Hxy ? ? ? ? ? Hy Hp. eapply acq_reach_back; [exact Hxy| |done].
          eexists _, _, _, _, _. eauto. }
        eapply Hback; eauto.
      - destruct Ha as (cbs4 & n4 & co4 & fw4 & mc4 & Ht4 & Hpc4).
        eapply acq_reach_back; [exact R4| |done]. eexists _, _, _, _, _. eauto. }
    apply acq_store_coro in Ha3. destruct (Hqueue f Ha3) as [Hin Hfresh].
    split; [|lia].
    apply (k_waiters _ _ _ K4); [|done]. by apply (k_waiters _ _ _ K3).
  - (* yield *)
    assert (keeps None w1 (call_soon (HStep t) (store_coro t co' None w1))) as K2.
    { eapply keeps_then; [exact (keeps_store_coro t co' None w1 (k_inv _ _ _ K1))|]. intros H2.
      by apply keeps_call_soon. }
    assert (keeps (acq_pc co) w (call_soon (HStep t) (store_coro t co' None w1))) as K.
    { eapply keeps_trans; [exact K1|]. by apply keeps_weaken. }
    intros Hreach. split; [by exists (acq_pc co)|].
    apply (Hfinal (acq_pc co)); try done.
    intros f Ha. apply (acq_same_futures (store_coro t co' None w1)) in Ha; [|done].
    apply acq_store_coro in Ha. destruct (Hqueue f Ha) as [Hin Hfresh].
    split; [|lia]. apply (k_waiters _ _ _ K2); done.
  - (* return *)
    assert (exists st, (if must_cancel w1 t then finish t Cancelled w1 else set_fut_result t v w1)
                       = finish t st w1 /\ st <> Pending) as (st & -> & Hst).
    { destruct (must_cancel w1 t); eexists; split; done. }
    assert (keeps (acq_pc co) w (finish t st w1)) as K.
    { eapply keeps_trans; [exact K1|]. apply keeps_weaken, keeps_finish_foreign; [exact (k_inv _ _ _ K1)|done]. }
    intros Hreach. split; [by exists (acq_pc co)|].
    apply (Hfinal (acq_pc co)); try done.
    intros f Ha. by apply acq_finish_self in Ha.
  - (* raise *)
    assert (exists st, (if is_cancelled_error e then finish t Cancelled w1
                        else set_fut_exception t e w1)
                       = finish t st w1 /\ st <> Pending) as (st & -> & Hst).
    { destruct (is_cancelled_error e); eexists; split; done. }
    assert (keeps (acq_pc co) w (finish t st w1)) as K.
    { eapply keeps_trans; [exact K1|]. apply keeps_weaken, keeps_finish_foreign; [exact (k_inv _ _ _ K1)|done]. }
    intros Hreach. split; [by exists (acq_pc co)|].
    apply (Hfinal (acq_pc co)); try done.
    intros f Ha. by apply acq_finish_self in Ha.
  - intros _. split; [exists None; by apply keeps_refl|done].
Qed.

Lemma task_wakeup_keeps t f w :
  loop_inv w -> acq_inv w ->
  (exists d, keeps d w (task_wakeup t f w)) /\ acq_inv (task_wakeup t f w).
Proof. intros. unfold task_wakeup. case_match; by apply task_step_keeps. Qed.

(** *** The other callbacks *)

Lemma keeps_gather_done_callback g c w :
  loop_inv w -> keeps None w (gather_done_callback g c w).
Proof.
  intros Hinv. unfold gather_done_callback.
  destruct (futures w !! g) as [[st cbs [|children n cr|]]|] eqn:E;
    try (by apply keeps_refl).
  set (f' := Future st cbs (KGather children (S n) cr)).
  assert (keeps None w (with_futures (<[g := f']>) w)) as K1.
  { eapply keeps_insert; [done|exact E|done|done|]. intros cb Hcb. by left. }
  set (w1 := with_futures _ w) in *.
  assert (g ∉ _waiters (lock_of w1)) as Hg.
  { eapply (not_waiter_kind w1 g f'); [apply (inv_lock _ (k_inv _ _ _ K1))| |done].
    unfold w1. simpl. apply list_lookup_insert_eq. by eapply lookup_lt_Some. }
  assert (forall st', keeps None w (finish g st' w1)) as Hfin.
  { intros st'. eapply keeps_then; [exact K1|]. intros H1. by apply keeps_finish_foreign. }
  destruct st; try done.
  unfold set_fut_exception, set_fut_result. repeat case_match; done.
Qed.

Lemma keeps_release_waiter x w :
  loop_inv w -> foreign w x -> keeps None w (release_waiter x w).
Proof.
  intros Hinv Hx. unfold release_waiter. destruct (done w x); [by apply keeps_refl|].
  apply keeps_finish_foreign; [done|]. apply not_waiter_foreign; [apply Hinv|done].
Qed.

Lemma keeps_set_result_unless_cancelled f w :
  loop_inv w -> foreign w f -> keeps None w (set_result_unless_cancelled f w).
Proof.
  intros Hinv Hx. unfold set_result_unless_cancelled.
  destruct (cancelled w f); [by apply keeps_refl|].
  apply keeps_finish_foreign; [done|]. apply not_waiter_foreign; [apply Hinv|done].
Qed.

Lemma call_get_result_keeps w :
  loop_inv w -> acq_inv w ->
  (exists d, keeps d w (call_get_result w)) /\ acq_inv (call_get_result w).
Proof.
  intros Hinv Hacq. unfold call_get_result.
  destruct (keeps_new_future (KTask "caller" Reader_begin None false) [] w Hinv) as [K1 _].
  { by intros cb ?%elem_of_nil. }
  assert (reach None w (new_future (KTask "caller" Reader_begin None false) [] w).2) as R1.
  { apply reach_new_future; [done|apply rtc_refl]. }
  destruct (new_future _ _ w) as [r w1]. cbn [snd] in *.
  pose proof (acq_inv_quiet w w1 R1 K1 Hacq) as A1.
  destruct (task_step_keeps r None w1 (k_inv _ _ _ K1) A1) as [[d K2] A2].
  split; [|done]. exists d. eapply keeps_trans; [apply keeps_weaken; exact K1|exact K2].
Qed.

(** One handle of the loop.  A handle that completes a future completes one
    that was never queued on the lock. *)
Lemma run_handle_keeps h w :
  loop_inv w -> acq_inv w -> handle_ok w h ->
  (exists d, keeps d w (run_handle h w)) /\ acq_inv (run_handle h w).
Proof.
  intros Hinv Hacq Hh.
  assert (forall w', keeps None w w' -> reach None w w' ->
            (exists d, keeps d w w') /\ acq_inv w') as Hquiet.
  { intros w' K R. split; [by exists None|]. by eapply acq_inv_quiet. }
  destruct h as [t|[t|g|x] f|x|f| | |d|d|]; cbn [run_handle].
  - by apply task_step_keeps.
  - by apply task_wakeup_keeps.
  - apply Hquiet; [by apply keeps_gather_done_callback|].
    apply reach_gather_done_callback, rtc_refl.
  - apply Hquiet; [apply keeps_release_waiter; [done|by apply Hh]|].
    apply reach_release_waiter, rtc_refl.
  - apply Hquiet; [apply keeps_release_waiter; [done|by apply Hh]|].
    apply reach_release_waiter, rtc_refl.
  - apply Hquiet; [apply keeps_set_result_unless_cancelled; [done|by apply Hh]|].
    apply reach_set_result_unless_cancelled, rtc_refl.
  - apply Hquiet; [by apply keeps__start|]. apply reach__start, rtc_refl.
  - apply Hquiet; [by apply keeps_unhandled, keeps__stop|].
    apply reach_unhandled, reach__stop, rtc_refl.
  - apply Hquiet; [by apply keeps_unhandled, keeps_start|].
    apply reach_unhandled, reach_start, rtc_refl.
  - apply Hquiet; [by apply keeps_unhandled, keeps_stop|].
    apply reach_unhandled, reach_stop, rtc_refl.
  - by apply call_get_result_keeps.
Qed.

Lemma run_handles_keeps hs : forall w,
  loop_inv w -> acq_inv w -> (forall h, h ∈ hs -> handle_ok w h) ->
  loop_inv (foldl (fun w h => run_handle h w) w hs) /\
  acq_inv (foldl (fun w h => run_handle h w) w hs).
Proof.
  induction hs as [|h hs IH]; intros w Hinv Hacq Hok; simpl; [done|].
  destruct (run_handle_keeps h w Hinv Hacq) as [[d K] A]; [apply Hok; by left|].
  apply IH; [apply K|done|].
  intros h' Hh' x Hx. apply (k_foreign _ _ _ K). apply (Hok h'); [by right|done].
Qed.

(** One iteration of the loop. *)
Lemma run_once_keeps w :
  loop_inv w -> acq_inv w -> loop_inv (run_once w) /\ acq_inv (run_once w).
Proof.
  intros Hinv Hacq. unfold run_once.
  set (now := match _ready w, _scheduled w with
              | [], (t, _) :: _ => Z.max (time w) t
              | _, _ => time w
              end).
  set (w0 := World _ _ _ _ _ _ _).
  assert (loop_inv w0) as H0.
  { split.
    - apply (lock_inv_update w); try done. apply Hinv.
      intros f v Hf Hs. by left.
    - simpl. by intros h ?%elem_of_nil.
    - unfold w0. cbn [_scheduled]. intros th [_ Hin]%list_elem_of_filter.
      by apply (inv_scheduled w Hinv).
    - unfold w0. cbn [futures]. intros i f cb Hi Hcb.
      by apply (inv_callbacks w Hinv i f cb). }
  apply run_handles_keeps; [done|by destruct Hacq|].
  intros h [Hh|Hh]%elem_of_app; [by apply (inv_ready w Hinv)|].
  apply list_elem_of_fmap in Hh as (th & -> & [_ Hin]%list_elem_of_filter).
  by apply (inv_scheduled w Hinv).
Qed.

Lemma elem_of_foldl_insert_timer script : forall l x,
  x ∈ foldl (fun l th => insert_timer th.1 th.2 l) l script -> x ∈ l \/ x ∈ script.
Proof.
  induction script as [|[t h] script IH]; intros l x; simpl; [by left|].
  intros [Hx|Hx]%IH; [|right; by right].
  apply elem_of_insert_timer in Hx as [->|Hx]; [right; by left|by left].
Qed.

Lemma loop_inv_boot p script :
  _waiters (_lock p) = [] -> caller_script script ->
  loop_inv (boot p script) /\ acq_inv (boot p script).
Proof.
  intros Hq Hs. split; [split|split].
  - by apply lock_inv_boot.
  - simpl. by intros h ?%elem_of_nil.
  - simpl. intros th [Hin|Hin]%elem_of_foldl_insert_timer; [by apply elem_of_nil in Hin|].
    apply handle_ok_tgt. unfold caller_script in Hs. rewrite Forall_forall in Hs.
    specialize (Hs th Hin). by destruct th.2.
  - simpl. intros i f cb Hi. by rewrite lookup_nil in Hi.
  - intros t f (? & ? & ? & ? & ? & Ht & _). simpl in Ht. by rewrite lookup_nil in Ht.
  - intros t1 t2 f (? & ? & ? & ? & ? & Ht & _). simpl in Ht. by rewrite lookup_nil in Ht.
Qed.

(** The invariants hold all along every run of a caller script. *)
Lemma loop_inv_run p script n :
  _waiters (_lock p) = [] -> caller_script script ->
  loop_inv (run n (boot p script)) /\ acq_inv (run n (boot p script)).
Proof.
  intros Hq Hs. induction n as [|n [IH1 IH2]]; simpl; [by apply loop_inv_boot|].
  by apply run_once_keeps.
Qed.

(** *** Waiting is bounded by the queue ahead *)

Lemma evolves_trace_prefix w w' : evolves w w' -> trace w `prefix_of` trace w'.
Proof.
  induction 1 as [|x y z [self Ha] _ IH]; [done|].
  etrans; [|exact IH].
  destruct (atom_trace _ _ _ Ha) as [[-> _]|(e & -> & _)]; [done|by apply prefix_app_r].
Qed.

Lemma requests_prefix tr tr' : tr `prefix_of` tr' -> requests tr `prefix_of` requests tr'.
Proof. intros [ext ->]. unfold requests. rewrite omap_app. by apply prefix_app_r. Qed.

Lemma split_unique (f : nat) A : forall A' B B',
  NoDup (A ++ f :: B) -> A ++ f :: B = A' ++ f :: B' -> A = A'.
Proof.
  induction A as [|a A IH]; intros [|a' A'] B B' Hnd Heq; simplify_eq/=; try done.
  - apply NoDup_cons in Hnd as [Hn _]. exfalso. apply Hn.
    apply elem_of_app. right. by left.
  - apply NoDup_cons in Hnd as [Hn _]. exfalso. apply Hn.
    apply elem_of_app. right. by left.
  - f_equal. apply NoDup_cons in Hnd as [_ Hnd]. by eapply IH.
Qed.

(** While a waiter stays in the queue, the lock is given only to waiters
    that had queued before it: the requests [A] ahead of it are fixed when
    it queues, and every later grant is one of them. *)
Lemma served_before p script n f :
  _waiters (_lock p) = [] -> caller_script script ->
  f ∈ _waiters (lock_of (run n (boot p script))) ->
  exists A B, requests (trace (run n (boot p script))) = A ++ f :: B /\
    forall k, f ∈ _waiters (lock_of (run (k + n) (boot p script))) ->
      grants (trace (run (k + n) (boot p script))) `sublist_of` A.
Proof.
  intros Hq Hs Hf.
  assert (forall m, f ∈ _waiters (lock_of (run m (boot p script))) ->
    exists A B, requests (trace (run m (boot p script))) = A ++ f :: B /\
                grants (trace (run m (boot p script))) `sublist_of` A) as Hsplit.
  { intros m Hm. destruct (loop_inv_run p script m Hq Hs) as [[Hl _ _ _] _].
    destruct (li_order _ Hl) as (R1 & R2 & HR & HG & HQ).
    assert (f ∈ R2) as Hin by (by eapply elem_of_sublist).
    apply list_elem_of_split in Hin as (l1 & l2 & ->).
    exists (R1 ++ l1), l2. rewrite HR, <- app_assoc. split; [done|].
    by apply sublist_inserts_r. }
  destruct (Hsplit n Hf) as (A & B & HA & _). exists A, B. split; [done|].
  intros k Hk. destruct (Hsplit (k + n)%nat Hk) as (A' & B' & HA' & HG').
  assert (requests (trace (run n (boot p script)))
          `prefix_of` requests (trace (run (k + n) (boot p script)))) as [C HC].
  { apply requests_prefix, evolves_trace_prefix. rewrite run_add. apply evolves_run. }
  assert (A' = A) as ->; [|done].
  destruct (loop_inv_run p script (k + n) Hq Hs) as [[Hl _ _ _] _].
  pose proof (li_nodup _ Hl) as Hnd. rewrite HA' in Hnd.
  eapply split_unique; [exact Hnd|]. rewrite <- HA', HC, HA, <- app_assoc. done.
Qed.

(** A reader queued between two writers, on the model loop: the reader (its
    waiter is future 9) returns the value of the first writer, then the
    second writer (waiter 16) is served and writes its own. *)
Lemma reader_between_two_writers :
  let w0 := world_two_writers in
  (let w := run 12 w0 in
   _waiters (lock_of w) = [9; 16]%nat /\ _locked (lock_of w) = true /\
   readers w = [Pending] /\ omap written (trace w) = []) /\
  (let w := run 16 w0 in
   omap written (trace w) = [Plain (VInt 0)] /\ grants (trace w) = [9]%nat /\
   readers w = [Result (Plain (VInt 0))] /\ _waiters (lock_of w) = [16]%nat) /\
  (let w := run 20 w0 in
   requests (trace w) = [9; 16]%nat /\ grants (trace w) = [9; 16]%nat /\
   omap written (trace w) = [Plain (VInt 0); Plain (VInt 1)] /\
   readers w = [Result (Plain (VInt 0))] /\
   _result (sched w) = Some (Plain (VInt 1))).
Proof. by vm_compute. Qed.

(** ** More of [Periodic]: lifecycle with delays, dead loops, the lock around the slot *)

(** [cancel()] of a future that is done changes nothing and returns False. *)
Lemma cancel_done d i w st :
  state_of w i = Some st -> st <> Pending -> cancel d i w = (w, false).
Proof.
  unfold state_of. intros Hst Hne.
  destruct d; simpl; destruct (futures w !! i) as [[[] ? ?]|]; simplify_eq/=; done.
Qed.

(** [stop()] on a scheduler whose driving loop has already ended (with a
    failure of the work, or cancelled): no error, the running flag is
    cleared, and nothing else changes. *)
Theorem stop_after_loop_ended (w : world) (m : fid) (st : outcome)
    (Hr : running (sched w) = true) (Hm : _main (sched w) = Some m)
    (Hst : state_of w m = Some st) (Hne : st <> Pending) :
  stop None w = (with_sched (set_running false) w, None) /\
  (start None (stop None w).1).2 = None.
Proof.
  assert (stop None w = (with_sched (set_running false) w, None)) as Hs.
  { unfold stop. rewrite Hr. simpl. unfold _stop. simpl. rewrite Hm.
    unfold fut_cancel. by rewrite (cancel_done _ _ _ st). }
  split; [done|]. rewrite Hs. done.
Qed.

Lemma stop_after_loop_ended_witness :
  let w := run 12 world_just_raise in
  stop None w = (with_sched (set_running false) w, None) /\
  (start None (stop None w).1).2 = None.
Proof.
  apply (stop_after_loop_ended (run 12 world_just_raise) 0
           (Exception (UserError "ValueError"))); by vm_compute.
Defined.

(** [start(delay)] and [stop(delay)]: the flag changes at once, the effect is
    a timer.  Until the timer fires [start(delay)] has created no task, and
    [stop(delay)] has cancelled none. *)
Theorem delayed_start_stop (w : world) (d : Z) (b : bool)
    (Hb : running (sched w) = b) :
  if b then
    stop (Some d) w =
      (call_later d HStop (with_sched (set_running false) w), None) /\
    futures (stop (Some d) w).1 = futures w /\
    _ready (stop (Some d) w).1 = _ready w /\
    (time w + d, HStop) ∈ _scheduled (stop (Some d) w).1
  else
    start (Some d) w =
      (call_later d HStart (with_sched (set_running true) w), None) /\
    futures (start (Some d) w).1 = futures w /\
    _ready (start (Some d) w).1 = _ready w /\
    _main (sched (start (Some d) w).1) = _main (sched w) /\
    (time w + d, HStart) ∈ _scheduled (start (Some d) w).1.
Proof.
  assert (forall t h l, (t, h) ∈ insert_timer t h l) as Hin.
  { intros t h l. induction l as [|[t' h'] l IH]; simpl; [by left|].
    destruct (t' <=? t); [by right|by left]. }
  destruct b.
  - unfold stop. rewrite Hb. simpl. split_and!; try done; apply Hin.
  - unfold start. rewrite Hb. simpl. split_and!; try done; apply Hin.
Qed.

Lemma delayed_start_stop_witness :
  let w := idle (__init__ awake_msg 200 [] false []) in
  start (Some 30) w = (call_later 30 HStart (with_sched (set_running true) w), None) /\
  futures (start (Some 30) w).1 = futures w /\
  _ready (start (Some 30) w).1 = _ready w /\
  _main (sched (start (Some 30) w).1) = _main (sched w) /\
  (time w + 30, HStart) ∈ _scheduled (start (Some 30) w).1.
Proof.
  exact (delayed_start_stop (idle (__init__ awake_msg 200 [] false [])) 30 false eq_refl).
Defined.

(** A caller's [start(d)] at time 0 on a fresh scheduler: the first iteration
    of the loop sets the running flag and creates nothing; the next one
    moves the clock to [d], runs [_start], which creates the driving task
    "Periodic-<name>-main" and stores it in [_main]; the task has not run
    yet, so no cycle has started. *)
Theorem start_delay_defers_driving_task (cf : coroutine_function) (i d : Z)
    (args : list value) (ign : bool) (kwargs : list (string * value)) :
  let p := __init__ cf i args ign kwargs in
  let w0 := boot p [(0, HCallStart (Some d))] in
  (running (sched (run 1 w0)) = true /\ futures (run 1 w0) = [] /\
   _ready (run 1 w0) = [] /\ time (run 1 w0) = 0 /\ _main (sched (run 1 w0)) = None) /\
  (time (run 2 w0) = Z.max 0 d /\
   futures (run 2 w0) = [Future Pending [] (KTask (name p +:+ "-main") Run_begin None false)] /\
   _main (sched (run 2 w0)) = Some 0%nat /\
   _ready (run 2 w0) = [HStep 0] /\
   trace (run 2 w0) = []).
Proof.
  intros p w0.
  assert (run 1 w0 =
          World (set_running true p) [] [] [(d, HStart)] 0 0 []) as H1.
  { unfold w0, boot, run. simpl. unfold run_once. simpl.
    unfold unhandled, start, call_later, with_scheduled. simpl.
    by destruct d. }
  split; [by rewrite H1|].
  change (run 2 w0) with (run_once (run 1 w0)). rewrite H1.
  unfold run_once. cbn [_ready _scheduled time sched futures ncalls trace].
  assert (is_due (Z.max 0 d) (d, HStart) = true) as Hdue.
  { unfold is_due. simpl. apply Z.leb_le. lia. }
  cbn [filter list_filter]. unfold filter. simpl. rewrite Hdue. simpl.
  done.
Qed.

(** [_stop] cancels the task that [_main] names, which is the one the last
    [_start] created.  When [_start] ran again before a delayed [_stop]
    fires (after [stop(delay)], [start()] is accepted at once), the request
    goes to the newest driving task, and every future that existed before,
    an earlier driving task included, is left exactly as it was. *)
Theorem stop_cancels_latest_main (w : world) :
  let w1 := _start w in
  let m := length (futures w) in
  _main (sched w1) = Some m /\
  futures w1 !! m = Some (Future Pending [] (KTask (name (sched w) +:+ "-main") Run_begin None false)) /\
  (_stop w1).2 = None /\
  futures (_stop w1).1 !! m =
    Some (Future Pending [] (KTask (name (sched w) +:+ "-main") Run_begin None true)) /\
  (forall j f, futures w !! j = Some f -> futures (_stop w1).1 !! j = Some f) /\
  length (futures (_stop w1).1) = S m.
Proof.
  intros w1 m.
  assert (futures w1 = futures w ++
            [Future Pending [] (KTask (name (sched w) +:+ "-main") Run_begin None false)]) as Hf.
  { done. }
  assert (futures w1 !! m = Some (Future Pending []
            (KTask (name (sched w) +:+ "-main") Run_begin None false))) as Hm.
  { rewrite Hf. by apply list_lookup_middle. }
  split; [done|]. split; [done|].
  unfold _stop. change (_main (sched w1)) with (Some m).
  unfold fut_cancel, cancel_depth. cbn [cancel]. rewrite Hm. cbn [fst snd].
  split; [done|].
  unfold set_must_cancel, with_futures. cbn [futures].
  split; [|split].
  - rewrite list_lookup_alter_eq, Hm. done.
  - intros j f Hj. rewrite list_lookup_alter_ne.
    + rewrite Hf. by apply lookup_app_l_Some.
    + apply lookup_lt_Some in Hj. unfold m. lia.
  - rewrite length_alter, Hf, length_app. simpl. unfold m. lia.
Qed.

Lemma gather_inner_sleep_eq m c w :
  gather_inner_sleep m c w =
    ((length (futures w) + 2)%nat,
     World (sched w) (futures w ++ cycle_tasks w c)
           (_ready w ++ [HStep (length (futures w)); HStep (S (length (futures w)))])
           (_scheduled w) (time w) (ncalls w)
           (trace w ++ [EvCycle m c (length (futures w))])).
Proof.
  destruct w as [p fs rd sc t nc tr]. unfold gather_inner_sleep, cycle_tasks. simpl.
  unfold new_future, call_soon, with_futures, with_ready, record. simpl.
  rewrite !length_app. simpl. rewrite <- !app_assoc. simpl.
  replace (length fs + 1 + 1)%nat with (length fs + 2)%nat by lia.
  replace (length fs + 1)%nat with (S (length fs)) by lia.
  done.
Qed.

Lemma cancel_task_idle d t cbs n co mc w :
  futures w !! t = Some (Future Pending cbs (KTask n co None mc)) ->
  cancel d t w = (set_must_cancel t true w, true).
Proof. intros H. destruct d; simpl; by rewrite H. Qed.

Lemma cancel_fresh_gather m c w :
  let L := length (futures w) in
  fut_cancel (L + 2) (gather_inner_sleep m c w).2 =
    (World (sched w) (futures w ++ cancelled_cycle_tasks w c)
           (_ready w ++ [HStep L; HStep (S L)])
           (_scheduled w) (time w) (ncalls w) (trace w ++ [EvCycle m c L]), true).
Proof.
  intros L. rewrite gather_inner_sleep_eq. cbn [snd]. fold L.
  set (w1 := World _ _ _ _ _ _ _).
  assert (forall k x, cycle_tasks w c !! k = Some x -> futures w1 !! (L + k)%nat = Some x) as Hl.
  { intros k x Hk. unfold w1. cbn [futures]. rewrite lookup_app_r by (unfold L; lia).
    replace (L + k - length (futures w))%nat with k by (unfold L; lia). done. }
  unfold fut_cancel, cancel_depth.
  assert (cancel 7 L w1 = (set_must_cancel L true w1, true)) as Ha.
  { eapply cancel_task_idle. replace L with (L + 0)%nat at 1 by lia. by apply (Hl 0%nat). }
  assert (cancel 7 (S L) (set_must_cancel L true w1)
          = (set_must_cancel (S L) true (set_must_cancel L true w1), true)) as Hb.
  { eapply cancel_task_idle. unfold set_must_cancel at 1, with_futures. cbn [futures].
    rewrite list_lookup_alter_ne by lia.
    replace (S L) with (L + 1)%nat by lia. by apply (Hl 1%nat). }
  rewrite (cancel_gather2 7 (L + 2) [] L (S L) 0 false w1 _ (Hl 2%nat _ eq_refl) Ha).
  rewrite Hb.
  cbn [fst]. f_equal.
  unfold set_cancel_requested, set_must_cancel, with_futures, w1. cbn.
  f_equal. unfold cycle_tasks, cancelled_cycle_tasks. fold L.
  replace (L + 2)%nat with (length (futures w) + 2)%nat by done.
  replace (S L) with (length (futures w) + 1)%nat by (unfold L; lia).
  replace L with (length (futures w) + 0)%nat at 1 by (unfold L; lia).
  rewrite !alter_app_r. simpl. done.
Qed.

(** With an interval that is not positive, the first step of [_run] takes
    the branch of [wait_for] for [timeout <= 0]: the gather, just created,
    is not done, so it is cancelled.  In CPython 3.8, which the runtime
    layer follows, TimeoutError is then raised at once; the first [suppress]
    swallows it; [_gather_fut.result()] finds the gather still pending, and
    its InvalidStateError is not a CancelledError. *)
Lemma _run_nonpositive_interval m w :
  interval (sched w) <= 0 ->
  let L := length (futures w) in
  _run m Run_begin None w =
    (World (sched w) (futures w ++ cancelled_cycle_tasks w 1)
           (_ready w ++ [HStep L; HStep (S L)])
           (_scheduled w) (time w) (ncalls w) (trace w ++ [EvCycle m 1 L]),
     SRaise InvalidStateError).
Proof.
  intros Hi L. unfold _run, run_fuel. cbn [_run_loop].
  pose proof (cancel_fresh_gather m 1 w) as Hc. cbn zeta in Hc. fold L in Hc.
  rewrite gather_inner_sleep_eq in *. cbn [snd] in Hc. fold L.
  set (w1 := World _ _ _ _ _ _ _) in *.
  assert ((interval (sched w1) <=? 0) = true) as -> by (by apply Z.leb_le).
  assert (futures w1 !! (L + 2)%nat
          = Some (Future Pending [] (KGather [L; S L] 0 false))) as Hg.
  { unfold w1. cbn [futures]. rewrite lookup_app_r by (unfold L; lia).
    replace (L + 2 - length (futures w))%nat with 2%nat by (unfold L; lia). done. }
  assert (done w1 (L + 2) = false) as -> by (unfold done; by rewrite Hg).
  rewrite Hc. unfold _run_rest. cbn [suppress is_timeout_error].
  set (w2 := World _ _ _ _ _ _ _).
  assert (result w2 (L + 2) = inr InvalidStateError) as ->; [|done].
  unfold result, w2. cbn [futures]. rewrite lookup_app_r by (unfold L; lia).
  replace (L + 2 - length (futures w))%nat with 2%nat by (unfold L; lia). done.
Qed.

(** A task that is cancelled before its first step never runs its body: it
    ends cancelled, and the scheduler, the trace, the heap size and the
    count of calls of the unit of work are as before. *)
Lemma cancelled_before_first_step t cbs n co fw w :
  futures w !! t = Some (Future Pending cbs (KTask n co fw true)) ->
  is_begin co = true ->
  let w' := task_step t None w in
  state_of w' t = Some Cancelled /\ pstate w' = pstate w /\
  ncalls w' = ncalls w /\ length (futures w') = length (futures w).
Proof.
  intros Ht Hb. simpl. unfold task_step. rewrite Ht.
  set (w0 := store_coro t co None (set_must_cancel t false w)).
  assert (futures w0 !! t = Some (Future Pending cbs (KTask n co None false))) as Ht0.
  { unfold w0, store_coro, set_must_cancel, with_futures. cbn [futures].
    rewrite !list_lookup_alter_eq, Ht. done. }
  assert (resume t co (Some CancelledError) w0 = (w0, SRaise CancelledError)) as ->.
  { by destruct co. }
  cbn [is_cancelled_error]. split; [by eapply finish_state_eq|].
  split; [by rewrite pstate_finish|]. split.
  - unfold finish. rewrite Ht0.
    assert (forall l w1, ncalls (foldl (fun w cb => call_soon (HCallback cb t) w) w1 l)
                         = ncalls w1) as Hn.
    { induction l as [|a l IH]; intros w1; simpl; [done|]. by rewrite IH. }
    by rewrite Hn.
  - rewrite length_finish. unfold w0. by rewrite length_store_coro, length_set_must_cancel.
Qed.

(** With an interval that is not positive [wait_for] is called with
    [timeout <= 0]: it finds the gather, just created, not done and cancels
    it before anything is awaited.  So the step of [_run] that starts a
    cycle leaves both tasks of the cycle marked for cancellation ahead of
    their first step, and each of them, when the loop steps it, ends
    cancelled without running its body: [_inner] does not call the unit of
    work, creates no task and touches neither the lock nor the slot.  What
    [wait_for] does after the cancellation differs between versions of
    CPython (3.8 raises at once, later versions first await the cancelled
    gather); the statement is about what comes before. *)
Theorem nonpositive_interval_cancels_cycle (w : world) (m : fid) (cbs : list callback)
    (n : string) (fw : option fid)
    (Hi : interval (sched w) <= 0)
    (Hm : futures w !! m = Some (Future Pending cbs (KTask n Run_begin fw false))) :
  let L := length (futures w) in
  let w' := task_step m None w in
  sched w' = sched w /\ ncalls w' = ncalls w /\
  trace w' = trace w ++ [EvCycle m 1 L] /\
  futures w' !! L =
    Some (Future Pending [CbGatherDone (L + 2)] (KTask "" (Inner_begin 1) None true)) /\
  futures w' !! S L =
    Some (Future Pending [CbGatherDone (L + 2)]
            (KTask "" (Sleep_begin (interval (sched w))) None true)) /\
  (forall t, t = L \/ t = S L ->
     let w2 := task_step t None w' in
     state_of w2 t = Some Cancelled /\ pstate w2 = pstate w' /\
     ncalls w2 = ncalls w /\ length (futures w2) = length (futures w')).
Proof.
  intros L w'.
  assert (m < L)%nat as HmL by (by eapply lookup_lt_Some).
  assert (exists w2,
    w' = set_fut_exception m InvalidStateError w2 /\
    futures w2 !! m = Some (Future Pending cbs (KTask n Run_begin None false)) /\
    sched w2 = sched w /\ ncalls w2 = ncalls w /\ trace w2 = trace w ++ [EvCycle m 1 L] /\
    exists F, length F = L /\ futures w2 = F ++ cancelled_cycle_tasks w 1)
    as (w2 & Hw' & Hm2 & Hs2 & Hn2 & Ht2 & F & HF & Hf2).
  { unfold w', task_step. rewrite Hm.
    set (w0 := store_coro m Run_begin None (set_must_cancel m false w)).
    assert (futures w0 !! m = Some (Future Pending cbs (KTask n Run_begin None false))) as Hm0.
    { unfold w0, store_coro, set_must_cancel, with_futures. cbn [futures].
      rewrite !list_lookup_alter_eq, Hm. done. }
    assert (length (futures w0) = L) as HL0.
    { unfold w0. by rewrite length_store_coro, length_set_must_cancel. }
    unfold resume. rewrite (_run_nonpositive_interval m w0) by done. cbn zeta.
    cbn [is_cancelled_error]. eexists. split; [done|]. cbn [futures sched ncalls trace].
    split; [by apply lookup_app_l_Some|]. split; [done|]. split; [done|].
    split; [by rewrite HL0|]. exists (futures w0). split; [done|].
    unfold cancelled_cycle_tasks. by rewrite HL0. }
  assert (futures w' = <[m := Future (Exception InvalidStateError) [] (KTask n Run_begin None false)]>
                         (futures w2)) as Hf'.
  { rewrite Hw'. unfold set_fut_exception. by apply (finish_pending _ _ _ _ _ Hm2). }
  assert (forall k x, cancelled_cycle_tasks w 1 !! k = Some x ->
            futures w' !! (L + k)%nat = Some x) as Hl.
  { intros k x Hk. rewrite Hf', list_lookup_insert_ne by lia.
    rewrite Hf2, lookup_app_r by lia. replace (L + k - length F)%nat with k by lia. done. }
  assert (pstate w' = pstate w2) as Hp by (rewrite Hw'; apply pstate_finish).
  split; [by rewrite <- Hs2; injection Hp|].
  assert (ncalls w' = ncalls w) as Hn'.
  { rewrite Hw', <- Hn2. unfold set_fut_exception, finish. rewrite Hm2.
    assert (forall l w1, ncalls (foldl (fun w cb => call_soon (HCallback cb m) w) w1 l)
                         = ncalls w1) as Hn.
    { induction l as [|a l IH]; intros w1; simpl; [done|]. by rewrite IH. }
    by rewrite Hn. }
  split; [done|]. split; [by rewrite <- Ht2; injection Hp|].
  assert (futures w' !! L =
    Some (Future Pending [CbGatherDone (L + 2)] (KTask "" (Inner_begin 1) None true))) as HL.
  { replace L with (L + 0)%nat at 1 by lia. by apply Hl. }
  assert (futures w' !! S L =
    Some (Future Pending [CbGatherDone (L + 2)]
            (KTask "" (Sleep_begin (interval (sched w))) None true))) as HSL.
  { replace (S L) with (L + 1)%nat by lia. by apply Hl. }
  split; [done|]. split; [done|].
  intros t [-> | ->]; cbn zeta.
  - destruct (cancelled_before_first_step L _ _ _ _ w' HL eq_refl) as (? & ? & ? & ?).
    split; [done|]. split; [done|]. split; [congruence|done].
  - destruct (cancelled_before_first_step (S L) _ _ _ _ w' HSL eq_refl) as (? & ? & ? & ?).
    split; [done|]. split; [done|]. split; [congruence|done].
Qed.

Lemma nonpositive_interval_cancels_cycle_witness :
  let w := run 2 (boot (__init__ awake_msg 0 [] false []) [(0, HCallStart None)]) in
  let w' := task_step 0 None w in
  state_of (task_step 1 None w') 1 = Some Cancelled /\
  ncalls (task_step 1 None w') = ncalls w.
Proof.
  intros w.
  assert (interval (sched w) <= 0) as Hi by (by vm_compute).
  assert (futures w !! 0%nat
          = Some (Future Pending [] (KTask "Periodic-awake_msg-main" Run_begin None false)))
    as Hm by (by vm_compute).
  destruct (nonpositive_interval_cancels_cycle w 0 [] _ None Hi Hm) as (_ & _ & _ & _ & _ & H).
  destruct (H 1%nat (or_introl eq_refl)) as (Hs & _ & Hn & _).
  split; [exact Hs|exact Hn].
Defined.

(** ** The lock around the result slot *)

(** [_inner] takes the lock before the work has run a single step: with the
    lock free and nobody queued, its first step calls the unit of work once,
    wraps the coroutine in a task named after the cycle, stores it in
    [_task], takes the lock and suspends on the task, holding the lock.  The
    slot is not touched. *)
Theorem _inner_locks_before_work (self : fid) (c : nat) (w : world)
    (Hfree : _locked (lock_of w) = false) (Hq : _waiters (lock_of w) = []) :
  let t := length (futures w) in
  let r := _inner self (Inner_begin c) None w in
  r.2 = SAwait t (Inner_await c t) /\
  _locked (lock_of r.1) = true /\ _waiters (lock_of r.1) = [] /\
  _task (sched r.1) = Some t /\
  _result (sched r.1) = _result (sched w) /\
  ncalls r.1 = S (ncalls w) /\
  futures r.1 = futures w ++
    [Future Pending []
       (KTask (task_name (sched w) c)
          (Work_begin (co_call (_coro (sched w)) (_args (sched w)) (_kwargs (sched w))
                               (ncalls w))) None false)] /\
  _ready r.1 = _ready w ++ [HStep t] /\
  trace r.1 = trace w ++ [EvSpawn self t (task_name (sched w) c)].
Proof.
  destruct w as [[cf a k [lk q] i rn rs tk mn] fs rd sc tm nc tr].
  unfold lock_of in Hfree, Hq. simpl in Hfree, Hq. subst lk q.
  intros t r. unfold r, t, _inner, _inner_begin, lock_acquire, _inner_locked, done.
  simpl. rewrite list_lookup_middle by done. done.
Qed.

Lemma _inner_locks_before_work_witness :
  let w := idle (__init__ awake_msg 200 [] false []) in
  (_inner 0 (Inner_begin 1) None w).2 = SAwait 0 (Inner_await 1 0) /\
  _locked (lock_of (_inner 0 (Inner_begin 1) None w).1) = true.
Proof.
  destruct (_inner_locks_before_work 0 1 (idle (__init__ awake_msg 200 [] false []))
              eq_refl eq_refl) as (H1 & H2 & _).
  by split.
Defined.



Lemma cancelled_done w f : cancelled w f = true -> done w f = true.
Proof. unfold cancelled, done. by destruct (futures w !! f) as [[[] ? ?]|]. Qed.

(** A [get_result()] that does not have to wait changes nothing at all:
    when the lock is free and every waiter still queued is cancelled, the
    call completes in one step with the value of the slot (or the
    AttributeError of the unset slot), and the world it leaves (lock, queue,
    futures, handles, trace) is the world it found. *)
Theorem get_result_free_lock_no_effect (w : world)
    (Hfree : _locked (lock_of w) = false)
    (Hq : forallb (cancelled w) (_waiters (lock_of w)) = true) :
  get_result Reader_begin None w =
    (w, match _result (sched w) with
        | Some v => SReturn v
        | None => SRaise (AttributeError "_result")
        end).
Proof.
  assert (forall q, forallb (cancelled w) q = true ->
            match q with [] => true | f :: _ => done w f end = true) as Hhead.
  { intros [|f q] H; [done|]. simpl in H. apply andb_true_iff in H as [Hc _].
    by apply cancelled_done. }
  specialize (Hhead _ Hq).
  unfold get_result, lock_acquire. rewrite Hfree, Hq. cbn [negb andb].
  destruct w as [[cf a k [lk q] i rn rs tk mn] fs rd sc tm nc tr].
  unfold lock_of in *. simpl in Hfree, Hq, Hhead. subst lk.
  unfold get_result_locked, aexit, lock_release, _wake_up_first, lock_of, put_lock, with_sched.
  simpl. destruct rs; simpl; destruct q as [|f q]; try done;
    unfold done in *; simpl in *;
    destruct (fs !! f) as [[[] ? ?]|]; simplify_eq/=; done.
Qed.

Lemma get_result_free_lock_no_effect_witness :
  let w := run 12 (world_long_interval false) in
  get_result Reader_begin None w = (w, SReturn (Plain (VStr "Good Morning!"))).
Proof.
  intros w.
  rewrite (get_result_free_lock_no_effect w); [|by vm_compute..].
  by vm_compute.
Defined.

(** ** What never changes, and what only [start] and [stop] change *)

(** The unit of work, its arguments and the name derived from it are those
    given to the constructor, at every iteration of every run. *)
Theorem configuration_fixed (cf : coroutine_function) (i : Z) (args : list value)
    (ign : bool) (kwargs : list (string * value)) (script : list (Z * handle)) (n : nat) :
  let w := run n (boot (__init__ cf i args ign kwargs) script) in
  _coro (sched w) = cf /\ _args (sched w) = args /\ _kwargs (sched w) = kwargs /\
  name (sched w) = "Periodic-" +:+ __name__ cf /\
  forall c, task_name (sched w) c = "Periodic-" +:+ __name__ cf +:+ "-" +:+ decimal c.
Proof.
  intros w.
  pose proof (evolves_cfg _ _ (evolves_run n (boot (__init__ cf i args ign kwargs) script)))
    as H.
  fold w in H. unfold cfg in H. simpl in H. injection H as H1 H2 H3 H4.
  unfold task_name, name. rewrite H1. done.
Qed.

(** The result slot holds what the constructor left in it, or a value that a
    finished task returned: whenever the slot differs from its initial
    content, some [_inner] assigned it from a task whose state is, and
    stays, that very result. *)
Theorem slot_holds_a_task_result (p : Periodic) (script : list (Z * handle)) (n : nat) :
  let w := run n (boot p script) in
  (_result (sched w) = _result p /\ omap written (trace w) = []) \/
  (exists s t v, _result (sched w) = Some v /\ EvWrite s t v ∈ trace w /\
                 state_of w t = Some (Result v) /\ last_write (trace w) = Some v).
Proof.
  intros w. pose proof (wf_run p script n) as [Hw Hs _ _]. fold w in Hw, Hs.
  rewrite Hs. unfold last_write in *.
  destruct (omap written (trace w)) as [|v0 l] eqn:E using rev_ind; [by left|].
  right. rewrite last_snoc.
  assert (v0 ∈ omap written (trace w)) as Hin.
  { rewrite E. apply elem_of_app. right. by left. }
  apply list_elem_of_omap in Hin as (e & He & Hv).
  destruct e; simplify_eq/=. exists inner, t, v0. split; [done|]. split; [done|].
  split; [by eapply Hw|done].
Qed.

Lemma control_ff p p' : frame_fields p' = frame_fields p -> control p' = control p.
Proof. unfold frame_fields, control. by intros [= _ _ _ _ -> _ _ ->]. Qed.

Lemma control_pstate w w' : pstate w' = pstate w -> control (sched w') = control (sched w).
Proof. by intros [= -> _]. Qed.

Lemma sched_gather_inner_sleep m c w : sched (gather_inner_sleep m c w).2 = sched w.
Proof. by rewrite gather_inner_sleep_eq. Qed.

Lemma sched__run_rest next g r w :
  (forall w, sched (next w).1 = sched w) -> sched (_run_rest next g r w).1 = sched w.
Proof. intros Hn. unfold _run_rest. repeat case_match; simpl; auto. Qed.

Lemma sched_of_pstate w w' : pstate w' = pstate w -> sched w' = sched w.
Proof. by intros [= -> _]. Qed.

Lemma sched__run_loop fuel : forall m c w, sched (_run_loop fuel m c w).1 = sched w.
Proof.
  induction fuel as [|fuel IH]; intros m c w; cbn [_run_loop]; [done|].
  pose proof (sched_gather_inner_sleep m c w) as Hg.
  destruct (gather_inner_sleep m c w) as [g w1]. cbn [snd] in Hg.
  destruct (interval (sched w1) <=? 0).
  - destruct (done w1 g); [by rewrite sched__run_rest|].
    pose proof (sched_of_pstate _ _ (pstate_fut_cancel g w1)) as Hc.
    destruct (fut_cancel g w1) as [w2 b]. cbn [fst] in Hc.
    rewrite sched__run_rest by done. congruence.
  - cbn [create_future new_future]. cbn [fst].
    rewrite (sched_of_pstate _ _ (pstate_add_done_callback _ _ _)). done.
Qed.

Lemma sched__run m pc thrown w : sched (_run m pc thrown w).1 = sched w.
Proof.
  unfold _run. destruct pc; try done.
  - destruct thrown; [done|]. apply sched__run_loop.
  - destruct (awaited w x thrown) as [v|e].
    + destruct (done w g).
      * rewrite sched__run_rest; [done|]. intros; apply sched__run_loop.
      * cbn [create_future new_future].
        match goal with |- context [fut_cancel g ?w0] =>
          pose proof (sched_of_pstate _ _ (pstate_fut_cancel g w0)) as Hc;
          destruct (fut_cancel g w0) as [w4 b] end.
        cbn [fst] in *. rewrite Hc.
        rewrite (sched_of_pstate _ _ (pstate_add_done_callback _ _ _)). done.
    + rewrite sched__run_rest; [|intros; apply sched__run_loop].
      destruct (is_cancelled_error e); [|done]. cbn [cancel_timer with_scheduled sched].
      by rewrite (sched_of_pstate _ _ (pstate_fut_cancel _ _)).
  - destruct (awaited w y thrown); (rewrite sched__run_rest; [done|]);
      intros; apply sched__run_loop.
Qed.

Lemma control__inner_assign self t r w :
  control (sched (_inner_assign self t r w).1) = control (sched w).
Proof.
  unfold _inner_assign. destruct r as [v|e]; by rewrite (control_ff _ _ (ff_aexit _ _)).
Qed.

Lemma control__inner_locked self c w :
  control (sched (_inner_locked self c w).1) = control (sched w).
Proof.
  unfold _inner_locked. repeat case_match; try done.
  - apply control__inner_assign.
  - by rewrite (control_ff _ _ (ff_aexit _ _)).
Qed.

Lemma control__inner self pc thrown w :
  control (sched (_inner self pc thrown w).1) = control (sched w).
Proof.
  unfold _inner. destruct pc; try done.
  - destruct thrown; [done|]. unfold _inner_begin. cbn [create_task new_future].
    match goal with |- context [lock_acquire ?w0] =>
      pose proof (control_ff _ _ (ff_lock_acquire w0)) as Ha;
      destruct (lock_acquire w0) as [w2 [f|]] end; cbn [fst] in *; [done|].
    by rewrite control__inner_locked.
  - pose proof (control_ff _ _ (ff_lock_acquire_resume f (awaited w f thrown) w)) as Ha.
    destruct (lock_acquire_resume _ _ _) as [w1 [e|]]; cbn [fst] in *; [done|].
    by rewrite control__inner_locked.
  - apply control__inner_assign.
Qed.

Lemma control_resume t co thrown w :
  control (sched (resume t co thrown w).1) = control (sched w).
Proof.
  unfold resume.
  destruct co; first [ by rewrite sched__run
                     | apply control__inner
                     | apply control_pstate, pstate_sleep
                     | apply control_pstate, pstate_work
                     | apply control_ff, ff_get_result ].
Qed.

Lemma control_task_step t exc w :
  control (sched (task_step t exc w)) = control (sched w).
Proof.
  unfold task_step.
  destruct (futures w !! t) as [[[] cbs [| |n co fw mc]]|]; try done.
  set (w0 := store_coro t co None (set_must_cancel t false w)).
  pose proof (control_resume t co (if mc then Some CancelledError else exc) w0) as Hr.
  destruct (resume _ _ _ _) as [w1 r]. cbn [fst] in Hr.
  change (control (sched w0)) with (control (sched w)) in Hr. rewrite <- Hr.
  destruct r as [f co'|co'|v|e|]; try done.
  - set (w3 := store_coro _ _ _ _).
    assert (control (sched w3) = control (sched w1)) as H3.
    { unfold w3. by rewrite (control_pstate _ _ (pstate_store_coro _ _ _ _)),
                            (control_pstate _ _ (pstate_add_done_callback _ _ _)). }
    destruct (must_cancel w3 t); [|done].
    pose proof (control_pstate _ _ (pstate_fut_cancel f w3)) as Hc.
    destruct (fut_cancel f w3) as [w4 b]. cbn [fst] in Hc.
    destruct b; [|congruence].
    rewrite (control_pstate _ _ (pstate_set_must_cancel _ _ _)). congruence.
  - destruct (must_cancel w1 t);
      [apply control_pstate, pstate_finish|apply control_pstate, pstate_set_fut_result].
  - destruct (is_cancelled_error e);
      [apply control_pstate, pstate_finish|apply control_pstate, pstate_set_fut_exception].
Qed.

(** Nothing but a call of [start()] or [stop()] changes the running flag,
    and nothing but [_start] changes [_main]: no step of a task, no timer and
    no callback, so also not the end of the driving loop, however it ends. *)
Theorem running_changed_only_by_calls (h : handle) (w : world) :
  (is_call h = false \/ h = HCallGetResult ->
     running (sched (run_handle h w)) = running (sched w)) /\
  (h <> HStart -> _main (sched (run_handle h w)) = _main (sched w)).
Proof.
  assert (forall w', control (sched w') = control (sched w) ->
            running (sched w') = running (sched w) /\
            _main (sched w') = _main (sched w)) as Hc.
  { intros w'. unfold control, running. intros [= H1 H2]. by rewrite H1, H2. }
  destruct h as [t|[t|g|x] f|x|f| | |d|d|]; cbn [run_handle is_call].
  - split; intros _; apply Hc, control_task_step.
  - split; intros _; apply Hc; unfold task_wakeup; case_match; apply control_task_step.
  - split; intros _; apply Hc, control_pstate, pstate_gather_done_callback.
  - split; intros _; apply Hc, control_pstate, pstate_release_waiter.
  - split; intros _; apply Hc, control_pstate, pstate_release_waiter.
  - split; intros _; apply Hc, control_pstate, pstate_set_result_unless_cancelled.
  - split; [done|]. by intros ?.
  - assert (control (sched (unhandled HStop (_stop w))) = control (sched w)) as H.
    { unfold _stop, unhandled. destruct (_main (sched w)); [|done]. cbn [fst snd].
      apply control_pstate, pstate_fut_cancel. }
    split; intros _; by apply Hc.
  - split; [by intros [?|?]|]. intros _. unfold start, unhandled.
    destruct (running (sched w)); [done|]. by destruct d.
  - split; [by intros [?|?]|]. intros _. unfold stop, unhandled.
    destruct (negb (running (sched w))); [reflexivity|]. destruct d; [reflexivity|].
    unfold _stop. cbn [sched with_sched set_running _main].
    destruct (_main (sched w)) as [m|] eqn:Em; [|simpl; by rewrite Em]. cbn [fst snd].
    set (w1 := with_sched _ w).
    assert (_main (sched w1) = Some m) as <- by done.
    change (_main (sched (fut_cancel m w1).1) = _main (pstate w1).1).
    by rewrite <- (pstate_fut_cancel m w1).
  - unfold call_get_result. cbn [new_future].
    split; intros _; apply Hc; by rewrite control_task_step.
Qed.

Lemma _run_loop_begins m c w :
  0 < interval (sched w) -> begins_cycle m c w (_run_loop run_fuel m c w).
Proof.
  intros Hi. unfold begins_cycle, run_fuel. cbn [_run_loop].
  rewrite gather_inner_sleep_eq.
  set (L := length (futures w)).
  set (w1 := World _ _ _ _ _ _ _).
  assert ((interval (sched w1) <=? 0) = false) as -> by (apply Z.leb_gt; exact Hi).
  assert (length (futures w1) = (L + 3)%nat) as Hlen.
  { unfold w1. cbn [futures]. rewrite length_app. simpl. unfold L. lia. }
  unfold create_future, new_future. rewrite Hlen. cbn [fst snd].
  unfold add_done_callback.
  cbn [call_later with_scheduled with_futures futures].
  assert ((futures w1 ++ [Future Pending [] KPlain]) !! (L + 2)%nat
          = Some (Future Pending [] (KGather [L; S L] 0 false))) as ->.
  { rewrite lookup_app_l by (rewrite Hlen; lia). unfold w1. cbn [futures].
    rewrite lookup_app_r by (unfold L; lia).
    replace (L + 2 - length (futures w))%nat with 2%nat by (unfold L; lia). done. }
  cbn [fst snd trace sched ncalls time _ready _scheduled futures with_futures w1].
  repeat split; try done.
  cbn [call_later with_scheduled with_futures futures w1].
  unfold cycle_tasks. fold L. rewrite <- app_assoc.
  rewrite insert_app_r_alt by (unfold L; lia).
  replace (L + 2 - length (futures w))%nat with 2%nat by (unfold L; lia). done.
Qed.

(** The next cycle starts in the very step in which [_run] learns that the
    present one is over, with no pause in between: after a timeout, once the
    cancelled gather has ended ([Run_cancel_wait]), and when [wait_for]
    returns because the gather completed ([Run_wait_for]).  The counter goes
    up by one, and the new wait is due one interval from now. *)
Theorem next_cycle_starts_at_once (m : fid) (c : nat) (g x y : fid) (v : pyobj)
    (w : world) (Hi : 0 < interval (sched w)) :
  (state_of w y = Some (Result v) ->
   result w g = inr CancelledError ->
   begins_cycle m (S c)
     (cancel_timer (HTimerRelease x) (remove_done_callback g (CbReleaseWaiter y) w))
     (_run m (Run_cancel_wait c g x y) None w)) /\
  (state_of w x = Some (Result v) ->
   (exists u, state_of w g = Some (Result u)) ->
   begins_cycle m (S c) (cancel_timer (HTimerRelease x) w)
     (_run m (Run_wait_for c g x) None w)).
Proof.
  split.
  - intros Hy Hg. unfold _run, awaited. rewrite (state_of_result _ _ _ Hy). cbn [result_of_state].
    set (w1 := cancel_timer _ _).
    unfold _run_rest. cbn [suppress is_timeout_error].
    assert (result w1 g = inr CancelledError) as ->.
    { rewrite <- Hg. unfold result, w1. cbn [cancel_timer with_scheduled futures].
      pose proof (state_of_remove_done_callback w g (CbReleaseWaiter y) g) as Hs.
      unfold state_of in Hs.
      destruct (futures (remove_done_callback g (CbReleaseWaiter y) w) !! g),
               (futures w !! g); simplify_eq/=; congruence. }
    cbn [exn_of suppress is_cancelled_error]. by apply _run_loop_begins.
  - intros Hx [u Hg]. unfold _run, awaited. rewrite (state_of_result _ _ _ Hx).
    cbn [result_of_state]. rewrite (state_of_done _ _ _ Hg) by done.
    rewrite (state_of_result _ _ _ Hg). cbn [result_of_state exn_of].
    unfold _run_rest. cbn [suppress].
    assert (result (cancel_timer (HTimerRelease x) w) g = inl u) as ->.
    { by rewrite (state_of_result _ g (Result u)). }
    cbn [exn_of suppress]. by apply _run_loop_begins.
Qed.

Lemma next_cycle_starts_at_once_witness :
  let w := run 10 (world_short_interval true) in
  begins_cycle 0 2
    (cancel_timer (HTimerRelease 4) (remove_done_callback 3 (CbReleaseWaiter 10) w))
    (_run 0 (Run_cancel_wait 1 3 4 10) None w).
Proof.
  intros w.
  apply (proj1 (next_cycle_starts_at_once 0 1 3 4 10 (Plain VNone) w ltac:(by vm_compute)));
    by vm_compute.
Defined.

(** [await self._task] is evaluated once the lock is held: an [_inner] that
    had to queue awaits the task that [_task] names when it is given the
    lock, which is the work task of the latest [_inner] that has started,
    whichever it created itself.  If that task is still running it suspends
    on it, holding the lock; if it has returned, its value is stored at
    once. *)
Theorem _inner_awaits_task_named_at_grant (self : fid) (c : nat) (f t' : fid) (v : pyobj)
    (w : world)
    (Hf : state_of w f = Some (Result v)) (Ht : _task (sched w) = Some t') :
  let r := _inner self (Inner_acquire c f) None w in
  (done w t' = false ->
   r.2 = SAwait t' (Inner_await c t') /\ _locked (lock_of r.1) = true /\
   _waiters (lock_of r.1) = remove_first f (_waiters (lock_of w)) /\
   trace r.1 = trace w ++ [EvGrant f] /\ _result (sched r.1) = _result (sched w)) /\
  (forall u, state_of w t' = Some (Result u) ->
   r.2 = SReturn (Plain VNone) /\ _result (sched r.1) = Some u /\
   trace r.1 = trace w ++ [EvGrant f; EvWrite self t' u] /\
   _locked (lock_of r.1) = false).
Proof.
  intros r. unfold r, _inner, awaited. rewrite (state_of_result _ _ _ Hf).
  cbn [result_of_state]. unfold lock_acquire_resume.
  set (w1 := record (EvGrant f) _).
  assert (_task (sched w1) = Some t') as Ht1 by done.
  assert (forall j, state_of w1 j = state_of w j) as Hst by done.
  assert (done w1 t' = done w t') as Hd by done.
  unfold _inner_locked. rewrite Ht1, Hd. split.
  - intros ->. cbn [fst snd]. repeat split; try done.
  - intros u Hu. rewrite (state_of_done _ _ _ Hu) by done.
    assert (result w1 t' = inl u) as ->.
    { apply (state_of_result w1 t' (Result u)). by rewrite Hst. }
    unfold _inner_assign. set (w2 := record (EvWrite self t' u) _).
    assert (_locked (lock_of w2) = true) as Hl2 by done.
    destruct (lock_release_locked w2 Hl2) as (Hn & Hfree & Htr).
    pose proof (ff_lock_release w2) as Hff.
    unfold aexit. destruct (lock_release w2) as [w3 o]. cbn [fst snd] in *. subst o.
    split; [done|]. split; [|split; [|done]].
    + unfold frame_fields in Hff. injection Hff as _ _ _ _ _ Hr _ _.
      etrans; [exact Hr|done].
    + etrans; [exact Htr|]. unfold w2, w1. cbn [trace record put_lock with_sched].
      by rewrite <- app_assoc.
Qed.

(** In the scenario the second [_inner] (task 9) created the work task 13;
    when it is given the lock, [_task] names the work task 22 of the third
    loop, and that is the task it awaits. *)
Lemma _inner_awaits_task_named_at_grant_witness :
  let w := run 20 world_three_writers in
  (_inner 9 (Inner_acquire 1 14) None w).2 = SAwait 22 (Inner_await 1 22).
Proof.
  intros w.
  apply (proj1 (_inner_awaits_task_named_at_grant 9 1 14 22 (Plain VTrue) w
                  ltac:(by vm_compute) ltac:(by vm_compute))).
  by vm_compute.
Defined.

(** The run of the scenario: the second [_inner] spawned task 13 and wrote
    the result of task 22; the value 1, returned by task 13, was never
    stored. *)
Lemma overlapping_writers_lose_a_result :
  let w := run 30 world_three_writers in
  EvSpawn 9 13 "Periodic-call_index-1" ∈ trace w /\
  state_of w 13 = Some (Result (Plain (VInt 1))) /\
  omap written (trace w) = [Plain (VInt 0); Plain (VInt 2); Plain (VInt 2)] /\
  omap (fun e => match e with EvWrite s t _ => Some (s, t) | _ => None end) (trace w)
    = [(1, 5); (9, 22); (18, 22)]%nat.
Proof. vm_compute. split; [|done]. by repeat constructor. Qed.



















(** *** What the steps of [_run] and [_inner] do to the counter *)





(** *** One handle at a time *)




Lemma foldl_call_soon_eq i cbs : forall w,
  foldl (fun w cb => call_soon (HCallback cb i) w) w cbs
  = with_ready (fun q => q ++ ((fun cb => HCallback cb i) <$> cbs)) w.
Proof.
  induction cbs as [|cb cbs IH]; intros w; simpl.
  - destruct w. unfold with_ready. simpl. by rewrite app_nil_r.
  - rewrite IH. destruct w. unfold call_soon, with_ready. simpl. by rewrite <- app_assoc.
Qed.

Lemma finish_eq i st cbs k w :
  futures w !! i = Some (Future Pending cbs k) ->
  finish i st w =
    World (sched w) (<[i := Future st [] k]> (futures w))
          (_ready w ++ ((fun cb => HCallback cb i) <$> cbs))
          (_scheduled w) (time w) (ncalls w) (trace w).
Proof. intros H. unfold finish. rewrite H, foldl_call_soon_eq. done. Qed.











(** *** The relations *)

Lemma stable_refl self w : stable self w w.
Proof.
  split; eauto.
  - intros. congruence.
  - exists []. by rewrite app_nil_r.
Qed.

Lemma stable_length self w w' : stable self w w' -> (length (futures w) <= length (futures w'))%nat.
Proof.
  intros H. destruct (decide (length (futures w) <= length (futures w'))%nat) as [|Hn]; [done|].
  exfalso. destruct (lookup_lt_is_Some_2 (futures w) (length (futures w'))) as [f Hf]; [lia|].
  destruct (st_pc _ _ _ H _ _ Hf) as (f' & Hf' & _).
  apply lookup_lt_Some in Hf'. lia.
Qed.

Lemma stable_trans self w1 w2 w3 : stable self w1 w2 -> stable self w2 w3 -> stable self w1 w3.
Proof.
  intros H1 H2. split.
  - intros t x Hx. destruct (st_pc _ _ _ H1 _ _ Hx) as (x2 & Hx2 & E2).
    destruct (st_pc _ _ _ H2 _ _ Hx2) as (x3 & Hx3 & E3).
    exists x3. split; [done|]. intros Hne. by rewrite E3, E2.
  - intros t x3 Hs Hn Hx3. destruct (futures w2 !! t) as [x2|] eqn:E2.
    + pose proof (st_new _ _ _ H1 _ _ Hs Hn E2) as Hb.
      destruct (st_pc _ _ _ H2 _ _ E2) as (x3' & Hx3' & E3). simplify_eq.
      by rewrite E3.
    + by eapply (st_new _ _ _ H2).
  - destruct (st_ready _ _ _ H1) as [l1 E1], (st_ready _ _ _ H2) as [l2 E2].
    exists (l1 ++ l2). by rewrite E2, E1, app_assoc.
  - intros f x Hx Hd. destruct (st_done _ _ _ H1 _ _ Hx Hd) as (x2 & Hx2 & E2).
    destruct (st_done _ _ _ H2 _ _ Hx2) as (x3 & Hx3 & E3); [congruence|].
    exists x3. split; [done|congruence].
  - intros f x t Hx Hp Hc.
    destruct (st_wake _ _ _ H1 _ _ _ Hx Hp Hc) as (x2 & Hx2 & [[P2 C2]|[D2 R2]]).
    + apply (st_wake _ _ _ H2 _ _ _ Hx2 P2 C2).
    + destruct (st_done _ _ _ H2 _ _ Hx2 D2) as (x3 & Hx3 & E3).
      exists x3. split; [done|]. right. split; [congruence|].
      destruct (st_ready _ _ _ H2) as [l2 E2]. rewrite E2. apply elem_of_app. by left.
  - intros x Hx. destruct (st_queue _ _ _ H2 _ Hx) as [H|H].
    + apply (st_queue _ _ _ H1 _ H).
    + right. pose proof (stable_length _ _ _ H1). lia.
  - intros t Ht. destruct (st_task _ _ _ H2 _ Ht) as [H|H]; [by left|].
    destruct (st_task _ _ _ H1 _ H) as [H'|H']; [|by right].
    left. pose proof (stable_length _ _ _ H2). lia.
Qed.

Lemma stable_weaken self w w' : stable None w w' -> stable self w w'.
Proof.
  intros H. split; try apply H.
  - intros t x Hx. destruct (st_pc _ _ _ H _ _ Hx) as (x' & Hx' & E).
    exists x'. split; [done|]. intros _. by apply E.
  - intros t x' _. by apply (st_new _ _ _ H).
Qed.

Lemma stable_pc self w w' t :
  stable self w w' -> Some t <> self -> (t < length (futures w))%nat -> pc w' t = pc w t.
Proof.
  intros H Hs Hlt. unfold pc.
  destruct (lookup_lt_is_Some_2 _ _ Hlt) as [x Hx].
  destruct (st_pc _ _ _ H _ _ Hx) as (x' & Hx' & E). rewrite Hx, Hx'. simpl. by apply E.
Qed.

Lemma stable_holder self w w' t :
  stable self w w' -> Some t <> self -> holder w' t = holder w t.
Proof.
  intros H Hs. unfold holder, pc.
  destruct (futures w !! t) as [x|] eqn:Hx.
  - destruct (st_pc _ _ _ H _ _ Hx) as (x' & -> & E). simpl. by rewrite E.
  - destruct (futures w' !! t) as [x'|] eqn:Hx'; [|done]. simpl.
    pose proof (st_new _ _ _ H _ _ Hs Hx Hx') as Hb.
    destruct (task_pc x') as [co|]; [|done]. by destruct co.
Qed.

Lemma quiet_refl w : quiet w w.
Proof. by split. Qed.

Lemma quiet_trans w1 w2 w3 : quiet w1 w2 -> quiet w2 w3 -> quiet w1 w3.
Proof.
  intros (L1 & S1) (L2 & S2). split; [congruence|].
  intros f v Hf Hs. apply S1; [done|]. apply S2; [by rewrite L1|done].
Qed.

Lemma quiet_settled w w' : quiet w w' -> settled w w'.
Proof.
  intros (L & S). split; [by rewrite L|]. rewrite L. intros f v Hf Hs. split; [done|].
  by apply S.
Qed.

Lemma calm_refl self w : calm self w w.
Proof. split; [apply stable_refl|apply quiet_refl]. Qed.

Lemma calm_trans self w1 w2 w3 : calm self w1 w2 -> calm self w2 w3 -> calm self w1 w3.
Proof.
  intros [S1 Q1] [S2 Q2]. split; [by eapply stable_trans|by eapply quiet_trans].
Qed.

Lemma calm_weaken self w w' : calm None w w' -> calm self w w'.
Proof. intros [S Q]. split; [by apply stable_weaken|done]. Qed.

Lemma mutex_settled self w w' :
  stable self w w' -> settled w w' -> mutex self w -> mutex self w'.
Proof.
  intros S (L & W) [M1 M2 M3]. split.
  - intros t Hne Ht. rewrite L. apply (M1 t Hne). by rewrite <- (stable_holder _ _ _ _ S Hne).
  - intros t1 t2 H1 H2 Ht1 Ht2. apply M2; try done.
    + by rewrite <- (stable_holder _ _ _ _ S H1).
    + by rewrite <- (stable_holder _ _ _ _ S H2).
  - intros f v Hf Hs. rewrite L. destruct (W f v Hf Hs). eapply M3; eauto.
Qed.

Lemma held_settled self w w' :
  stable self w w' -> settled w w' -> held self w -> held self w'.
Proof.
  intros S (L & W) H Hl. rewrite L in Hl. destruct (H Hl) as (t & Hne & Ht).
  exists t. split; [done|]. by rewrite (stable_holder _ _ _ _ S Hne).
Qed.

Lemma full_settled self w w' :
  stable self w w' -> settled w w' -> full self w -> full self w'.
Proof. intros S Q [M H]. split; [by eapply mutex_settled|by eapply held_settled]. Qed.

Lemma owned_settled self w w' :
  stable self w w' -> settled w w' -> owned self w -> owned self w'.
Proof.
  intros S Q (M & Hl & Hn). split; [by eapply mutex_settled|]. destruct Q as (L & W).
  split; [congruence|]. intros t Hne. by rewrite (stable_holder _ _ _ _ S Hne), Hn.
Qed.

Lemma calm_mutex self w w' : calm self w w' -> mutex self w -> mutex self w'.
Proof. intros [S Q]. by apply mutex_settled, quiet_settled. Qed.

Lemma calm_full self w w' : calm self w w' -> full self w -> full self w'.
Proof. intros [S Q]. by apply full_settled, quiet_settled. Qed.

Lemma calm_owned self w w' : calm self w w' -> owned self w -> owned self w'.
Proof. intros [S Q]. by apply owned_settled, quiet_settled. Qed.

Lemma mutex_weaken self w : mutex None w -> mutex self w.
Proof. intros [M1 M2 M3]. split; eauto. Qed.

Lemma owned_mutex self w : owned self w -> mutex self w.
Proof. by intros [? _]. Qed.

Lemma mutex_free_no_holder self w t :
  mutex self w -> _locked (lock_of w) = false -> Some t <> self -> holder w t = false.
Proof.
  intros [M1 _ _] Hl Hne. destruct (holder w t) eqn:E; [|done].
  specialize (M1 t Hne E). congruence.
Qed.

(** With the lock free, a step that leaves it free and moves no task
    cannot break the exclusion. *)
Lemma full_free self w w' :
  mutex self w -> _locked (lock_of w) = false -> _locked (lock_of w') = false ->
  stable self w w' -> full self w'.
Proof.
  intros M Hl Hl' S. split; [split|].
  - intros t Hne Ht. rewrite (stable_holder _ _ _ _ S Hne) in Ht.
    by rewrite (mutex_free_no_holder _ _ _ M Hl Hne) in Ht.
  - intros t1 t2 H1 _ Ht1. rewrite (stable_holder _ _ _ _ S H1) in Ht1.
    by rewrite (mutex_free_no_holder _ _ _ M Hl H1) in Ht1.
  - done.
  - intros H. congruence.
Qed.

(** *** Steps on the heap and the queues *)

(** A step described future by future. *)
Lemma stable_intro self w w' :
  (forall i x, futures w !! i = Some x ->
     exists x', futures w' !! i = Some x' /\
       (Some i <> self -> task_pc x' = task_pc x) /\
       (f_state x <> Pending -> f_state x' = f_state x) /\
       (forall t, f_state x = Pending -> CbWakeup t ∈ f_callbacks x ->
          (f_state x' = Pending /\ CbWakeup t ∈ f_callbacks x') \/
          (f_state x' <> Pending /\ HCallback (CbWakeup t) i ∈ _ready w'))) ->
  (forall i x', Some i <> self -> futures w !! i = None -> futures w' !! i = Some x' ->
     match task_pc x' with Some co => is_begin co = true | None => True end) ->
  (exists l, _ready w' = _ready w ++ l) ->
  (forall x, x ∈ _waiters (lock_of w') ->
     x ∈ _waiters (lock_of w) \/ (length (futures w) <= x)%nat) ->
  (forall t, _task (sched w') = Some t ->
     (t < length (futures w'))%nat \/ _task (sched w) = Some t) ->
  stable self w w'.
Proof.
  intros Hp Hn Hr Hq Ht. split; try done.
  - intros t x Hx. destruct (Hp t x Hx) as (x' & ? & ? & _). by exists x'.
  - intros f x Hx Hd. destruct (Hp f x Hx) as (x' & ? & _ & Hs & _). exists x'. auto.
  - intros f x t Hx Hs Hc. destruct (Hp f x Hx) as (x' & ? & _ & _ & Hw). exists x'. auto.
Qed.

Lemma same_future_ok self (w' : world) i x :
  (Some i <> self -> task_pc x = task_pc x) /\
  (f_state x <> Pending -> f_state x = f_state x) /\
  (forall t, f_state x = Pending -> CbWakeup t ∈ f_callbacks x ->
     (f_state x = Pending /\ CbWakeup t ∈ f_callbacks x) \/
     (f_state x <> Pending /\ HCallback (CbWakeup t) i ∈ _ready w')).
Proof. split; [done|]. split; [done|]. intros; by left. Qed.

(** The heap and the lock are as before, the ready queue has grown. *)
Lemma calm_same_futures w w' :
  lock_of w' = lock_of w -> futures w' = futures w ->
  (exists l, _ready w' = _ready w ++ l) ->
  (forall t, _task (sched w') = Some t ->
     (t < length (futures w'))%nat \/ _task (sched w) = Some t) ->
  calm None w w'.
Proof.
  intros Hl Hf Hr Ht. split.
  - apply stable_intro; try done.
    + intros i x Hx. exists x. rewrite Hf. split; [done|]. apply same_future_ok.
    + intros i x' _ Hn Hx'. congruence.
    + rewrite Hl. by left.
  - split; [done|]. unfold state_of. by rewrite Hf.
Qed.

Local Ltac same_task := intros ? ?; by right.

Lemma calm_call_soon h w : calm None w (call_soon h w).
Proof. apply calm_same_futures; try done; [by exists [h]|same_task]. Qed.

Local Ltac ready_same := exists []; simpl; by rewrite app_nil_r.

Lemma calm_call_later d h w : calm None w (call_later d h w).
Proof. apply calm_same_futures; try done; [ready_same|same_task]. Qed.

Lemma calm_cancel_timer h w : calm None w (cancel_timer h w).
Proof. apply calm_same_futures; try done; [ready_same|same_task]. Qed.

Lemma calm_record e w : calm None w (record e w).
Proof. apply calm_same_futures; try done; [ready_same|same_task]. Qed.

Lemma calm_count_call w : calm None w (count_call w).
Proof. apply calm_same_futures; try done; [ready_same|same_task]. Qed.

Lemma calm_with_sched g w :
  _lock (g (sched w)) = _lock (sched w) ->
  (forall t, _task (g (sched w)) = Some t ->
     (t < length (futures w))%nat \/ _task (sched w) = Some t) ->
  calm None w (with_sched g w).
Proof. intros Hl Ht. apply calm_same_futures; try done. ready_same. Qed.

(** A step that changes the heap and leaves the lock alone. *)
Lemma calm_intro self w w' :
  lock_of w' = lock_of w ->
  (forall i x, futures w !! i = Some x ->
     exists x', futures w' !! i = Some x' /\
       (Some i <> self -> task_pc x' = task_pc x) /\
       (f_state x <> Pending -> f_state x' = f_state x) /\
       (forall t, f_state x = Pending -> CbWakeup t ∈ f_callbacks x ->
          (f_state x' = Pending /\ CbWakeup t ∈ f_callbacks x') \/
          (f_state x' <> Pending /\ HCallback (CbWakeup t) i ∈ _ready w')) /\
       (i ∈ _waiters (lock_of w) -> forall v, f_state x' = Result v -> f_state x = Result v)) ->
  (forall i x', futures w !! i = None -> futures w' !! i = Some x' ->
     f_state x' = Pending /\
     (Some i <> self -> match task_pc x' with Some co => is_begin co = true | None => True end)) ->
  (exists l, _ready w' = _ready w ++ l) ->
  _task (sched w') = _task (sched w) ->
  calm self w w'.
Proof.
  intros Hl Hp Hn Hr Ht. split.
  - apply stable_intro; try done.
    + intros i x Hx. destruct (Hp i x Hx) as (x' & ? & ? & ? & ? & _). by exists x'.
    + intros i x' Hs H1 H2. by apply (Hn i x' H1 H2).
    + rewrite Hl. by left.
    + rewrite Ht. by right.
  - split; [done|]. intros f v Hf Hs.
    unfold state_of in *. destruct (futures w' !! f) as [x'|] eqn:E'; [|done].
    destruct (futures w !! f) as [x|] eqn:E.
    + destruct (Hp f x E) as (x'' & ? & _ & _ & _ & Hres). simplify_eq/=.
      f_equal. by apply Hres.
    + destruct (Hn f x' E E') as [Hpend _]. simplify_eq/=. congruence.
Qed.

Lemma calm_new_future k cbs w :
  (forall n co fw mc, k = KTask n co fw mc -> is_begin co = true) ->
  calm None w (new_future k cbs w).2.
Proof.
  intros Hk. apply calm_intro; try done.
  - intros i x Hx. exists x. simpl. split; [by apply lookup_app_l_Some|].
    destruct (same_future_ok None (new_future k cbs w).2 i x) as (? & ? & ?). done.
  - intros i x' Hn Hx'. simpl in Hx'.
    apply lookup_app_Some in Hx' as [Hx'|[_ Hx']]; [congruence|].
    apply list_lookup_singleton_Some in Hx' as [_ <-]. split; [done|]. intros _. simpl.
    destruct k as [| |n co fw mc]; try done. by eapply Hk.
  - ready_same.
Qed.

Lemma calm_create_task n co cbs w :
  is_begin co = true -> calm None w (create_task n co cbs w).2.
Proof.
  intros Hco. unfold create_task.
  pose proof (calm_new_future (KTask n co None false) cbs w) as H.
  destruct (new_future _ _ _) as [t w1]. simpl in *.
  eapply calm_trans; [apply H; by intros ? ? ? ? [= <- <- <- <-]|apply calm_call_soon].
Qed.

Lemma create_task_fresh n co cbs w :
  ((create_task n co cbs w).1 < length (futures (create_task n co cbs w).2))%nat.
Proof. unfold create_task. simpl. rewrite length_app. simpl. lia. Qed.

Lemma calm_alter g i w :
  (forall x, futures w !! i = Some x ->
     task_pc (g x) = task_pc x /\ f_state (g x) = f_state x /\
     forall t, CbWakeup t ∈ f_callbacks x -> CbWakeup t ∈ f_callbacks (g x)) ->
  calm None w (with_futures (alter g i) w).
Proof.
  intros Hg. apply calm_intro; try done.
  - intros j x Hx. simpl. destruct (decide (i = j)) as [->|Hne].
    + exists (g x). rewrite list_lookup_alter_eq, Hx. simpl.
      destruct (Hg x Hx) as (Hpc & Hs & Hc). split; [done|]. split; [done|].
      split; [congruence|]. split; [|congruence].
      intros t Hp Hcb. left. split; [congruence|by apply Hc].
    + exists x. rewrite list_lookup_alter_ne by done. split; [done|].
      destruct (same_future_ok None (with_futures (alter g i) w) j x) as (? & ? & ?). done.
  - intros j x' Hn Hx'. simpl in Hx'. destruct (decide (i = j)) as [->|Hne].
    + rewrite list_lookup_alter_eq, Hn in Hx'. done.
    + rewrite list_lookup_alter_ne in Hx' by done. congruence.
  - ready_same.
Qed.

(** Storing the program point the task is at. *)
Lemma calm_store_coro_same t co fw w st cbs n fw0 mc :
  futures w !! t = Some (Future st cbs (KTask n co fw0 mc)) ->
  calm None w (store_coro t co fw w).
Proof. intros E. apply calm_alter. intros x Hx. by simplify_eq/=. Qed.

Lemma calm_set_must_cancel t b w : calm None w (set_must_cancel t b w).
Proof. apply calm_alter. by intros [st cbs []] _. Qed.

Lemma calm_set_cancel_requested g w : calm None w (set_cancel_requested g w).
Proof. apply calm_alter. by intros [st cbs []] _. Qed.

Lemma calm_remove_done_callback i cb w :
  (forall t, cb <> CbWakeup t) -> calm None w (remove_done_callback i cb w).
Proof.
  intros Hcb. apply calm_alter. intros [st cbs k] _. simpl. split; [done|]. split; [done|].
  intros t Ht. apply list_elem_of_filter. split; [apply not_eq_sym, Hcb|done].
Qed.

Lemma calm_insert i x y w :
  futures w !! i = Some x ->
  task_pc y = task_pc x -> f_state y = f_state x ->
  (forall t, CbWakeup t ∈ f_callbacks x -> CbWakeup t ∈ f_callbacks y) ->
  calm None w (with_futures (<[i := y]>) w).
Proof.
  intros Ei Hpc Hs Hc.
  replace (with_futures (<[i := y]>) w) with (with_futures (alter (fun _ => y) i) w).
  - apply calm_alter. intros x' Hx'. by simplify_eq.
  - unfold with_futures. by rewrite (alter_lookup_Some _ _ _ _ Ei).
Qed.

(** A future that is no pending task ends; [self] is the task that steps,
    which does end itself. *)
Lemma calm_finish self i st w :
  st <> Pending ->
  (forall x, futures w !! i = Some x -> task_pc x = None \/ self = Some i) ->
  (i ∈ _waiters (lock_of w) -> forall v, st <> Result v) ->
  calm self w (finish i st w).
Proof.
  intros Hst Hi Hq.
  destruct (futures w !! i) as [[[] cbs k]|] eqn:E;
    try (unfold finish; rewrite E; apply calm_refl).
  rewrite (finish_eq i st cbs k w E).
  apply calm_intro; try done.
  - intros j x Hx. cbn [futures _ready]. destruct (decide (i = j)) as [->|Hne].
    + exists (Future st [] k). rewrite list_lookup_insert_eq by (by eapply lookup_lt_Some).
      simplify_eq. split; [done|]. split; [|split; [done|split]].
      * intros Hs. destruct (Hi _ eq_refl) as [Hn|Hn]; [|congruence].
        rewrite Hn. by destruct st.
      * intros t _ Ht. right. split; [done|]. apply elem_of_app. right.
        apply list_elem_of_fmap. by exists (CbWakeup t).
      * simpl. intros Hin v ->. by destruct (Hq Hin v).
    + exists x. rewrite list_lookup_insert_ne by done. split; [done|].
      split; [done|]. split; [done|]. split; [|done]. intros; by left.
  - intros j x' Hn Hx'. cbn [futures] in Hx'. destruct (decide (i = j)) as [->|Hne].
    + congruence.
    + rewrite list_lookup_insert_ne in Hx' by done. congruence.
  - cbn [_ready]. by eexists.
Qed.

Lemma calm_add_done_callback i cb w : calm None w (add_done_callback i cb w).
Proof.
  unfold add_done_callback. destruct (futures w !! i) as [[[] cbs k]|] eqn:E;
    try apply calm_call_soon; try apply calm_refl.
  eapply calm_insert; [exact E|done|done|].
  simpl. intros t Ht. apply elem_of_app. by left.
Qed.

Lemma calm_cancel d : forall i w, calm None w (cancel d i w).1.
Proof.
  induction d as [|d IH]; intros i w; simpl.
  - destruct (futures w !! i) as [[[] cbs [| |n co fw mc]]|] eqn:E; simpl; try apply calm_refl.
    + apply calm_finish; try done. intros x Hx. left. by simplify_eq.
    + destruct fw; apply calm_set_must_cancel.
  - destruct (futures w !! i) as [[[] cbs [|children n cr|n co [f|] mc]]|] eqn:E; simpl;
      try apply calm_refl.
    + apply calm_finish; try done. intros x Hx. left. by simplify_eq.
    + assert (forall l w0 b,
        calm None w0 (foldl (fun '(w, ret) child =>
                  let '(w', b) := cancel d child w in (w', ret || b)) (w0, b) l).1) as Hf.
      { induction l as [|a l IHl]; intros w0 b; simpl; [apply calm_refl|].
        pose proof (IH a w0) as Ha. destruct (cancel d a w0) as [w1 b1]. simpl in Ha.
        eapply calm_trans; [exact Ha|apply IHl]. }
      specialize (Hf children w false).
      destruct (foldl _ _ _) as [w' ret]. simpl in Hf.
      destruct ret; simpl; [|done].
      eapply calm_trans; [exact Hf|apply calm_set_cancel_requested].
    + pose proof (IH f w) as Hc. destruct (cancel d f w) as [w' b]. simpl in Hc.
      destruct b; simpl; [done|].
      eapply calm_trans; [exact Hc|apply calm_set_must_cancel].
    + apply calm_set_must_cancel.
Qed.

Lemma calm_fut_cancel i w : calm None w (fut_cancel i w).1.
Proof. apply calm_cancel. Qed.

(** *** The coroutines that leave the lock alone *)

Lemma calm_sleep_begin d w : calm None w (sleep_begin d w).1.
Proof.
  unfold sleep_begin. destruct (d <=? 0); [apply calm_refl|].
  cbn [create_future new_future fst snd].
  eapply calm_trans; [apply (calm_new_future KPlain [] w); by intros|apply calm_call_later].
Qed.

Lemma calm_sleep pc0 thrown w : calm None w (sleep pc0 thrown w).1.
Proof.
  unfold sleep. destruct pc0; try apply calm_refl.
  - destruct thrown; [apply calm_refl|].
    pose proof (calm_sleep_begin delay w) as H. by destruct (sleep_begin delay w) as [w1 [f|]].
  - destruct thrown; apply calm_refl.
  - pose proof (calm_cancel_timer (HTimerSetResult f) w). by destruct (awaited w f thrown).
Qed.

Lemma calm_work pc0 thrown w : calm None w (work pc0 thrown w).1.
Proof.
  unfold work. destruct pc0; try apply calm_refl.
  - destruct thrown; [apply calm_refl|].
    pose proof (calm_sleep_begin (w_delay r) w) as H.
    by destruct (sleep_begin (w_delay r) w) as [w1 [f|]].
  - destruct thrown; apply calm_refl.
  - pose proof (calm_cancel_timer (HTimerSetResult f) w). by destruct (awaited w f thrown).
Qed.

Lemma calm_gather_inner_sleep m c w : calm None w (gather_inner_sleep m c w).2.
Proof.
  unfold gather_inner_sleep.
  eapply calm_trans; [apply (calm_record (EvCycle m c (length (futures w))))|].
  set (w1 := record _ w). set (g := (length (futures w) + 2)%nat).
  pose proof (calm_create_task "" (Inner_begin c) [CbGatherDone g] w1 eq_refl) as K2.
  destruct (create_task "" (Inner_begin c) _ w1) as [t2 w2]. cbn [snd] in K2.
  pose proof (calm_create_task "" (Sleep_begin (interval (sched w2))) [CbGatherDone g] w2 eq_refl)
    as K3.
  destruct (create_task "" (Sleep_begin _) _ w2) as [t3 w3]. cbn [snd] in K3.
  eapply calm_trans; [exact K2|]. eapply calm_trans; [exact K3|].
  apply calm_new_future. by intros.
Qed.

Lemma calm__run_rest next g r w :
  (forall w, calm None w (next w).1) -> calm None w (_run_rest next g r w).1.
Proof.
  intros Hn. unfold _run_rest. repeat case_match; simpl; try apply calm_refl. apply Hn.
Qed.

Lemma calm__run_loop fuel : forall m c w, calm None w (_run_loop fuel m c w).1.
Proof.
  induction fuel as [|fuel IH]; intros m c w; cbn [_run_loop]; [apply calm_refl|].
  pose proof (calm_gather_inner_sleep m c w) as Hg.
  destruct (gather_inner_sleep m c w) as [g w1]. cbn [snd] in Hg.
  eapply calm_trans; [exact Hg|].
  destruct (interval (sched w1) <=? 0).
  - destruct (done w1 g); [by apply calm__run_rest|].
    pose proof (calm_fut_cancel g w1) as Hc.
    destruct (fut_cancel g w1) as [w2 b]. cbn [fst] in Hc.
    eapply calm_trans; [exact Hc|by apply calm__run_rest].
  - cbn [create_future new_future fst snd].
    eapply calm_trans; [apply (calm_new_future KPlain [] w1); by intros|].
    eapply calm_trans; [apply calm_call_later|apply calm_add_done_callback].
Qed.

Lemma calm__run m pc0 thrown w : calm None w (_run m pc0 thrown w).1.
Proof.
  unfold _run.
  assert (forall c w, calm None w (_run_loop run_fuel m c w).1) as Hn
    by (intros; apply calm__run_loop).
  destruct pc0; try apply calm_refl.
  - destruct thrown; [apply calm_refl|]. apply Hn.
  - destruct (awaited w x thrown) as [v|e].
    + destruct (done w g).
      * eapply calm_trans; [apply calm_cancel_timer|by apply calm__run_rest].
      * cbn [create_future new_future].
        match goal with |- context [fut_cancel g ?w0] =>
          pose proof (calm_fut_cancel g w0) as Hc;
          assert (calm None w w0) as H0;
          [|destruct (fut_cancel g w0) as [w4 b]] end.
        { eapply calm_trans; [by apply (calm_remove_done_callback g (CbReleaseWaiter x))|].
          eapply calm_trans; [apply (calm_new_future KPlain []); by intros|
                              apply calm_add_done_callback]. }
        cbn [fst] in *. by eapply calm_trans.
    + eapply calm_trans; [|by apply calm__run_rest].
      eapply calm_trans; [|apply calm_cancel_timer].
      destruct (is_cancelled_error e); [|apply calm_refl].
      eapply calm_trans; [by apply (calm_remove_done_callback g (CbReleaseWaiter x))|
                          apply calm_fut_cancel].
  - destruct (awaited w y thrown);
      (eapply calm_trans; [|by apply calm__run_rest]);
      (eapply calm_trans; [by apply (calm_remove_done_callback g (CbReleaseWaiter y))|
                           apply calm_cancel_timer]).
Qed.

Lemma calm__start w : calm None w (_start w).
Proof.
  unfold _start.
  pose proof (calm_create_task (name (sched w) +:+ "-main") Run_begin [] w eq_refl) as K.
  destruct (create_task _ _ _ _) as [m w1]. cbn [snd] in K.
  eapply calm_trans; [exact K|]. apply (calm_with_sched (set_main m)); [done|same_task].
Qed.

Lemma calm__stop w : calm None w (_stop w).1.
Proof. unfold _stop. destruct (_main (sched w)); [apply calm_fut_cancel|apply calm_refl]. Qed.

Lemma calm_start delay w : calm None w (start delay w).1.
Proof.
  unfold start. destruct (running (sched w)); [apply calm_refl|].
  eapply calm_trans; [apply (calm_with_sched (set_running true)); [done|same_task]|].
  destruct delay; cbn [fst]; [apply calm_call_later|apply calm_call_soon].
Qed.

Lemma calm_stop delay w : calm None w (stop delay w).1.
Proof.
  unfold stop. destruct (negb (running (sched w))); [apply calm_refl|].
  eapply calm_trans; [apply (calm_with_sched (set_running false)); [done|same_task]|].
  destruct delay; cbn [fst]; [apply calm_call_later|apply calm__stop].
Qed.

Lemma calm_unhandled h w r : calm None w r.1 -> calm None w (unhandled h r).
Proof.
  intros K. unfold unhandled. destruct r as [w1 [e|]]; [|done]. cbn [fst] in K.
  eapply calm_trans; [exact K|apply calm_record].
Qed.

(** *** The lock *)

Lemma stable_finish self i st w :
  st <> Pending ->
  (forall x, futures w !! i = Some x -> task_pc x = None \/ self = Some i) ->
  stable self w (finish i st w).
Proof.
  intros Hst Hi.
  destruct (futures w !! i) as [[[] cbs k]|] eqn:E;
    try (unfold finish; rewrite E; apply stable_refl).
  rewrite (finish_eq i st cbs k w E).
  apply stable_intro; try done.
  - intros j x Hx. cbn [futures _ready]. destruct (decide (i = j)) as [->|Hne].
    + exists (Future st [] k). rewrite list_lookup_insert_eq by (by eapply lookup_lt_Some).
      simplify_eq. split; [done|]. split; [|split; [done|]].
      * intros Hs. destruct (Hi _ eq_refl) as [Hn|Hn]; [|congruence].
        rewrite Hn. by destruct st.
      * intros t _ Ht. right. split; [done|]. apply elem_of_app. right.
        apply list_elem_of_fmap. by exists (CbWakeup t).
    + exists x. rewrite list_lookup_insert_ne by done. split; [done|].
      split; [done|]. split; [done|]. intros; by left.
  - intros j x' _ Hn Hx'. cbn [futures] in Hx'. destruct (decide (i = j)) as [->|Hne].
    + congruence.
    + rewrite list_lookup_insert_ne in Hx' by done. congruence.
  - cbn [_ready]. by eexists.
  - by left.
  - same_task.
Qed.

(** The heap is as before, the queue of the lock has lost waiters or gained
    new futures. *)
Lemma stable_put_lock l w :
  (forall x, x ∈ _waiters l -> x ∈ _waiters (lock_of w) \/ (length (futures w) <= x)%nat) ->
  stable None w (put_lock l w).
Proof.
  intros Hl. apply stable_intro; try done.
  - intros i x Hx. exists x. split; [done|]. apply same_future_ok.
  - intros i x' _ Hn Hx'. simpl in Hx'. congruence.
  - ready_same.
  - same_task.
Qed.

Lemma task_pc_plain w f x :
  kind_of w f = Some KPlain -> futures w !! f = Some x -> task_pc x = None.
Proof.
  unfold kind_of. intros Hk Hx. rewrite Hx in Hk. simplify_eq/=.
  destruct x as [[] ? []]; simplify_eq/=; done.
Qed.

Lemma stable__wake_up_first w :
  (forall f, f ∈ _waiters (lock_of w) -> kind_of w f = Some KPlain) ->
  stable None w (_wake_up_first w).
Proof.
  intros Hp. unfold _wake_up_first.
  destruct (_waiters (lock_of w)) as [|f q] eqn:E; [apply stable_refl|].
  destruct (done w f); [apply stable_refl|].
  apply stable_finish; [done|]. intros x Hx. left.
  eapply task_pc_plain; [|exact Hx]. apply Hp. by left.
Qed.

Lemma lock_of__wake_up_first w : lock_of (_wake_up_first w) = lock_of w.
Proof. apply lock_of_pstate, pstate__wake_up_first. Qed.

Lemma stable_lock_acquire w : stable None w (lock_acquire w).1.
Proof.
  unfold lock_acquire. destruct (negb _ && _); cbn [fst].
  - apply stable_put_lock. intros x Hx. by left.
  - cbn [create_future new_future fst snd].
    apply stable_intro.
    + intros i x Hx. exists x. simpl. split; [by apply lookup_app_l_Some|].
      apply same_future_ok.
    + intros i x' _ Hn Hx'. simpl in Hx'.
      apply lookup_app_Some in Hx' as [Hx'|[_ Hx']]; [congruence|].
      by apply list_lookup_singleton_Some in Hx' as [_ <-].
    + ready_same.
    + simpl. intros x [Hx| ->%list_elem_of_singleton]%elem_of_app; [by left|by right].
    + same_task.
Qed.

Lemma stable_dequeue f b w :
  stable None w (put_lock (MkLock b (remove_first f (_waiters (lock_of w)))) w).
Proof. apply stable_put_lock. simpl. intros x Hx. left. by eapply remove_first_elem. Qed.

Lemma stable_lock_acquire_resume f r w :
  lock_inv w -> stable None w (lock_acquire_resume f r w).1.
Proof.
  intros Hinv. unfold lock_acquire_resume.
  set (w1 := put_lock (MkLock (_locked (lock_of w)) (remove_first f (_waiters (lock_of w)))) w).
  assert (stable None w w1) as S1 by apply stable_dequeue.
  destruct r as [v|e]; cbn [fst].
  - eapply stable_trans; [exact S1|]. eapply stable_trans; [|apply calm_record].
    apply (stable_put_lock (MkLock true (_waiters (lock_of w1)))). by left.
  - destruct (is_cancelled_error e); cbn [fst]; [|done].
    destruct (_locked (lock_of w)); [done|].
    eapply stable_trans; [exact S1|]. apply stable__wake_up_first.
    simpl. intros x Hx. apply (li_plain w Hinv). by eapply remove_first_elem.
Qed.

Lemma stable_lock_release w : lock_inv w -> stable None w (lock_release w).1.
Proof.
  intros Hinv. unfold lock_release. destruct (_locked (lock_of w)); [|apply stable_refl].
  cbn [fst].
  eapply stable_trans;
    [apply (stable_put_lock (MkLock false (_waiters (lock_of w)))); by left|].
  apply stable__wake_up_first. simpl. apply (li_plain w Hinv).
Qed.

Lemma stable_aexit r w : lock_inv w -> stable None w (aexit r w).1.
Proof.
  intros Hinv. unfold aexit. pose proof (stable_lock_release w Hinv) as S.
  by destruct (lock_release w) as [w1 [e|]].
Qed.

Lemma stable_then self w w1 w2 :
  stable self w w1 -> stable self w1 w2 -> stable self w w2.
Proof. apply stable_trans. Qed.

Lemma stable__inner_assign self t r w :
  loop_inv w -> stable None w (_inner_assign self t r w).1.
Proof.
  intros Hinv. unfold _inner_assign.
  destruct r as [v|e]; [|apply stable_aexit, Hinv].
  pose proof (keeps_with_sched (set_result v) w Hinv eq_refl) as K1.
  pose proof (keeps_record (EvWrite self t v) _ (k_inv _ _ _ K1) eq_refl eq_refl) as K2.
  eapply stable_trans; [apply (calm_with_sched (set_result v)); [done|same_task]|].
  eapply stable_trans; [apply (calm_record (EvWrite self t v))|].
  apply stable_aexit, (k_inv _ _ _ K2).
Qed.

Lemma stable__inner_locked self c w :
  loop_inv w -> stable None w (_inner_locked self c w).1.
Proof.
  intros Hinv. unfold _inner_locked.
  destruct (_task (sched w)) as [t|]; [|apply stable_aexit, Hinv].
  destruct (done w t); [by apply stable__inner_assign|apply stable_refl].
Qed.

Lemma stable__inner_begin self c w :
  loop_inv w -> stable None w (_inner_begin self c w).1.
Proof.
  intros Hinv. unfold _inner_begin.
  set (r := co_call _ _ _ _). set (nm := task_name (sched w) c).
  pose proof (keeps_count_call w Hinv) as K1.
  assert (keeps None (count_call w) (create_task nm (Work_begin r) [] (count_call w)).2) as K2.
  { apply keeps_create_task; [apply K1|]. by intros cb ?%elem_of_nil. }
  pose proof (calm_create_task nm (Work_begin r) [] (count_call w) eq_refl) as C2.
  pose proof (create_task_fresh nm (Work_begin r) [] (count_call w)) as Hfresh.
  destruct (create_task nm (Work_begin r) [] (count_call w)) as [t w1].
  cbn [fst snd] in K2, C2, Hfresh.
  pose proof (keeps_with_sched (set_task t) w1 (k_inv _ _ _ K2) eq_refl) as K3.
  pose proof (keeps_record (EvSpawn self t nm) _ (k_inv _ _ _ K3) eq_refl eq_refl) as K4.
  set (w4 := record _ _) in *.
  assert (stable None w w4) as S4.
  { eapply stable_trans; [apply calm_count_call|].
    eapply stable_trans; [apply C2|].
    eapply stable_trans; [apply (calm_with_sched (set_task t)); [done|intros ? [= <-]; by left]|].
    apply calm_record. }
  pose proof (keeps_lock_acquire _ (k_inv _ _ _ K4)) as K5.
  pose proof (stable_lock_acquire w4) as S5.
  destruct (lock_acquire w4) as [w5 [f|]]; cbn [fst] in *.
  - by eapply stable_trans.
  - eapply stable_trans; [exact S4|]. eapply stable_trans; [exact S5|].
    apply stable__inner_locked, (k_inv _ _ _ K5).
Qed.

Lemma stable__inner self pc0 thrown w :
  loop_inv w -> queued w pc0 -> stable None w (_inner self pc0 thrown w).1.
Proof.
  intros Hinv Hq. unfold _inner. destruct pc0; try apply stable_refl.
  - destruct thrown; [apply stable_refl|]. by apply stable__inner_begin.
  - pose proof (keeps_lock_acquire_resume f thrown w Hinv (Hq f eq_refl)) as K.
    pose proof (stable_lock_acquire_resume f (awaited w f thrown) w (inv_lock _ Hinv)) as S.
    destruct (lock_acquire_resume _ _ _) as [w1 [e|]]; cbn [fst] in *; [done|].
    eapply stable_trans; [exact S|]. apply stable__inner_locked, (k_inv _ _ _ K).
  - by apply stable__inner_assign.
Qed.

Lemma stable_get_result_locked w : loop_inv w -> stable None w (get_result_locked w).1.
Proof. intros Hinv. unfold get_result_locked. case_match; apply stable_aexit, Hinv. Qed.

Lemma stable_get_result pc0 thrown w :
  loop_inv w -> queued w pc0 -> stable None w (get_result pc0 thrown w).1.
Proof.
  intros Hinv Hq. unfold get_result. destruct pc0; try apply stable_refl.
  - destruct thrown; [apply stable_refl|].
    pose proof (keeps_lock_acquire _ Hinv) as K.
    pose proof (stable_lock_acquire w) as S.
    destruct (lock_acquire _) as [w1 [f|]]; cbn [fst] in *; [done|].
    eapply stable_trans; [exact S|]. apply stable_get_result_locked, (k_inv _ _ _ K).
  - pose proof (keeps_lock_acquire_resume f thrown w Hinv (Hq f eq_refl)) as K.
    pose proof (stable_lock_acquire_resume f (awaited w f thrown) w (inv_lock _ Hinv)) as S.
    destruct (lock_acquire_resume _ _ _) as [w1 [e|]]; cbn [fst] in *; [done|].
    eapply stable_trans; [exact S|]. apply stable_get_result_locked, (k_inv _ _ _ K).
Qed.

Lemma stable_resume t co thrown w :
  loop_inv w -> queued w co -> stable None w (resume t co thrown w).1.
Proof.
  intros Hinv Hq. destruct co; cbn [resume];
    first [ apply calm__run | apply calm_sleep | apply calm_work
          | by apply stable__inner | by apply stable_get_result ].
Qed.

(** *** Exclusion, step by step *)

(** A free lock is taken: no task held it, and no waiter is woken. *)
Lemma owned_take self w w' :
  mutex self w -> _locked (lock_of w) = false -> stable self w w' ->
  _locked (lock_of w') = true ->
  (forall f v, f ∈ _waiters (lock_of w') -> state_of w' f = Some (Result v) -> False) ->
  owned self w'.
Proof.
  intros M Hl S Hl' Hw.
  assert (forall t, Some t <> self -> holder w' t = false) as Hn.
  { intros t Hne. rewrite (stable_holder _ _ _ _ S Hne). by eapply mutex_free_no_holder. }
  split; [split|split]; try done.
  - intros t1 t2 H1 _ Ht1. by rewrite (Hn t1 H1) in Ht1.
  - intros f v Hf Hs. destruct (Hw f v Hf Hs).
Qed.

(** The lock is released by the task that has it. *)
Lemma full_released self w w' :
  owned self w -> stable self w w' -> _locked (lock_of w') = false -> full self w'.
Proof.
  intros (M & Hl & Hn) S Hl'.
  assert (forall t, Some t <> self -> holder w' t = false) as Hn'.
  { intros t Hne. rewrite (stable_holder _ _ _ _ S Hne). by apply Hn. }
  split; [split|]; try done.
  - intros t Hne Ht. by rewrite (Hn' t Hne) in Ht.
  - intros t1 t2 H1 _ Ht1. by rewrite (Hn' t1 H1) in Ht1.
  - intros H. congruence.
Qed.

Lemma lock_acquire_post self w :
  full self w ->
  match (lock_acquire w).2 with
  | None => owned self (lock_acquire w).1
  | Some f => full self (lock_acquire w).1
  end.
Proof.
  intros Hf. pose proof (stable_weaken self _ _ (stable_lock_acquire w)) as S.
  unfold lock_acquire in *.
  destruct (negb (_locked (lock_of w)) && forallb (cancelled w) (_waiters (lock_of w))) eqn:E;
    cbn [fst snd] in *.
  - apply andb_true_iff in E as [Hl Hc]. apply negb_true_iff in Hl.
    eapply owned_take; [apply Hf|exact Hl|exact S|done|].
    simpl. intros f v Hin Hs.
    rewrite forallb_forall in Hc. specialize (Hc f). rewrite <- list_elem_of_In in Hc.
    specialize (Hc Hin). unfold cancelled, state_of in *. simpl in Hs.
    destruct (futures w !! f) as [[[] ? ?]|]; simplify_eq/=.
  - cbn [create_future new_future fst snd] in *.
    eapply full_settled; [exact S| |exact Hf]. split; [done|].
    simpl. intros f v Hin Hs. unfold state_of in *. simpl in Hs.
    destruct (futures w !! f) as [x|] eqn:Ex.
    + rewrite (lookup_app_l_Some _ _ _ _ Ex) in Hs. split; [|done].
      apply elem_of_app in Hin as [?| ->%list_elem_of_singleton]; [done|].
      apply lookup_lt_Some in Ex. lia.
    + apply lookup_ge_None in Ex. destruct (decide (f = length (futures w))) as [->|Hne].
      * rewrite lookup_app_r, Nat.sub_diag in Hs by lia. by simplify_eq/=.
      * rewrite lookup_ge_None_2 in Hs; [done|]. rewrite length_app. simpl. lia.
Qed.

Lemma lock_acquire_resume_post self f r w :
  lock_inv w -> f ∈ _waiters (lock_of w) -> full self w ->
  (forall v, r = inl v -> state_of w f = Some (Result v)) ->
  match (lock_acquire_resume f r w).2 with
  | None => owned self (lock_acquire_resume f r w).1
  | Some _ => full self (lock_acquire_resume f r w).1
  end.
Proof.
  intros Hinv Hin Hf Hr.
  pose proof (stable_weaken self _ _ (stable_lock_acquire_resume f r w Hinv)) as S.
  unfold lock_acquire_resume in *.
  set (w1 := put_lock (MkLock (_locked (lock_of w)) (remove_first f (_waiters (lock_of w)))) w)
    in *.
  assert (stable self w w1) as S1 by apply stable_weaken, stable_dequeue.
  assert (settled w w1) as Q1.
  { split; [done|].
    simpl. intros f' v Hf' Hs. split; [by eapply remove_first_elem|done]. }
  destruct r as [v|e]; cbn [fst snd] in *.
  - assert (_locked (lock_of w) = false) as Hl.
    { eapply (mx_woken _ _ (proj1 Hf)); [exact Hin|by apply Hr]. }
    eapply owned_take; [apply Hf|exact Hl|exact S|done|].
    simpl. intros f' v' Hf' Hs.
    assert (f' ∈ _waiters (lock_of w)) as Hq by (by eapply remove_first_elem).
    pose proof (li_head w Hinv f' v' Hq Hs) as H1.
    pose proof (li_head w Hinv f v Hin (Hr v eq_refl)) as H2.
    assert (f' = f) as -> by congruence.
    by apply (remove_first_not_in f _ (lock_inv_waiters_nodup w Hinv)).
  - destruct (is_cancelled_error e); cbn [fst snd] in *; [|by eapply full_settled].
    destruct (_locked (lock_of w)) eqn:Hl; [by eapply full_settled|].
    eapply full_free; [apply Hf|exact Hl| |exact S].
    by rewrite lock_of__wake_up_first.
Qed.

Lemma lock_release_post self w :
  lock_inv w -> owned self w ->
  full self (lock_release w).1 /\ (lock_release w).2 = None.
Proof.
  intros Hinv Ho. pose proof (stable_weaken self _ _ (stable_lock_release w Hinv)) as S.
  destruct Ho as (M & Hl & Hn). unfold lock_release in *. rewrite Hl in *. cbn [fst snd] in *.
  split; [|done]. eapply full_released; [by split|exact S|].
  by rewrite lock_of__wake_up_first.
Qed.

Lemma aexit_post self r w :
  lock_inv w -> owned self w -> full self (aexit r w).1 /\ (aexit r w).2 = r.
Proof.
  intros Hinv Ho. destruct (lock_release_post self w Hinv Ho) as [Hf He].
  unfold aexit. destruct (lock_release w) as [w1 [e|]]; simplify_eq/=. done.
Qed.

Lemma step_post_out self w r : crit r = false -> full self w -> step_post self (w, r).
Proof. intros Hc Hf. split; simpl; [done|congruence]. Qed.

Lemma step_post_in self w r : crit r = true -> owned self w -> step_post self (w, r).
Proof. intros Hc Hf. split; simpl; [congruence|done]. Qed.

Lemma step_post_aexit self r w :
  crit r = false -> lock_inv w -> owned self w -> step_post self (aexit r w).
Proof.
  intros Hc Hinv Ho. destruct (aexit_post self r w Hinv Ho) as [Hf He].
  destruct (aexit r w) as [w1 r1]. simpl in *. subst r1. by apply step_post_out.
Qed.

Lemma _inner_assign_post self s t r w :
  loop_inv w -> owned self w -> step_post self (_inner_assign s t r w).
Proof.
  intros Hinv Ho. unfold _inner_assign.
  destruct r as [v|e]; [|by apply step_post_aexit; [|apply Hinv|]].
  pose proof (keeps_with_sched (set_result v) w Hinv eq_refl) as K1.
  pose proof (keeps_record (EvWrite s t v) _ (k_inv _ _ _ K1) eq_refl eq_refl) as K2.
  apply step_post_aexit; [done|apply (k_inv _ _ _ K2)|].
  eapply calm_owned; [|exact Ho]. apply calm_weaken.
  eapply calm_trans; [apply (calm_with_sched (set_result v)); [done|same_task]|apply calm_record].
Qed.

Lemma _inner_locked_post self s c w :
  loop_inv w -> owned self w -> step_post self (_inner_locked s c w).
Proof.
  intros Hinv Ho. unfold _inner_locked.
  destruct (_task (sched w)) as [t|]; [|by apply step_post_aexit; [|apply Hinv|]].
  destruct (done w t); [by apply _inner_assign_post|by apply step_post_in].
Qed.

Lemma _inner_begin_post self s c w :
  loop_inv w -> full self w -> step_post self (_inner_begin s c w).
Proof.
  intros Hinv Hf. unfold _inner_begin.
  set (r := co_call _ _ _ _). set (nm := task_name (sched w) c).
  pose proof (keeps_count_call w Hinv) as K1.
  assert (keeps None (count_call w) (create_task nm (Work_begin r) [] (count_call w)).2) as K2.
  { apply keeps_create_task; [apply K1|]. by intros cb ?%elem_of_nil. }
  pose proof (calm_create_task nm (Work_begin r) [] (count_call w) eq_refl) as C2.
  pose proof (create_task_fresh nm (Work_begin r) [] (count_call w)) as Hfresh.
  destruct (create_task nm (Work_begin r) [] (count_call w)) as [t w1].
  cbn [fst snd] in K2, C2, Hfresh.
  pose proof (keeps_with_sched (set_task t) w1 (k_inv _ _ _ K2) eq_refl) as K3.
  pose proof (keeps_record (EvSpawn s t nm) _ (k_inv _ _ _ K3) eq_refl eq_refl) as K4.
  set (w4 := record _ _) in *.
  assert (full self w4) as F4.
  { eapply calm_full; [|exact Hf]. apply calm_weaken.
    eapply calm_trans; [apply calm_count_call|].
    eapply calm_trans; [apply C2|].
    eapply calm_trans; [apply (calm_with_sched (set_task t)); [done|intros ? [= <-]; by left]|].
    apply calm_record. }
  pose proof (keeps_lock_acquire _ (k_inv _ _ _ K4)) as K5.
  pose proof (lock_acquire_post self w4 F4) as P5.
  destruct (lock_acquire w4) as [w5 [f|]]; cbn [fst snd] in *.
  - by apply step_post_out.
  - apply _inner_locked_post; [apply (k_inv _ _ _ K5)|done].
Qed.

Lemma awaited_value w f thrown v :
  awaited w f thrown = inl v -> state_of w f = Some (Result v).
Proof. destruct thrown; [done|]. apply result_state. Qed.

Lemma _inner_post self s co thrown w :
  loop_inv w -> queued w co -> step_pre self co w -> step_post self (_inner s co thrown w).
Proof.
  intros Hinv Hq Hpre. unfold _inner, step_pre in *.
  destruct co; simpl in Hpre; try (by apply step_post_out).
  - destruct thrown; [by apply step_post_out|]. by apply _inner_begin_post.
  - pose proof (keeps_lock_acquire_resume f thrown w Hinv (Hq f eq_refl)) as K.
    pose proof (lock_acquire_resume_post self f (awaited w f thrown) w
                  (inv_lock _ Hinv) (Hq f eq_refl) Hpre) as P.
    destruct (lock_acquire_resume _ _ _) as [w1 [e|]]; cbn [fst snd] in *.
    + apply step_post_out; [done|]. apply P. intros v. apply awaited_value.
    + apply _inner_locked_post; [apply (k_inv _ _ _ K)|].
      apply P. intros v. apply awaited_value.
  - by apply _inner_assign_post.
Qed.

Lemma get_result_locked_post self w :
  loop_inv w -> owned self w -> step_post self (get_result_locked w).
Proof.
  intros Hinv Ho. unfold get_result_locked.
  case_match; by apply step_post_aexit; [|apply Hinv|].
Qed.

Lemma get_result_post self co thrown w :
  loop_inv w -> queued w co -> step_pre self co w -> family_of co = FReader ->
  step_post self (get_result co thrown w).
Proof.
  intros Hinv Hq Hpre Hfam. unfold get_result, step_pre in *.
  destruct co; simpl in Hpre; try done.
  - destruct thrown; [by apply step_post_out|].
    pose proof (keeps_lock_acquire _ Hinv) as K.
    pose proof (lock_acquire_post self w Hpre) as P.
    destruct (lock_acquire w) as [w1 [f|]]; cbn [fst snd] in *.
    + by apply step_post_out.
    + apply get_result_locked_post; [apply (k_inv _ _ _ K)|done].
  - pose proof (keeps_lock_acquire_resume f thrown w Hinv (Hq f eq_refl)) as K.
    pose proof (lock_acquire_resume_post self f (awaited w f thrown) w
                  (inv_lock _ Hinv) (Hq f eq_refl) Hpre) as P.
    destruct (lock_acquire_resume _ _ _) as [w1 [e|]]; cbn [fst snd] in *.
    + apply step_post_out; [done|]. apply P. intros v. apply awaited_value.
    + apply get_result_locked_post; [apply (k_inv _ _ _ K)|].
      apply P. intros v. apply awaited_value.
Qed.

(** Only [_inner] suspends inside the lock. *)
Lemma suspends_out fam r : suspends_in fam r -> fam <> FInner -> crit r = false.
Proof.
  destruct r as [f co|co| | |]; simpl; try done; intros [_ <-] Hne; by destruct co.
Qed.

Lemma step_post_calm self w r :
  full self w -> calm None w r.1 -> crit r.2 = false -> step_post self r.
Proof.
  intros Hf Hc Hr. destruct r as [w1 r]. apply step_post_out; [done|].
  eapply calm_full; [apply calm_weaken; exact Hc|done].
Qed.

Lemma resume_post self t co thrown w :
  loop_inv w -> queued w co -> step_pre self co w -> step_post self (resume t co thrown w).
Proof.
  intros Hinv Hq Hpre.
  pose proof (resume_pc t co thrown w) as Hpc.
  destruct co; cbn [resume]; cbn [resume family_of] in Hpc;
    first [ by apply _inner_post | by apply get_result_post
          | apply (step_post_calm self w); [exact Hpre| |by eapply suspends_out] ];
    first [ apply calm__run | apply calm_sleep | apply calm_work ].
Qed.

Lemma task_step_cases t exc w :
  task_step t exc w = w \/
  exists cbs n co fw mc,
    futures w !! t = Some (Future Pending cbs (KTask n co fw mc)) /\
    exists w1 r, resume t co (step_exc mc exc) (step_start t co w) = (w1, r) /\
      match r with
      | SAwait fa co' =>
          calm None (store_coro t co' (Some fa) (add_done_callback fa (CbWakeup t) w1))
               (task_step t exc w)
      | SYield co' => task_step t exc w = call_soon (HStep t) (store_coro t co' None w1)
      | SReturn _ | SRaise _ => exists st, st <> Pending /\ task_step t exc w = finish t st w1
      | SDiverge => False
      end.
Proof.
  unfold task_step.
  destruct (futures w !! t) as [[[] cbs [| |n co fw mc]]|] eqn:E; try (by left).
  fold (step_exc mc exc). fold (step_start t co w).
  destruct (resume t co (step_exc mc exc) (step_start t co w)) as [w1 r] eqn:Er.
  destruct r as [fa co'|co'|v|e|]; [| | | |by left];
    right; exists cbs, n, co, fw, mc; (split; [done|]); exists w1; eexists; (split; [done|]);
    cbn beta iota.
  - set (w3 := store_coro t co' (Some fa) _).
    destruct (must_cancel w3 t); [|apply calm_refl].
    pose proof (calm_fut_cancel fa w3) as Hc.
    destruct (fut_cancel fa w3) as [w4 b]. cbn [fst] in Hc.
    destruct b; [|done]. eapply calm_trans; [exact Hc|apply calm_set_must_cancel].
  - done.
  - destruct (must_cancel w1 t); [exists Cancelled|exists (Result v)]; by split.
  - destruct (is_cancelled_error e); [exists Cancelled|exists (Exception e)]; by split.
Qed.

Lemma step_start_lookup t co w cbs n fw mc :
  futures w !! t = Some (Future Pending cbs (KTask n co fw mc)) ->
  futures (step_start t co w) !! t = Some (Future Pending cbs (KTask n co None false)).
Proof.
  intros E. unfold step_start, store_coro, set_must_cancel, with_futures. cbn [futures].
  rewrite !list_lookup_alter_eq, E. done.
Qed.

Lemma calm_step_start t co w cbs n fw mc :
  futures w !! t = Some (Future Pending cbs (KTask n co fw mc)) ->
  calm None w (step_start t co w).
Proof.
  intros E. unfold step_start.
  eapply calm_trans; [apply calm_set_must_cancel|].
  eapply calm_store_coro_same.
  unfold set_must_cancel, with_futures. cbn [futures].
  rewrite list_lookup_alter_eq, E. done.
Qed.

Lemma keeps_step_start t co w : loop_inv w -> keeps None w (step_start t co w).
Proof.
  intros Hinv. eapply keeps_then; [by apply keeps_set_must_cancel|]. intros H1.
  by apply keeps_store_coro.
Qed.

Lemma pc_lookup w t cbs n co fw mc :
  futures w !! t = Some (Future Pending cbs (KTask n co fw mc)) -> pc w t = Some co.
Proof. unfold pc. by intros ->. Qed.

Lemma pc_inv w t co :
  pc w t = Some co ->
  exists cbs n fw mc, futures w !! t = Some (Future Pending cbs (KTask n co fw mc)).
Proof.
  unfold pc. destruct (futures w !! t) as [[[] cbs [| |n co' fw mc]]|]; simpl; try done.
  intros [= ->]. by eexists _, _, _, _.
Qed.

Lemma holder_pc w t co : pc w t = Some co -> holder w t = crit_pc co.
Proof. unfold holder. by intros ->. Qed.

(** The task that steps is set aside. *)
Lemma step_pre_intro t co w :
  pc w t = Some co -> full None w -> step_pre (Some t) co w.
Proof.
  intros Hpc [M H]. unfold step_pre. pose proof (holder_pc _ _ _ Hpc) as Hh.
  destruct (crit_pc co).
  - split; [by apply mutex_weaken|]. split; [by apply (mx_locked _ _ M t)|].
    intros t' Hne. destruct (holder w t') eqn:E; [|done].
    destruct Hne. f_equal. by apply (mx_unique _ _ M).
  - split; [by apply mutex_weaken|]. intros Hl. destruct (H Hl) as (t' & _ & Ht').
    exists t'. split; [|done]. intros [= ->]. congruence.
Qed.

Lemma pc_store_coro t co fw w t' :
  pc (store_coro t co fw w) t' =
    if decide (t' = t) then (match pc w t with Some _ => Some co | None => None end)
    else pc w t'.
Proof.
  unfold pc, store_coro, with_futures. cbn [futures]. case_decide as Ht.
  - subst. rewrite list_lookup_alter_eq.
    by destruct (futures w !! t) as [[[] cbs [| |n co' fw' mc]]|].
  - by rewrite list_lookup_alter_ne.
Qed.

(** The task that stepped is back among the others, at [co]. *)
Lemma full_store_coro t co fw w :
  pc w t <> None ->
  (if crit_pc co then owned (Some t) w else full (Some t) w) ->
  full None (store_coro t co fw w).
Proof.
  intros Ht Hpre. set (w' := store_coro t co fw w).
  assert (forall t', holder w' t' = if decide (t' = t) then crit_pc co else holder w t') as Hh.
  { intros t'. unfold holder, w'. rewrite pc_store_coro. case_decide; [|done].
    by destruct (pc w t). }
  assert (lock_of w' = lock_of w) as Hl by done.
  assert (forall f, state_of w' f = state_of w f) as Hs by apply state_of_store_coro.
  assert (forall t', t' <> t -> Some t' <> Some t) as Hne by (intros; congruence).
  destruct (crit_pc co) eqn:Ec.
  - destruct Hpre as (M & Hlk & Hn). split; [split|].
    + intros t' _ _. by rewrite Hl.
    + intros t1 t2 _ _. rewrite !Hh. repeat case_decide; try congruence.
      * rewrite (Hn t2) by auto. done.
      * rewrite (Hn t1) by auto. done.
      * rewrite (Hn t1) by auto. done.
    + intros f v. rewrite Hl, Hs. apply M.
    + intros _. exists t. split; [done|]. rewrite Hh. by rewrite decide_True.
  - destruct Hpre as (M & H). split; [split|].
    + intros t' _. rewrite Hh, Hl. case_decide; [done|]. apply M. auto.
    + intros t1 t2 _ _. rewrite !Hh. repeat case_decide; try done.
      apply M; auto.
    + intros f v. rewrite Hl, Hs. apply M.
    + unfold held. rewrite Hl. intros Hlk. destruct (H Hlk) as (t' & Hn & Ht').
      exists t'. split; [done|]. rewrite Hh. rewrite decide_False; [done|congruence].
Qed.

Lemma full_done t w : full (Some t) w -> holder w t = false -> full None w.
Proof.
  intros [M H] Ht. split; [split|].
  - intros t' _ Ht'. apply (mx_locked _ _ M t'); [|done]. intros [= ->]. congruence.
  - intros t1 t2 _ _ H1 H2. apply (mx_unique _ _ M); try done; intros [= ->]; congruence.
  - apply M.
  - intros Hl. destruct (H Hl) as (t' & _ & Ht'). by exists t'.
Qed.

Lemma pc_finish t st w t' :
  st <> Pending -> pc (finish t st w) t' = if decide (t' = t) then None else pc w t'.
Proof.
  intros Hst. unfold pc.
  destruct (futures w !! t) as [[[] cbs k]|] eqn:E;
    try (unfold finish; rewrite E; case_decide; [subst; by rewrite E|done]).
  rewrite (finish_eq t st cbs k w E). cbn [futures]. case_decide as Ht.
  - subst. rewrite list_lookup_insert_eq by (by eapply lookup_lt_Some). by destruct st.
  - by rewrite list_lookup_insert_ne.
Qed.

Lemma task_step_full t exc w :
  loop_inv w -> acq_inv w -> full None w -> full None (task_step t exc w).
Proof.
  intros Hinv Hacq Hf.
  destruct (task_step_cases t exc w) as [->|(cbs & n & co & fw & mc & E & w1 & r & Er & Hr)];
    [done|].
  pose proof (step_start_lookup _ _ _ _ _ _ _ E) as E0.
  pose proof (calm_step_start _ _ _ _ _ _ _ E) as C0.
  pose proof (keeps_step_start t co w Hinv) as K0.
  set (w0 := step_start t co w) in *.
  assert (queued w0 co) as Hq0.
  { intros f Hpc. apply (k_waiters _ _ _ K0); [|done].
    apply (acq_queued w Hacq t). by exists cbs, n, co, fw, mc. }
  assert (step_pre (Some t) co w0) as Hpre.
  { pose proof (step_pre_intro t co w (pc_lookup _ _ _ _ _ _ _ E) Hf) as H.
    unfold step_pre in *. destruct (crit_pc co).
    - eapply calm_owned; [apply calm_weaken; exact C0|done].
    - eapply calm_full; [apply calm_weaken; exact C0|done]. }
  pose proof (resume_post (Some t) t co (step_exc mc exc) w0 (k_inv _ _ _ K0) Hq0 Hpre) as Hpost.
  pose proof (stable_resume t co (step_exc mc exc) w0 (k_inv _ _ _ K0) Hq0) as Sr.
  pose proof (keeps_resume t co (step_exc mc exc) w0 (k_inv _ _ _ K0) Hq0) as Kr.
  rewrite Er in Hpost, Sr, Kr. cbn [fst snd] in *.
  assert (pc w1 t = Some co) as Hpc1.
  { unfold pc. destruct (st_pc _ _ _ Sr _ _ E0) as (x' & -> & Hx'). simpl.
    by rewrite Hx'. }
  destruct Hpost as [Pout Pin]. cbn [fst snd] in *.
  destruct r as [fa co'|co'|v|e|]; [| | | |done].
  - eapply calm_full; [exact Hr|]. apply full_store_coro.
    + assert (pc (add_done_callback fa (CbWakeup t) w1) t = pc w1 t) as ->; [|congruence].
      unfold pc. pose proof (calm_add_done_callback fa (CbWakeup t) w1) as [S _].
      destruct (pc_inv _ _ _ Hpc1) as (? & ? & ? & ? & Ex).
      destruct (st_pc _ _ _ S _ _ Ex) as (x' & -> & Hx'). rewrite Ex. simpl. by apply Hx'.
    + simpl in Pout, Pin. destruct (crit_pc co').
      * eapply calm_owned; [apply calm_weaken, calm_add_done_callback|by apply Pin].
      * eapply calm_full; [apply calm_weaken, calm_add_done_callback|by apply Pout].
  - rewrite Hr. eapply calm_full; [apply calm_call_soon|].
    apply full_store_coro; [congruence|]. simpl in Pout, Pin.
    destruct (crit_pc co'); [by apply Pin|by apply Pout].
  - destruct Hr as (st & Hst & ->). apply (full_done t).
    + eapply calm_full; [|by apply Pout]. apply calm_finish; [done|by right|].
      intros Hin. destruct (pc_inv _ _ _ Hpc1) as (? & ? & ? & ? & Ex).
      by destruct (not_waiter_kind w1 t _ (inv_lock _ (k_inv _ _ _ Kr)) Ex).
    + unfold holder. rewrite pc_finish by done. by rewrite decide_True.
  - destruct Hr as (st & Hst & ->). apply (full_done t).
    + eapply calm_full; [|by apply Pout]. apply calm_finish; [done|by right|].
      intros Hin. destruct (pc_inv _ _ _ Hpc1) as (? & ? & ? & ? & Ex).
      by destruct (not_waiter_kind w1 t _ (inv_lock _ (k_inv _ _ _ Kr)) Ex).
    + unfold holder. rewrite pc_finish by done. by rewrite decide_True.
Qed.

(** *** The queue of the lock along a step *)

Lemma waiters_lock_release w : _waiters (lock_of (lock_release w).1) = _waiters (lock_of w).
Proof.
  unfold lock_release. destruct (_locked (lock_of w)); [|done]. cbn [fst].
  by rewrite lock_of__wake_up_first.
Qed.

Lemma waiters_aexit r w : _waiters (lock_of (aexit r w).1) = _waiters (lock_of w).
Proof.
  unfold aexit. pose proof (waiters_lock_release w).
  by destruct (lock_release w) as [? [|]].
Qed.

Lemma waiters__inner_assign s t r w :
  _waiters (lock_of (_inner_assign s t r w).1) = _waiters (lock_of w).
Proof. unfold _inner_assign. destruct r; by rewrite waiters_aexit. Qed.

Lemma waiters__inner_locked s c w :
  _waiters (lock_of (_inner_locked s c w).1) = _waiters (lock_of w).
Proof.
  unfold _inner_locked. repeat case_match; rewrite ?waiters__inner_assign, ?waiters_aexit; done.
Qed.

Lemma waiters_get_result_locked w :
  _waiters (lock_of (get_result_locked w).1) = _waiters (lock_of w).
Proof. unfold get_result_locked. case_match; by rewrite waiters_aexit. Qed.

Lemma waiters_lock_acquire_resume f r w :
  _waiters (lock_of (lock_acquire_resume f r w).1) = remove_first f (_waiters (lock_of w)).
Proof.
  unfold lock_acquire_resume. destruct r as [v|e]; cbn [fst]; [done|].
  destruct (is_cancelled_error e); cbn [fst]; [|done].
  destruct (_locked (lock_of w)); [done|].
  by rewrite lock_of__wake_up_first.
Qed.

(** [_inner] from its first line to [async with self._lock]: the work task
    is created and stored in [_task]. *)
Lemma _inner_begin_eq s c w :
  exists w4 t,
    calm None w w4 /\ (loop_inv w -> keeps None w w4) /\
    _task (sched w4) = Some t /\ (t < length (futures w4))%nat /\
    _inner_begin s c w =
      match lock_acquire w4 with
      | (w, None) => _inner_locked s c w
      | (w, Some f) => (w, SAwait f (Inner_acquire c f))
      end.
Proof.
  unfold _inner_begin.
  set (r := co_call _ _ _ _). set (nm := task_name (sched w) c).
  pose proof (calm_create_task nm (Work_begin r) [] (count_call w) eq_refl) as C2.
  pose proof (create_task_fresh nm (Work_begin r) [] (count_call w)) as Hfresh.
  assert (loop_inv w ->
          keeps None (count_call w) (create_task nm (Work_begin r) [] (count_call w)).2) as K2.
  { intros Hinv. apply keeps_create_task; [by apply keeps_count_call|].
    by intros cb ?%elem_of_nil. }
  destruct (create_task nm (Work_begin r) [] (count_call w)) as [t w1].
  cbn [fst snd] in K2, C2, Hfresh.
  eexists _, t. split; [|split; [|split; [|split; [|reflexivity]]]].
  - eapply calm_trans; [apply calm_count_call|].
    eapply calm_trans; [apply C2|].
    eapply calm_trans; [apply (calm_with_sched (set_task t)); [done|intros ? [= <-]; by left]|].
    apply calm_record.
  - intros Hinv. eapply keeps_then; [by apply keeps_count_call|]. intros _.
    eapply keeps_then; [by apply K2|]. intros H2.
    eapply keeps_then; [by apply (keeps_with_sched (set_task t))|]. intros H3.
    by apply (keeps_record (EvSpawn s t nm)).
  - done.
  - done.
Qed.

Lemma queue_post_same w co r :
  _waiters (lock_of r.1) = _waiters (lock_of w) -> acq_pc co = None -> queue_post w co r.
Proof. intros Hq Hco x Hx. left. rewrite <- Hq, Hco. done. Qed.

Lemma queue_post_acquire w0 w co (k : world -> world * step_result) (pc' : fid -> coro) :
  acq_pc co = None -> (forall f, acq_pc (pc' f) = Some f) ->
  _waiters (lock_of w) = _waiters (lock_of w0) ->
  (length (futures w0) <= length (futures w))%nat ->
  (forall w, _waiters (lock_of (k w).1) = _waiters (lock_of w)) ->
  queue_post w0 co
    (match lock_acquire w with
     | (w, None) => k w
     | (w, Some f) => (w, SAwait f (pc' f))
     end).
Proof.
  intros Hco Hpc' Hq Hlen Hk. unfold lock_acquire.
  destruct (negb _ && _); cbn [create_future new_future fst snd].
  - apply queue_post_same; [|done]. by rewrite Hk.
  - intros x. simpl. intros [Hx| ->%list_elem_of_singleton]%elem_of_app.
    + left. by rewrite Hco, <- Hq.
    + right. by eexists _, _.
Qed.

Lemma queue_post_resume w f (r : pyobj + exn) co (k : world -> world * step_result) :
  lock_inv w -> acq_pc co = Some f ->
  (forall w, _waiters (lock_of (k w).1) = _waiters (lock_of w)) ->
  queue_post w co
    (match lock_acquire_resume f r w with
     | (w, Some e) => (w, SRaise e)
     | (w, None) => k w
     end).
Proof.
  intros Hinv Hco Hk x Hx. left.
  assert (x ∈ remove_first f (_waiters (lock_of w))) as Hin.
  { rewrite <- (waiters_lock_acquire_resume f r w).
    destruct (lock_acquire_resume f r w) as [w1 [e|]]; cbn [fst snd] in *; [done|].
    by rewrite Hk in Hx. }
  split; [by eapply remove_first_elem|]. rewrite Hco. intros [= ->].
  by apply (remove_first_not_in x _ (lock_inv_waiters_nodup w Hinv)).
Qed.

Lemma calm_lock w w' : calm None w w' -> lock_of w' = lock_of w.
Proof. by intros [_ [? _]]. Qed.

Lemma calm_resume_other t co thrown w :
  family_of co <> FInner -> family_of co <> FReader -> calm None w (resume t co thrown w).1.
Proof.
  intros H1 H2. destruct co; try done; cbn [resume];
    first [ apply calm__run | apply calm_sleep | apply calm_work ].
Qed.

Lemma resume_queue_post t co thrown w :
  lock_inv w -> queue_post w co (resume t co thrown w).
Proof.
  intros Hinv.
  destruct (decide (family_of co = FInner)) as [Hi|Hi];
    [|destruct (decide (family_of co = FReader)) as [Hr|Hr]].
  - destruct co; try done; cbn [resume _inner].
    + destruct thrown; [by apply queue_post_same|].
      destruct (_inner_begin_eq t counter w) as (w4 & tw & C4 & _ & _ & _ & ->).
      apply (queue_post_acquire w w4 (Inner_begin counter) (_inner_locked t counter)
               (Inner_acquire counter)); try done.
      * by rewrite (calm_lock _ _ C4).
      * apply (stable_length _ _ _ (proj1 C4)).
      * intros; apply waiters__inner_locked.
    + apply (queue_post_resume w f (awaited w f thrown) (Inner_acquire counter f)
               (_inner_locked t counter)); [done|done|].
      intros; apply waiters__inner_locked.
    + apply queue_post_same; [apply waiters__inner_assign|done].
  - destruct co; try done; cbn [resume get_result].
    + destruct thrown; [by apply queue_post_same|].
      apply (queue_post_acquire w w Reader_begin get_result_locked Reader_acquire); try done.
      intros; apply waiters_get_result_locked.
    + apply (queue_post_resume w f (awaited w f thrown) (Reader_acquire f)
               get_result_locked); [done|done|].
      intros; apply waiters_get_result_locked.
  - apply queue_post_same.
    + by rewrite (calm_lock _ _ (calm_resume_other t co thrown w Hi Hr)).
    + by destruct co.
Qed.

Lemma task_ok_stable self w w' : stable self w w' -> task_ok w -> task_ok w'.
Proof.
  intros S H t Ht. destruct (st_task _ _ _ S _ Ht) as [?|Ht0]; [done|].
  pose proof (stable_length _ _ _ S). specialize (H t Ht0). lia.
Qed.

Lemma wakes_stable self w w' B t f :
  stable self w w' -> wakes w (B ++ _ready w) t f -> wakes w' (B ++ _ready w') t f.
Proof.
  intros S (x & Hx & [[Hp Hc]|[Hd Hr]]).
  - destruct (st_wake _ _ _ S _ _ _ Hx Hp Hc) as (x' & Hx' & [?|[Hd' Hr']]);
      exists x'; (split; [done|]); [by left|right].
    split; [done|]. apply elem_of_app. by right.
  - destruct (st_done _ _ _ S _ _ Hx Hd) as (x' & Hx' & Hs). exists x'. split; [done|].
    right. split; [congruence|]. destruct (st_ready _ _ _ S) as [l ->].
    apply elem_of_app in Hr as [?|?]; apply elem_of_app; [by left|right].
    apply elem_of_app. by left.
Qed.

Lemma wakes_add_done_callback t fa w :
  (fa < length (futures w))%nat ->
  let w' := add_done_callback fa (CbWakeup t) w in wakes w' (_ready w') t fa.
Proof.
  intros Hlt. apply lookup_lt_is_Some in Hlt as [x Hx]. unfold add_done_callback. rewrite Hx.
  destruct x as [[] cbs k]; cbn zeta.
  - eexists. split; [apply list_lookup_insert_eq; by eapply lookup_lt_Some|].
    left. split; [done|]. simpl. apply elem_of_app. right. by left.
  - eexists. split; [exact Hx|]. right. split; [done|]. simpl. apply elem_of_app. right. by left.
  - eexists. split; [exact Hx|]. right. split; [done|]. simpl. apply elem_of_app. right. by left.
  - eexists. split; [exact Hx|]. right. split; [done|]. simpl. apply elem_of_app. right. by left.
Qed.

Lemma awaits_ok_aexit r w :
  match r with SAwait _ _ | SYield _ => False | _ => True end -> awaits_ok (aexit r w).
Proof.
  intros H. unfold aexit, awaits_ok. destruct (lock_release w) as [w1 [e|]]; by destruct r.
Qed.

Lemma _inner_locked_awaits s c w : task_ok w -> awaits_ok (_inner_locked s c w).
Proof.
  intros Hok. unfold _inner_locked.
  destruct (_task (sched w)) as [t|] eqn:Et; [|by apply awaits_ok_aexit].
  destruct (done w t).
  - unfold _inner_assign. case_match; by apply awaits_ok_aexit.
  - unfold awaits_ok. simpl. intros f [= <-]. split; [done|]. by apply Hok.
Qed.

Lemma get_result_locked_awaits w : awaits_ok (get_result_locked w).
Proof. unfold get_result_locked. case_match; by apply awaits_ok_aexit. Qed.

Lemma lock_acquire_fresh w w' f :
  lock_acquire w = (w', Some f) -> (f < length (futures w'))%nat.
Proof.
  unfold lock_acquire. case_match; intros; simplify_eq/=. rewrite length_app. simpl. lia.
Qed.

Lemma waits_on_family co f :
  waits_on co = Some f -> family_of co = FInner \/ family_of co = FReader.
Proof. destruct co; simpl; intros; simplify_eq; auto. Qed.

Lemma resume_awaits t co thrown w :
  lock_inv w -> task_ok w -> awaits_ok (resume t co thrown w).
Proof.
  intros Hinv Hok.
  destruct (decide (family_of co = FInner)) as [Hi|Hi];
    [|destruct (decide (family_of co = FReader)) as [Hr|Hr]].
  - destruct co; try done; cbn [resume _inner].
    + destruct thrown; [done|].
      destruct (_inner_begin_eq t counter w) as (w4 & tw & C4 & _ & Ht4 & Hlt4 & ->).
      destruct (lock_acquire w4) as [w5 [f|]] eqn:Ea.
      * unfold awaits_ok. simpl. intros f' [= <-]. split; [done|].
        by eapply lock_acquire_fresh.
      * apply _inner_locked_awaits.
        eapply (task_ok_stable None w4); [|intros t'; rewrite Ht4; by intros [= <-]].
        pose proof (stable_lock_acquire w4) as S. by rewrite Ea in S.
    + pose proof (stable_lock_acquire_resume f (awaited w f thrown) w Hinv) as S.
      destruct (lock_acquire_resume _ _ _) as [w1 [e|]]; cbn [fst] in S; [done|].
      apply _inner_locked_awaits. by eapply task_ok_stable.
    + unfold _inner_assign. case_match; by apply awaits_ok_aexit.
  - destruct co; try done; cbn [resume get_result].
    + destruct thrown; [done|].
      destruct (lock_acquire w) as [w5 [f|]] eqn:Ea; [|apply get_result_locked_awaits].
      unfold awaits_ok. simpl. intros f' [= <-]. split; [done|].
      by eapply lock_acquire_fresh.
    + destruct (lock_acquire_resume _ _ _) as [w1 [e|]]; [done|].
      apply get_result_locked_awaits.
  - pose proof (resume_pc t co thrown w) as Hpc. unfold awaits_ok.
    destruct (resume t co thrown w) as [w1 [fa co'|co'| | |]]; simpl in *; try done.
    + intros f Hf. destruct Hpc as [_ Hfam].
      destruct (waits_on_family _ _ Hf); congruence.
    + destruct Hpc as [_ Hfam]. destruct (waits_on co') as [f|] eqn:Hf; [|done].
      destruct (waits_on_family _ _ Hf); congruence.
Qed.

(** Only the loop of [_run] can fail to come back. *)
Lemma resume_diverges t co thrown w :
  (resume t co thrown w).2 = SDiverge -> family_of co = FRun.
Proof.
  destruct co; try done; cbn [resume];
    unfold _inner, _inner_begin, _inner_locked, _inner_assign, get_result, get_result_locked,
           aexit, sleep, work, work_finish;
    repeat case_match; simpl; intros; simplify_eq/=.
Qed.

Lemma stable_store_coro_self t co fw w : stable (Some t) w (store_coro t co fw w).
Proof.
  apply stable_intro; try done.
  - intros i x Hx. unfold store_coro, with_futures. cbn [futures _ready].
    destruct (decide (t = i)) as [->|Hne].
    + rewrite list_lookup_alter_eq, Hx. simpl. eexists. split; [done|].
      split; [done|]. split; [by destruct (f_kind x)|].
      intros t' Hp Hc. left. by destruct (f_kind x).
    + rewrite list_lookup_alter_ne by done. exists x. split; [done|]. apply same_future_ok.
  - intros i x' Hs Hn Hx'. unfold store_coro, with_futures in Hx'. cbn [futures] in Hx'.
    destruct (decide (t = i)) as [->|Hne].
    + rewrite list_lookup_alter_eq, Hn in Hx'. done.
    + rewrite list_lookup_alter_ne in Hx' by done. congruence.
  - ready_same.
  - by left.
  - same_task.
Qed.

Lemma pc_stable_self w w' t co :
  stable None w w' -> pc w t = Some co -> pc w' t = Some co.
Proof.
  intros S Hpc. destruct (pc_inv _ _ _ Hpc) as (? & ? & ? & ? & Ex).
  unfold pc. destruct (st_pc _ _ _ S _ _ Ex) as (x' & -> & Hx'). simpl. by rewrite Hx'.
Qed.

Lemma pc_lt w t co : pc w t = Some co -> (t < length (futures w))%nat.
Proof. intros Hpc. destruct (pc_inv _ _ _ Hpc) as (? & ? & ? & ? & Ex). by eapply lookup_lt_Some. Qed.

Lemma task_step_spec t exc w :
  loop_inv w -> acq_inv w ->
  (task_step t exc w = w /\ forall co, pc w t = Some co -> family_of co = FRun) \/
  exists co w0 w1 r, stepped t exc w co w0 w1 (task_step t exc w) r.
Proof.
  intros Hinv Hacq. pose proof (eq_refl (task_step t exc w)) as Hdef.
  unfold task_step at 2 in Hdef.
  destruct (futures w !! t) as [[[] cbs [| |n co fw mc]]|] eqn:E;
    try (left; split; [done|]; unfold pc; rewrite E; done).
  fold (step_exc mc exc) in Hdef. fold (step_start t co w) in Hdef.
  pose proof (step_start_lookup _ _ _ _ _ _ _ E) as E0.
  pose proof (calm_step_start _ _ _ _ _ _ _ E) as C0.
  pose proof (keeps_step_start t co w Hinv) as K0.
  set (w0 := step_start t co w) in *.
  assert (queued w0 co) as Hq0.
  { intros f Hpc. apply (k_waiters _ _ _ K0); [|done].
    apply (acq_queued w Hacq t). by exists cbs, n, co, fw, mc. }
  pose proof (stable_resume t co (step_exc mc exc) w0 (k_inv _ _ _ K0) Hq0) as Sr.
  pose proof (keeps_resume t co (step_exc mc exc) w0 (k_inv _ _ _ K0) Hq0) as Kr.
  pose proof (resume_diverges t co (step_exc mc exc) w0) as Hdiv.
  destruct (resume t co (step_exc mc exc) w0) as [w1 r] eqn:Er. cbn [fst snd] in *.
  assert (pc w t = Some co) as Hpc by (by eapply pc_lookup).
  assert (pc w1 t = Some co) as Hpc1.
  { eapply pc_stable_self; [exact Sr|]. by eapply pc_lookup. }
  assert (forall w2 co', pc w2 t <> None -> pc (store_coro t co' None w2) t = Some co') as Hst.
  { intros w2 co' H2. rewrite pc_store_coro, decide_True by done. by destruct (pc w2 t). }
  assert (forall w', stable (Some t) w1 w' -> lock_of w' = lock_of w1 ->
            pc w' t = match r with SAwait _ co' | SYield co' => Some co' | _ => None end ->
            (forall fa co', r = SAwait fa co' -> (fa < length (futures w1))%nat ->
               wakes w' (_ready w') t fa) ->
            match r with
            | SReturn _ | SRaise _ => exists st, st <> Pending /\ w' = finish t st w1
            | _ => True
            end ->
            pstate w' = pstate w1 ->
            match r with
            | SReturn v =>
                w' = finish t (if must_cancel w1 t then Cancelled else Result v) w1
            | SRaise e =>
                w' = finish t (if is_cancelled_error e then Cancelled else Exception e) w1
            | _ => True
            end ->
            stepped t exc w co w0 w1 w' r) as Hmk.
  { intros w' H1 H2 H3 H4 H5 H6 H7. split; try done; [apply K0|by eexists|apply Kr|].
    unfold must_cancel. by rewrite E. }
  assert (forall st, st <> Pending ->
            match r with
            | SReturn v => st = if must_cancel w1 t then Cancelled else Result v
            | SRaise e => st = if is_cancelled_error e then Cancelled else Exception e
            | _ => False
            end ->
            stepped t exc w co w0 w1 (finish t st w1) r) as Hfin.
  { intros st Hne Hr. apply Hmk.
    - apply stable_finish; [done|by right].
    - apply lock_of_pstate, pstate_finish.
    - rewrite pc_finish, decide_True by done. by destruct r.
    - intros fa co' ->. done.
    - destruct r; try done; by exists st.
    - apply pstate_finish.
    - destruct r; try done; by subst st. }
  destruct r as [fa co'|co'|v|e|].
  - right. exists co, w0, w1, (SAwait fa co').
    set (w2 := add_done_callback fa (CbWakeup t) w1) in *.
    set (w3 := store_coro t co' (Some fa) w2) in *.
    assert (calm None w3 (task_step t exc w)) as C4.
    { rewrite Hdef. destruct (must_cancel w3 t); [|apply calm_refl].
      pose proof (calm_fut_cancel fa w3) as Hc.
      destruct (fut_cancel fa w3) as [w4 b]. cbn [fst] in Hc.
      destruct b; [|done]. eapply calm_trans; [exact Hc|apply calm_set_must_cancel]. }
    assert (calm None w1 w2) as C2 by apply calm_add_done_callback.
    assert (pc w2 t = Some co) as Hpc2 by (eapply pc_stable_self; [apply C2|done]).
    assert (pc w3 t = Some co') as Hpc3.
    { unfold w3. rewrite pc_store_coro, decide_True by done. by rewrite Hpc2. }
    apply Hmk.
    + eapply stable_trans; [apply stable_weaken, C2|].
      eapply stable_trans; [apply stable_store_coro_self|apply stable_weaken, C4].
    + rewrite (calm_lock _ _ C4). unfold w3. cbn. apply (calm_lock _ _ C2).
    + eapply pc_stable_self; [apply C4|done].
    + intros fa' co'' [= <- <-] Hlt.
      apply (wakes_stable None w3 _ []); [apply C4|].
      apply (wakes_stable (Some t) w2 _ []); [apply stable_store_coro_self|].
      by apply wakes_add_done_callback.
    + done.
    + rewrite Hdef. fold w2. fold w3. destruct (must_cancel w3 t).
      * pose proof (pstate_fut_cancel fa w3) as Hp.
        destruct (fut_cancel fa w3) as [w4 b]. cbn [fst] in Hp.
        destruct b; [rewrite pstate_set_must_cancel|]; rewrite Hp; unfold w3, w2;
          by rewrite pstate_store_coro, pstate_add_done_callback.
      * unfold w3, w2. by rewrite pstate_store_coro, pstate_add_done_callback.
    + done.
  - right. exists co, w0, w1, (SYield co'). rewrite Hdef.
    assert (pc (store_coro t co' None w1) t = Some co') as Hpc3.
    { apply Hst. congruence. }
    apply Hmk; try done.
    eapply stable_trans; [apply stable_store_coro_self|apply stable_weaken, calm_call_soon].
  - right. exists co, w0, w1, (SReturn v). rewrite Hdef.
    unfold set_fut_result. destruct (must_cancel w1 t) eqn:Emc; apply Hfin; try done;
      by rewrite Emc.
  - right. exists co, w0, w1, (SRaise e). rewrite Hdef.
    unfold set_fut_exception. destruct (is_cancelled_error e) eqn:Ece; apply Hfin; try done;
      by rewrite Ece.
  - left. split; [done|]. intros co0. rewrite Hpc. intros [= <-]. by apply Hdiv.
Qed.

(** *** The invariant of the running loop *)

Lemma acq_pc_iff w t f : acq w t f <-> exists co, pc w t = Some co /\ acq_pc co = Some f.
Proof.
  split.
  - intros (cbs & n & co & fw & mc & Ht & Hpc). exists co. split; [|done]. by eapply pc_lookup.
  - intros (co & Hpc & Hf). destruct (pc_inv _ _ _ Hpc) as (cbs & n & fw & mc & Ht).
    by exists cbs, n, co, fw, mc.
Qed.

Lemma acq_pc_waits_on co f : acq_pc co = Some f -> waits_on co = Some f.
Proof. by destruct co. Qed.

Lemma wakes_mono w (R R' : list handle) t f :
  (HCallback (CbWakeup t) f ∈ R -> HCallback (CbWakeup t) f ∈ R') ->
  wakes w R t f -> wakes w R' t f.
Proof.
  intros H (x & Hx & [?|[Hd Hr]]); exists x; (split; [done|]); [by left|right]. auto.
Qed.

(** A task that waits on the lock, or inside it, was there before the step
    of another. *)
Lemma stable_pc_back self w w' t co f :
  stable self w w' -> Some t <> self -> pc w' t = Some co -> waits_on co = Some f ->
  pc w t = Some co.
Proof.
  intros S Hne Hpc Hf. destruct (futures w !! t) as [x|] eqn:Ex.
  - rewrite <- Hpc. symmetry. apply (stable_pc _ _ _ _ S Hne). by eapply lookup_lt_Some.
  - destruct (pc_inv _ _ _ Hpc) as (? & ? & ? & ? & Ex').
    pose proof (st_new _ _ _ S _ _ Hne Ex Ex') as Hb. simpl in Hb. by destruct co.
Qed.

Lemma stable_acq self w w' t f :
  stable self w w' -> Some t <> self -> acq w t f -> acq w' t f.
Proof.
  intros S Hne (co & Hpc & Hf)%acq_pc_iff. apply acq_pc_iff. exists co. split; [|done].
  rewrite (stable_pc _ _ _ _ S Hne); [done|]. by eapply pc_lt.
Qed.

(** A step that moves no task and leaves the lock alone. *)
Lemma sound_calm B0 B d w w' :
  sound B0 w -> calm None w w' -> keeps d w w' -> acq_inv w' ->
  (forall t f, HCallback (CbWakeup t) f ∈ B0 -> HCallback (CbWakeup t) f ∈ B) ->
  (forall h, h ∈ B -> handle_ok w h) ->
  sound B w'.
Proof.
  intros [Hl Ha Hf Ht Ho Hw Hh] C K A HB Hok. split.
  - apply K.
  - done.
  - by eapply calm_full.
  - eapply task_ok_stable; [apply C|done].
  - intros f. rewrite (calm_lock _ _ C). intros Hin. destruct (Ho f Hin) as [t Hacq].
    exists t. eapply stable_acq; [apply C|done|done].
  - intros t co f Hpc Hwo.
    assert (pc w t = Some co) as Hpc0 by (eapply stable_pc_back; [apply C|done|done|done]).
    eapply wakes_mono; [|eapply wakes_stable; [apply C|exact (Hw t co f Hpc0 Hwo)]].
    intros [Hin|Hin]%elem_of_app; apply elem_of_app; [left; by apply HB|by right].
  - intros h Hin x Hx. apply (k_foreign _ _ _ K). by apply (Hok h).
Qed.

(** The step of a task. *)
Lemma sound_task_step B0 B t exc w :
  sound B0 w ->
  (forall t' f, t' <> t -> HCallback (CbWakeup t') f ∈ B0 -> HCallback (CbWakeup t') f ∈ B) ->
  (forall h, h ∈ B -> handle_ok w h) ->
  sound B (task_step t exc w).
Proof.
  intros [Hl Ha Hf Ht Ho Hw Hh] HB Hok.
  destruct (task_step_keeps t exc w Hl Ha) as [[d K] A].
  pose proof (task_step_full t exc w Hl Ha Hf) as F.
  destruct (task_step_spec t exc w Hl Ha) as [[E Hrun]|(co & w0 & w1 & r & Hsp)].
  { rewrite E in *. split; try done. intros t' co' f Hpc Hwo.
    eapply wakes_mono; [|exact (Hw t' co' f Hpc Hwo)].
    intros [Hin|Hin]%elem_of_app; apply elem_of_app; [left|by right].
    apply HB; [|done]. intros ->. specialize (Hrun _ Hpc).
    destruct (waits_on_family _ _ Hwo); congruence. }
  set (w' := task_step t exc w) in *.
  destruct Hsp as [Hpc C0 I0 Hq0 [thrown Er] Sr I1 Hpc1 Se Hlk Hpc' Hwk Hfin _ _ _ _].
  assert (stable (Some t) w w') as S.
  { eapply stable_trans; [apply stable_weaken, C0|].
    eapply stable_trans; [apply stable_weaken, Sr|exact Se]. }
  assert (task_ok w0) as Ht0 by (eapply task_ok_stable; [apply C0|done]).
  pose proof (resume_awaits t co thrown w0 (inv_lock _ I0) Ht0) as Haw.
  pose proof (resume_queue_post t co thrown w0 (inv_lock _ I0)) as Hqp.
  rewrite Er in Haw, Hqp. unfold awaits_ok, queue_post in Haw, Hqp. cbn [fst snd] in *.
  split.
  - apply K.
  - done.
  - done.
  - by eapply task_ok_stable.
  - intros x. rewrite Hlk. intros Hx.
    destruct (Hqp x Hx) as [[Hin Hne]|(fa & co' & -> & Hco' & _)].
    + rewrite (calm_lock _ _ C0) in Hin. destruct (Ho x Hin) as [t2 Hacq].
      exists t2. eapply stable_acq; [exact S| |done]. intros [= ->].
      apply acq_pc_iff in Hacq as (co2 & Hpc2 & Hf2). congruence.
    + exists t. apply acq_pc_iff. by exists co'.
  - intros t2 co2 f Hpc2 Hwo. destruct (decide (t2 = t)) as [->|Hne].
    + rewrite Hpc' in Hpc2. destruct r as [fa co'|co'| | |]; simplify_eq/=.
      destruct (Haw f Hwo) as [-> Hlt].
      eapply wakes_mono; [|by eapply Hwk]. intros Hin. apply elem_of_app. by right.
    + assert (pc w t2 = Some co2) as Hpc0.
      { eapply stable_pc_back; [exact S| |done|done]. congruence. }
      eapply wakes_mono; [|eapply wakes_stable; [exact S|exact (Hw t2 co2 f Hpc0 Hwo)]].
      intros [Hin|Hin]%elem_of_app; apply elem_of_app; [left; by apply HB|by right].
  - intros h Hin x Hx. apply (k_foreign _ _ _ K). by apply (Hok h).
Qed.

(** The other callbacks are calm. *)
Lemma calm_gather_done_callback g c w :
  lock_inv w -> calm None w (gather_done_callback g c w).
Proof.
  intros Hinv. unfold gather_done_callback.
  destruct (futures w !! g) as [[st cbs [|children n cr|]]|] eqn:E; try apply calm_refl.
  set (f' := Future st cbs (KGather children (S n) cr)).
  assert (calm None w (with_futures (<[g := f']>) w)) as C1.
  { eapply calm_insert; [exact E|done|done|done]. }
  set (w1 := with_futures _ w) in *.
  assert (futures w1 !! g = Some f') as E1.
  { unfold w1. simpl. apply list_lookup_insert_eq. by eapply lookup_lt_Some. }
  assert (g ∉ _waiters (lock_of w1)) as Hg.
  { rewrite (calm_lock _ _ C1). by eapply (not_waiter_kind w g). }
  assert (forall st', st' <> Pending -> calm None w (finish g st' w1)) as Hfin.
  { intros st' Hne. eapply calm_trans; [exact C1|]. apply calm_finish; [done| |done].
    intros x Hx. left. rewrite E1 in Hx. simplify_eq. by destruct st. }
  destruct st; try done.
  unfold set_fut_exception, set_fut_result. repeat case_match; try done; by apply Hfin.
Qed.

Lemma calm_finish_foreign x st w :
  lock_inv w -> foreign w x -> st <> Pending -> calm None w (finish x st w).
Proof.
  intros Hinv Hx Hst. apply calm_finish; [done| |].
  - intros y Hy. left. eapply task_pc_plain; [apply Hx|done].
  - intros Hin. by destruct (not_waiter_foreign w x Hinv Hx).
Qed.

Lemma calm_release_waiter x w :
  lock_inv w -> foreign w x -> calm None w (release_waiter x w).
Proof.
  intros Hinv Hx. unfold release_waiter. destruct (done w x); [apply calm_refl|].
  by apply calm_finish_foreign.
Qed.

Lemma calm_set_result_unless_cancelled f w :
  lock_inv w -> foreign w f -> calm None w (set_result_unless_cancelled f w).
Proof.
  intros Hinv Hx. unfold set_result_unless_cancelled.
  destruct (cancelled w f); [apply calm_refl|]. by apply calm_finish_foreign.
Qed.

(** One handle of the loop. *)
Lemma sound_run_handle h B w : sound (h :: B) w -> sound B (run_handle h w).
Proof.
  intros Hs. pose proof (sd_loop _ _ Hs) as Hinv. pose proof (sd_acq _ _ Hs) as Hacq.
  assert (handle_ok w h) as Hh by (apply (sd_handles _ _ Hs); by left).
  assert (forall h', h' ∈ B -> handle_ok w h') as HB.
  { intros h' Hin. apply (sd_handles _ _ Hs). by right. }
  destruct (run_handle_keeps h w Hinv Hacq Hh) as [[d K] A].
  assert (forall t, stepper w h = Some t ->
            forall t' f, t' <> t -> HCallback (CbWakeup t') f ∈ h :: B ->
              HCallback (CbWakeup t') f ∈ B) as Hstep.
  { intros t Ht t' f Hne [E|Hin]%elem_of_cons; [|done]. rewrite <- E in Ht. simpl in Ht.
    congruence. }
  assert (calm None w (run_handle h w) -> stepper w h = None -> sound B (run_handle h w))
    as Hcalm.
  { intros C Hn. eapply (sound_calm (h :: B)); try done.
    intros t f [E|Hin]%elem_of_cons; [|done]. rewrite <- E in Hn. done. }
  destruct h as [t|[t|g|x] f|x|f| | |dl|dl|]; cbn [run_handle] in *.
  - eapply sound_task_step; [exact Hs| |done]. by apply Hstep.
  - unfold task_wakeup. case_match; (eapply sound_task_step; [exact Hs| |done]);
      by apply Hstep.
  - apply Hcalm; [|done]. apply calm_gather_done_callback, Hinv.
  - apply Hcalm; [|done]. apply calm_release_waiter; [apply Hinv|by apply Hh].
  - apply Hcalm; [|done]. apply calm_release_waiter; [apply Hinv|by apply Hh].
  - apply Hcalm; [|done]. apply calm_set_result_unless_cancelled; [apply Hinv|by apply Hh].
  - apply Hcalm; [|done]. apply calm__start.
  - apply Hcalm; [|done]. apply calm_unhandled, calm__stop.
  - apply Hcalm; [|done]. apply calm_unhandled, calm_start.
  - apply Hcalm; [|done]. apply calm_unhandled, calm_stop.
  - unfold call_get_result in *.
    destruct (keeps_new_future (KTask "caller" Reader_begin None false) [] w Hinv) as [K1 _].
    { by intros cb ?%elem_of_nil. }
    assert (reach None w (new_future (KTask "caller" Reader_begin None false) [] w).2) as R1.
    { apply reach_new_future; [done|apply rtc_refl]. }
    pose proof (calm_new_future (KTask "caller" Reader_begin None false) [] w) as C1.
    destruct (new_future _ _ w) as [r w1] eqn:En. cbn [snd] in *.
    assert (r = length (futures w)) as -> by (unfold new_future in En; by simplify_eq).
    pose proof (acq_inv_quiet w w1 R1 K1 Hacq) as A1.
    eapply (sound_task_step (HCallGetResult :: B)).
    + eapply (sound_calm (HCallGetResult :: B)); try done.
      * apply C1. by intros ? ? ? ? [= <- <- <- <-].
      * apply (sd_handles _ _ Hs).
    + intros t' f' Hne [?|Hin]%elem_of_cons; [done|done].
    + intros h' Hin x Hx. apply (k_foreign _ _ _ K1). by apply (HB h').
Qed.

Lemma sound_run_handles hs : forall w,
  sound hs w -> sound [] (foldl (fun w h => run_handle h w) w hs).
Proof.
  induction hs as [|h hs IH]; intros w Hs; simpl; [done|].
  apply IH. by apply sound_run_handle.
Qed.

Lemma run_once_eq w :
  run_once w = foldl (fun w h => run_handle h w) (batch_world w) (batch w).
Proof. done. Qed.

Lemma full_same self w w' :
  futures w' = futures w -> lock_of w' = lock_of w -> full self w -> full self w'.
Proof.
  intros Hfu Hl [[M1 M2 M3] H].
  assert (forall t, holder w' t = holder w t) as Hh.
  { intros t. unfold holder, pc. by rewrite Hfu. }
  assert (forall f, state_of w' f = state_of w f) as Hs.
  { intros f. unfold state_of. by rewrite Hfu. }
  split; [split|].
  - intros t Hne. rewrite Hh, Hl. by apply M1.
  - intros t1 t2 H1 H2. rewrite !Hh. by apply M2.
  - intros f v. rewrite Hl, Hs. apply M3.
  - unfold held. rewrite Hl. intros Hlk. destruct (H Hlk) as (t & Hne & Ht).
    exists t. by rewrite Hh.
Qed.

Lemma sound_batch w : sound [] w -> sound (batch w) (batch_world w).
Proof.
  intros [Hl Ha Hf Ht Ho Hw Hh].
  assert (forall t, pc (batch_world w) t = pc w t) as Hpc by done.
  split.
  - split.
    + apply (lock_inv_update w); try done. apply Hl.
      intros f v Hin Hs. by left.
    + simpl. by intros h ?%elem_of_nil.
    + cbn [_scheduled batch_world]. intros th [_ Hin]%list_elem_of_filter.
      by apply (inv_scheduled w Hl).
    + cbn [futures batch_world]. intros i f cb Hi Hcb.
      by apply (inv_callbacks w Hl i f cb).
  - by destruct Ha.
  - by apply (full_same None w).
  - done.
  - done.
  - intros t co f Hp Hwo. rewrite Hpc in Hp.
    eapply wakes_mono; [|exact (Hw t co f Hp Hwo)].
    simpl. rewrite app_nil_r. intros Hin. apply elem_of_app. by left.
  - intros h [Hin|Hin]%elem_of_app; [by apply (inv_ready w Hl)|].
    apply list_elem_of_fmap in Hin as (th & -> & [_ Hin]%list_elem_of_filter).
    by apply (inv_scheduled w Hl).
Qed.

Lemma sound_run_once w : sound [] w -> sound [] (run_once w).
Proof. intros Hs. rewrite run_once_eq. by apply sound_run_handles, sound_batch. Qed.

Lemma sound_boot p script :
  _lock p = MkLock false [] -> _task p = None -> caller_script script ->
  sound [] (boot p script).
Proof.
  intros Hlk Htk Hs. destruct (loop_inv_boot p script) as [Hl Ha]; [by rewrite Hlk|done|].
  assert (forall t, pc (boot p script) t = None) as Hpc.
  { intros t. unfold pc. by destruct t. }
  assert (forall t, holder (boot p script) t = false) as Hh.
  { intros t. unfold holder. by rewrite Hpc. }
  split.
  - done.
  - done.
  - split; [split|].
    + intros t _. by rewrite Hh.
    + intros t1 t2 _ _. by rewrite Hh.
    + intros f v. unfold lock_of. simpl. rewrite Hlk. by intros ?%elem_of_nil.
    + unfold held, lock_of. simpl. by rewrite Hlk.
  - intros t. simpl. by rewrite Htk.
  - intros f. unfold lock_of. simpl. rewrite Hlk. by intros ?%elem_of_nil.
  - intros t co f. by rewrite Hpc.
  - by intros h ?%elem_of_nil.
Qed.

(** The invariant holds all along every run of a caller script. *)
Lemma sound_run p script n :
  _lock p = MkLock false [] -> _task p = None -> caller_script script ->
  sound [] (run n (boot p script)).
Proof.
  intros Hlk Htk Hs. induction n as [|n IH]; simpl; [by apply sound_boot|].
  by apply sound_run_once.
Qed.

(** *** Progress: the holder leaves, the woken waiter enters *)

Lemma done_evolves w w' i : evolves w w' -> done w i = true -> done w' i = true.
Proof.
  intros He. rewrite !done_state_of. destruct (state_of w i) as [st|] eqn:E; [|done].
  intros Hd. assert (st <> Pending) as Hne by (by destruct st).
  rewrite (evolves_state _ _ _ _ He E Hne). by destruct st.
Qed.

Lemma done_finish i st w j : done w j = true -> done (finish i st w) j = true.
Proof.
  rewrite !done_state_of, state_of_finish. case_decide as Hd; [|done]. subst.
  by destruct (state_of w i) as [[]|].
Qed.

Lemma done_finish_self t st w :
  st <> Pending -> pc w t <> None -> done (finish t st w) t = true.
Proof.
  intros Hst Hpc. rewrite done_state_of, state_of_finish, decide_True by done.
  unfold pc, state_of in *. destruct (futures w !! t) as [[[] ? ?]|]; simpl in *; try done.
  by destruct st.
Qed.

(** Leaving [async with self._lock] frees the lock and wakes the head of
    the queue. *)
Lemma aexit_releases r w :
  lock_inv w -> _locked (lock_of w) = true ->
  _locked (lock_of (aexit r w).1) = false /\
  _waiters (lock_of (aexit r w).1) = _waiters (lock_of w) /\
  (forall h q, _waiters (lock_of w) = h :: q -> done (aexit r w).1 h = true) /\
  (aexit r w).2 = r.
Proof.
  intros Hinv Hl. split; [|split; [apply waiters_aexit|split]].
  - unfold aexit, lock_release. rewrite Hl. cbn [fst]. by rewrite lock_of__wake_up_first.
  - intros h q Hq. pose proof (release_wakes_head w h q Hinv Hl Hq) as Hd.
    unfold aexit. by destruct (lock_release w) as [w1 [e|]].
  - unfold aexit, lock_release. by rewrite Hl.
Qed.

Lemma _inner_assign_releases s t r w :
  loop_inv w -> _locked (lock_of w) = true ->
  let r' := _inner_assign s t r w in
  _locked (lock_of r'.1) = false /\
  _waiters (lock_of r'.1) = _waiters (lock_of w) /\
  (forall h q, _waiters (lock_of w) = h :: q -> done r'.1 h = true) /\
  match r'.2 with SReturn _ | SRaise _ => True | _ => False end.
Proof.
  intros Hinv Hl. unfold _inner_assign. destruct r as [v|e]; cbn zeta.
  - pose proof (keeps_with_sched (set_result v) w Hinv eq_refl) as K1.
    pose proof (keeps_record (EvWrite s t v) _ (k_inv _ _ _ K1) eq_refl eq_refl) as K2.
    destruct (aexit_releases (SReturn (Plain VNone)) _ (inv_lock _ (k_inv _ _ _ K2)) Hl)
      as (H1 & H2 & H3 & H4).
    split; [done|]. split; [done|]. split; [done|]. by rewrite H4.
  - destruct (aexit_releases (SRaise e) w (inv_lock _ Hinv) Hl) as (H1 & H2 & H3 & H4).
    split; [done|]. split; [done|]. split; [done|]. by rewrite H4.
Qed.

(** Whatever resumes the task that holds the lock (the result of the work
    task, its failure, a cancellation), the step releases the lock, wakes
    the head of the queue, and ends the task. *)
Lemma holder_step_releases t exc w :
  loop_inv w -> acq_inv w -> full None w -> holder w t = true ->
  let w' := task_step t exc w in
  _locked (lock_of w') = false /\ done w' t = true /\
  _waiters (lock_of w') = _waiters (lock_of w) /\
  (forall h q, _waiters (lock_of w) = h :: q -> done w' h = true).
Proof.
  intros Hinv Hacq Hf Hh.
  assert (_locked (lock_of w) = true) as Hl by (by apply (mx_locked _ _ (proj1 Hf) t)).
  destruct (task_step_spec t exc w Hinv Hacq) as [[E Hrun]|(co & w0 & w1 & r & Hsp)].
  { exfalso. unfold holder in Hh. destruct (pc w t) as [co|] eqn:Hpc; [|done].
    specialize (Hrun co eq_refl). by destruct co. }
  destruct Hsp as [Hpc C0 I0 Hq0 [thrown Er] Sr I1 Hpc1 Se Hlk Hpc' Hwk Hfin _ _ _ _].
  rewrite (holder_pc _ _ _ Hpc) in Hh.
  destruct co; try done. cbn [resume _inner] in Er.
  assert (_locked (lock_of w0) = true) as Hl0 by (by rewrite (calm_lock _ _ C0)).
  pose proof (_inner_assign_releases t t0 (awaited w0 t0 thrown) w0 I0 Hl0) as Hrel.
  rewrite Er in Hrel. cbn zeta in Hrel. cbn [fst snd] in Hrel.
  destruct Hrel as (H1 & H2 & H3 & H4).
  assert (exists st, st <> Pending /\ task_step t exc w = finish t st w1) as (st & Hst & Hw').
  { by destruct r. }
  cbn zeta. rewrite Hlk, H2, (calm_lock _ _ C0). split; [done|].
  split; [|split; [done|]].
  - rewrite Hw'. apply done_finish_self; [done|congruence].
  - intros h q Hq. rewrite Hw'. apply done_finish. apply (H3 h q).
    by rewrite (calm_lock _ _ C0).
Qed.

(** Every handle of the loop is stable but for the task it steps. *)
Lemma stable_task_step t exc w :
  loop_inv w -> acq_inv w -> stable (Some t) w (task_step t exc w).
Proof.
  intros Hinv Hacq.
  destruct (task_step_spec t exc w Hinv Hacq) as [[-> _]|(co & w0 & w1 & r & Hsp)];
    [apply stable_refl|].
  eapply stable_trans; [apply stable_weaken, (sp_start _ _ _ _ _ _ _ _ Hsp)|].
  eapply stable_trans; [apply stable_weaken, (sp_stable _ _ _ _ _ _ _ _ Hsp)|].
  apply (sp_end _ _ _ _ _ _ _ _ Hsp).
Qed.

Lemma stable_run_handle h B w :
  sound (h :: B) w -> stable (stepper w h) w (run_handle h w).
Proof.
  intros Hs. pose proof (sd_loop _ _ Hs) as Hinv. pose proof (sd_acq _ _ Hs) as Hacq.
  assert (handle_ok w h) as Hh by (apply (sd_handles _ _ Hs); by left).
  destruct h as [t|[t|g|x] f|x|f| | |dl|dl|]; cbn [run_handle stepper] in *.
  - by apply stable_task_step.
  - unfold task_wakeup. case_match; by apply stable_task_step.
  - apply calm_gather_done_callback, Hinv.
  - apply calm_release_waiter; [apply Hinv|by apply Hh].
  - apply calm_release_waiter; [apply Hinv|by apply Hh].
  - apply calm_set_result_unless_cancelled; [apply Hinv|by apply Hh].
  - apply calm__start.
  - apply calm_unhandled, calm__stop.
  - apply calm_unhandled, calm_start.
  - apply calm_unhandled, calm_stop.
  - unfold call_get_result.
    destruct (keeps_new_future (KTask "caller" Reader_begin None false) [] w Hinv) as [K1 _].
    { by intros cb ?%elem_of_nil. }
    assert (reach None w (new_future (KTask "caller" Reader_begin None false) [] w).2) as R1.
    { apply reach_new_future; [done|apply rtc_refl]. }
    pose proof (calm_new_future (KTask "caller" Reader_begin None false) [] w) as C1.
    destruct (new_future _ _ w) as [r w1] eqn:En. cbn [snd] in *.
    assert (r = length (futures w)) as -> by (unfold new_future in En; by simplify_eq).
    pose proof (acq_inv_quiet w w1 R1 K1 Hacq) as A1.
    eapply stable_trans; [apply stable_weaken, C1; by intros ? ? ? ? [= <- <- <- <-]|].
    apply stable_task_step; [apply K1|done].
Qed.

(** A handle that steps an existing task is a step of that task. *)
Lemma run_handle_stepper h w t :
  stepper w h = Some t -> (t < length (futures w))%nat ->
  exists exc, run_handle h w = task_step t exc w.
Proof.
  destruct h as [t'|[t'|g|x] f|x|f| | |dl|dl|]; simpl; intros Hs Hlt; simplify_eq.
  - by eexists.
  - unfold task_wakeup. case_match; by eexists.
  - lia.
Qed.

Lemma stepper_wakeup w t f : stepper w (HCallback (CbWakeup t) f) = Some t.
Proof. done. Qed.

(** The holder whose wake-up is in the batch is done when the batch is. *)
Lemma holder_leaves hs : forall w t c tw,
  sound hs w -> pc w t = Some (Inner_await c tw) -> HCallback (CbWakeup t) tw ∈ hs ->
  done (foldl (fun w h => run_handle h w) w hs) t = true.
Proof.
  induction hs as [|h hs IH]; intros w t c tw Hs Hpc Hin; [by apply elem_of_nil in Hin|].
  cbn [foldl]. pose proof (sound_run_handle h hs w Hs) as Hs'.
  destruct (decide (stepper w h = Some t)) as [Hst|Hst].
  - destruct (run_handle_stepper h w t Hst (pc_lt _ _ _ Hpc)) as [exc ->].
    eapply done_evolves; [apply evolves_run_handles|].
    apply (holder_step_releases t exc w); [apply Hs|apply Hs|apply Hs|].
    by rewrite (holder_pc _ _ _ Hpc).
  - apply (IH _ t c tw Hs').
    + rewrite (stable_pc _ _ _ t (stable_run_handle h hs w Hs)); [done|congruence|].
      by eapply pc_lt.
    + apply elem_of_cons in Hin as [E|Hin]; [|done]. rewrite <- E in Hst. done.
Qed.

(** A waiter that has left the queue does not come back. *)
Lemma queue_out_run_handles hs : forall w f,
  sound hs w -> (f < length (futures w))%nat -> f ∉ _waiters (lock_of w) ->
  f ∉ _waiters (lock_of (foldl (fun w h => run_handle h w) w hs)).
Proof.
  induction hs as [|h hs IH]; intros w f Hs Hlt Hout; [done|]. cbn [foldl].
  pose proof (stable_run_handle h hs w Hs) as S.
  apply IH; [by apply sound_run_handle|pose proof (stable_length _ _ _ S); lia|].
  intros Hin. destruct (st_queue _ _ _ S _ Hin) as [?|?]; [done|lia].
Qed.

(** The step of a task that waits for the lock takes its waiter out of the
    queue. *)
Lemma acq_step_dequeues t exc w f :
  loop_inv w -> acq_inv w -> acq w t f -> f ∉ _waiters (lock_of (task_step t exc w)).
Proof.
  intros Hinv Hacq Ha.
  pose proof (lock_inv_waiters_bound w f (inv_lock _ Hinv) (acq_queued w Hacq _ _ Ha)) as Hb.
  apply acq_pc_iff in Ha as (co & Hpc & Hf).
  destruct (task_step_spec t exc w Hinv Hacq) as [[E Hrun]|(co' & w0 & w1 & r & Hsp)].
  { specialize (Hrun co Hpc). destruct (acq_pc_family _ _ Hf); congruence. }
  destruct Hsp as [Hpc0 C0 I0 Hq0 [thrown Er] Sr I1 Hpc1 Se Hlk Hpc' Hwk Hfin _ _ _ _].
  assert (co' = co) as -> by congruence.
  rewrite Hlk. intros Hin.
  pose proof (resume_queue_post t co thrown w0 (inv_lock _ I0)) as Hqp.
  rewrite Er in Hqp. destruct (Hqp f Hin) as [[_ Hne]|(fa & co2 & _ & _ & Hge)]; [done|].
  cbn [fst] in Hge. pose proof (stable_length _ _ _ (proj1 C0)). lia.
Qed.

(** The waiter whose task's wake-up is in the batch is out of the queue when
    the batch is done. *)
Lemma waiter_leaves hs : forall w t f,
  sound hs w -> acq w t f -> HCallback (CbWakeup t) f ∈ hs ->
  f ∉ _waiters (lock_of (foldl (fun w h => run_handle h w) w hs)).
Proof.
  induction hs as [|h hs IH]; intros w t f Hs Ha Hin; [by apply elem_of_nil in Hin|].
  cbn [foldl]. pose proof (sound_run_handle h hs w Hs) as Hs'.
  pose proof (lock_inv_waiters_bound w f (inv_lock _ (sd_loop _ _ Hs))
                (acq_queued w (sd_acq _ _ Hs) _ _ Ha)) as Hb.
  pose proof (stable_run_handle h hs w Hs) as S.
  assert (exists co, pc w t = Some co) as [co Hpc].
  { apply acq_pc_iff in Ha as (co & ? & _). by exists co. }
  destruct (decide (stepper w h = Some t)) as [Hst|Hst].
  - destruct (run_handle_stepper h w t Hst (pc_lt _ _ _ Hpc)) as [exc E].
    apply queue_out_run_handles; [done|pose proof (stable_length _ _ _ S); lia|].
    rewrite E. apply acq_step_dequeues; [apply Hs|apply Hs|done].
  - apply (IH _ t f Hs').
    + eapply stable_acq; [exact S|congruence|done].
    + apply elem_of_cons in Hin as [E|Hin]; [|done]. rewrite <- E in Hst. done.
Qed.

(** One iteration of the loop. *)
Lemma holder_leaves_once w t c tw :
  sound [] w -> pc w t = Some (Inner_await c tw) -> done w tw = true ->
  done (run_once w) t = true.
Proof.
  intros Hs Hpc Hd. rewrite run_once_eq.
  apply (holder_leaves _ _ t c tw); [by apply sound_batch|done|].
  destruct (sd_wakes _ _ Hs t _ tw Hpc eq_refl) as (x & Hx & [[Hp _]|[_ Hin]]).
  - unfold done in Hd. rewrite Hx in Hd. destruct x as [[] ? ?]; simplify_eq/=.
  - apply elem_of_app. by left.
Qed.

Lemma waiter_leaves_once w f :
  sound [] w -> f ∈ _waiters (lock_of w) -> done w f = true ->
  f ∉ _waiters (lock_of (run_once w)).
Proof.
  intros Hs Hq Hd. rewrite run_once_eq.
  destruct (sd_orphan _ _ Hs f Hq) as [t Ha].
  apply (waiter_leaves _ _ t f); [by apply sound_batch|done|].
  pose proof Ha as (co & Hpc & Hf%acq_pc_waits_on)%acq_pc_iff.
  destruct (sd_wakes _ _ Hs t co f Hpc Hf) as (x & Hx & [[Hp _]|[_ Hin]]).
  - unfold done in Hd. rewrite Hx in Hd. destruct x as [[] ? ?]; simplify_eq/=.
  - apply elem_of_app. by left.
Qed.

(** *** The woken waiter is given the lock *)

Lemma must_cancel_kind w w' t : kind_of w' t = kind_of w t -> must_cancel w' t = must_cancel w t.
Proof.
  unfold kind_of, must_cancel.
  destruct (futures w' !! t) as [[? ? k']|], (futures w !! t) as [[? ? k]|];
    simpl; intros; simplify_eq; done.
Qed.

Lemma kind_of_aexit r w j : kind_of (aexit r w).1 j = kind_of w j.
Proof.
  assert (kind_of (lock_release w).1 j = kind_of w j) as H.
  { unfold lock_release. destruct (_locked (lock_of w)); [|done]. cbn [fst].
    destruct (wake_up_first_spec (put_lock (MkLock false (_waiters (lock_of w))) w))
      as (_ & _ & Hk & _). by rewrite Hk. }
  unfold aexit. by destruct (lock_release w) as [w1 [e|]].
Qed.

Lemma trace_aexit r w : trace (aexit r w).1 = trace w.
Proof.
  assert (trace (lock_release w).1 = trace w) as H.
  { unfold lock_release. destruct (_locked (lock_of w)); [|done]. cbn [fst].
    by rewrite (trace_pstate _ _ (pstate__wake_up_first _)). }
  unfold aexit. by destruct (lock_release w) as [w1 [e|]].
Qed.

Lemma inside_aexit c r w :
  match r with SReturn _ | SRaise _ => True | _ => False end ->
  _locked (lock_of w) = true -> inside c w (aexit r w).
Proof.
  intros Hr Hl. split; [by rewrite trace_aexit|]. split; [intros; apply kind_of_aexit|].
  right. unfold aexit, lock_release. rewrite Hl. cbn [fst snd].
  by rewrite lock_of__wake_up_first.
Qed.

Lemma inside__inner_locked s c w :
  _locked (lock_of w) = true -> inside c w (_inner_locked s c w).
Proof.
  intros Hl. unfold _inner_locked.
  destruct (_task (sched w)) as [t|]; [|by apply inside_aexit].
  destruct (done w t).
  - unfold _inner_assign. destruct (result w t) as [v|e]; [|by apply inside_aexit].
    destruct (inside_aexit c (SReturn (Plain VNone))
                (record (EvWrite s t v) (with_sched (set_result v) w)) I Hl) as (H1 & H2 & H3).
    split; [|split; [|done]].
    + rewrite H1. simpl. by rewrite grants_snoc, app_nil_r.
    + intros j. by rewrite H2.
  - split; [done|]. split; [done|]. left. by exists t.
Qed.

Lemma inside_get_result_locked c w :
  _locked (lock_of w) = true -> inside c w (get_result_locked w).
Proof. intros Hl. unfold get_result_locked. case_match; by apply inside_aexit. Qed.

Lemma state_of_step_start t co w j : state_of (step_start t co w) j = state_of w j.
Proof. unfold step_start. by rewrite state_of_store_coro, state_of_set_must_cancel. Qed.

Lemma pstate_step_start t co w : pstate (step_start t co w) = pstate w.
Proof. unfold step_start. by rewrite pstate_store_coro, pstate_set_must_cancel. Qed.

Lemma must_cancel_step_start t co w :
  pc w t = Some co -> must_cancel (step_start t co w) t = false.
Proof.
  intros Hpc. destruct (pc_inv _ _ _ Hpc) as (cbs & n & fw & mc & E).
  unfold must_cancel. by rewrite (step_start_lookup _ _ _ _ _ _ _ E).
Qed.

(** When the loop runs the wake-up of a task whose waiter has been woken,
    and the task has not been cancelled meanwhile, the task is given the
    lock: the grant is recorded, the waiter leaves the queue, and the task
    is now inside the lock or has been through it and released it. *)
Lemma woken_wakeup_grants t f v w co :
  loop_inv w -> acq_inv w -> pc w t = Some co -> acq_pc co = Some f ->
  state_of w f = Some (Result v) -> must_cancel w t = false ->
  let w' := run_handle (HCallback (CbWakeup t) f) w in
  grants (trace w') = grants (trace w) ++ [f] /\
  (f ∉ _waiters (lock_of w')) /\
  (holder w' t = true \/ (done w' t = true /\ _locked (lock_of w') = false)) /\
  (co = Reader_acquire f ->
     state_of w' t = Some (match _result (sched w) with
                           | Some x => Result x
                           | None => Exception (AttributeError "_result")
                           end)).
Proof.
  intros Hinv Hacq Hpc Hco Hf Hmc. cbn [run_handle]. unfold task_wakeup.
  rewrite (state_of_result _ _ _ Hf). cbn [result_of_state].
  assert (acq w t f) as Ha by (apply acq_pc_iff; by exists co).
  pose proof (acq_step_dequeues t None w f Hinv Hacq Ha) as Hout.
  destruct (task_step_spec t None w Hinv Hacq) as [[E Hrun]|(co' & w0 & w1 & r & Hsp)].
  { specialize (Hrun co Hpc). destruct (acq_pc_family _ _ Hco); congruence. }
  set (w' := task_step t None w) in *.
  destruct Hsp as [Hpc0 C0 I0 Hq0 _ Sr I1 Hpc1 Se Hlk Hpc' Hwk Hfin Hex Hw0 Hps Hout'].
  assert (co' = co) as -> by congruence.
  rewrite Hmc in Hex. cbn [step_exc] in Hex.
  assert (awaited w0 f None = inl v) as Haw.
  { simpl. subst w0. rewrite (state_of_result _ _ (Result v)); [done|].
    by rewrite state_of_step_start. }
  assert (trace w0 = trace w) as Htr0 by (subst w0; apply trace_pstate, pstate_step_start).
  assert (_result (sched w0) = _result (sched w)) as Hres0.
  { by subst w0. }
  assert (must_cancel w0 t = false) as Hmc0 by (subst w0; by apply must_cancel_step_start).
  set (wg := (lock_acquire_resume f (inl v) w0).1).
  assert (lock_acquire_resume f (inl v) w0 = (wg, None)) as Eg by done.
  assert (_locked (lock_of wg) = true) as Hlg by done.
  assert (grants (trace wg) = grants (trace w) ++ [f]) as Hgg.
  { unfold wg, lock_acquire_resume. cbn [fst]. simpl. by rewrite grants_snoc, Htr0. }
  assert (forall j, kind_of wg j = kind_of w0 j) as Hkg by done.
  assert (_result (sched wg) = _result (sched w)) as Hresg by (by rewrite <- Hres0).
  assert (forall k : world -> world * step_result,
            (w1, r) = k wg -> inside 0 wg (k wg) \/ (exists c, inside c wg (k wg)) ->
            grants (trace w') = grants (trace w) ++ [f] /\
            must_cancel w1 t = false /\
            (holder w' t = true \/ (done w' t = true /\ _locked (lock_of w') = false)))
    as Hk.
  { intros k Ek Hin.
    assert (exists c, inside c wg (k wg)) as [c (H1 & H2 & H3)].
    { destruct Hin as [?|?]; [by exists 0%nat|done]. }
    rewrite <- Ek in H1, H2, H3. cbn [fst snd] in *.
    split; [|split].
    - rewrite (trace_pstate _ _ Hps), H1. done.
    - rewrite <- Hmc0. apply must_cancel_kind. by rewrite H2, Hkg.
    - rewrite Hlk. destruct H3 as [(tw & -> & Hl)|[Hr Hl]].
      + left. by rewrite (holder_pc _ _ _ Hpc').
      + right. split; [|done].
        assert (exists st, st <> Pending /\ w' = finish t st w1) as (st & Hst & ->).
        { by destruct r. }
        apply done_finish_self; [done|congruence]. }
  destruct co; try done; cbn [acq_pc] in Hco; simplify_eq; cbn [resume _inner get_result] in Hex;
    rewrite Haw, Eg in Hex.
  - destruct (Hk (_inner_locked t counter) (eq_sym Hex)) as (H1 & _ & H3).
    { right. exists counter. by apply inside__inner_locked. }
    split; [done|]. split; [done|]. split; [done|]. done.
  - destruct (Hk get_result_locked (eq_sym Hex)) as (H1 & H2 & H3).
    { left. by apply inside_get_result_locked. }
    split; [done|]. split; [done|]. split; [done|]. intros _.
    pose proof (get_result_locked_outcome wg Hlg) as Hr.
    assert (get_result_locked wg = (w1, r)) as Hex' by exact Hex.
    rewrite Hex' in Hr. cbn [snd] in Hr. rewrite Hresg in Hr.
    assert (state_of w1 t = Some Pending) as Hp1.
    { destruct (pc_inv _ _ _ Hpc1) as (? & ? & ? & ? & E1). unfold state_of. by rewrite E1. }
    destruct (_result (sched w)) as [x|]; subst r; rewrite Hout'.
    + rewrite H2, state_of_finish, decide_True by done. by rewrite Hp1.
    + cbn [is_cancelled_error]. rewrite state_of_finish, decide_True by done. by rewrite Hp1.
Qed.

(** When the task that waits for the lock is cancelled, its waiter leaves
    the queue, and if the lock is free the wake-up goes to the next
    waiter. *)
Lemma _wake_up_first_head w h q :
  lock_inv w -> _waiters (lock_of w) = h :: q -> done (_wake_up_first w) h = true.
Proof.
  intros Hinv Hq. unfold _wake_up_first. rewrite Hq.
  destruct (done w h) eqn:Hd; [done|].
  assert (h < length (futures w))%nat as Hb.
  { apply (lock_inv_waiters_bound w h Hinv). rewrite Hq. by left. }
  apply lookup_lt_is_Some in Hb as [fh Hfh].
  rewrite done_state_of in *. unfold set_fut_result. rewrite state_of_finish.
  rewrite decide_True by done. unfold state_of in *. rewrite Hfh in *.
  by destruct fh as [[] ? ?].
Qed.

Lemma cancelled_wakeup_passes t f w co :
  loop_inv w -> acq_inv w -> pc w t = Some co -> acq_pc co = Some f ->
  must_cancel w t = true \/ cancelled w f = true ->
  let w' := run_handle (HCallback (CbWakeup t) f) w in
  (f ∉ _waiters (lock_of w')) /\ done w' t = true /\
  grants (trace w') = grants (trace w) /\
  _locked (lock_of w') = _locked (lock_of w) /\
  (_locked (lock_of w') = false ->
     forall h q, _waiters (lock_of w') = h :: q -> done w' h = true).
Proof.
  intros Hinv Hacq Hpc Hco Hc. cbn [run_handle].
  assert (acq w t f) as Ha by (apply acq_pc_iff; by exists co).
  assert (exists exc, task_wakeup t f w = task_step t exc w /\
                      step_exc (must_cancel w t) exc = Some CancelledError) as (exc & -> & Hexc).
  { unfold task_wakeup. destruct Hc as [Hmc|Hcf].
    - rewrite Hmc. case_match; by eexists.
    - exists (Some CancelledError). unfold result, cancelled in *.
      destruct (futures w !! f) as [[[] ? ?]|]; try done. split; [done|].
      by destruct (must_cancel w t). }
  pose proof (acq_step_dequeues t exc w f Hinv Hacq Ha) as Hout.
  destruct (task_step_spec t exc w Hinv Hacq) as [[E Hrun]|(co' & w0 & w1 & r & Hsp)].
  { specialize (Hrun co Hpc). destruct (acq_pc_family _ _ Hco); congruence. }
  set (w' := task_step t exc w) in *.
  destruct Hsp as [Hpc0 C0 I0 Hq0 _ Sr I1 Hpc1 Se Hlk Hpc' Hwk Hfin Hex Hw0 Hps Hout'].
  assert (co' = co) as -> by congruence.
  rewrite Hexc in Hex.
  assert (trace w0 = trace w) as Htr0 by (subst w0; apply trace_pstate, pstate_step_start).
  assert (lock_of w0 = lock_of w) as Hl0 by (by subst w0).
  set (wq := put_lock (MkLock (_locked (lock_of w0))
                              (remove_first f (_waiters (lock_of w0)))) w0) in *.
  assert (lock_inv wq) as Iq by apply (lock_inv_dequeue w0 f _ (inv_lock _ I0)).
  assert (resume t co (Some CancelledError) w0 =
            ((if _locked (lock_of w0) then wq else _wake_up_first wq),
             SRaise CancelledError)) as Er.
  { destruct co; try done; cbn [acq_pc] in Hco; simplify_eq; done. }
  rewrite Er in Hex. injection Hex as <- <-.
  cbn [is_cancelled_error] in Hout'.
  assert (lock_of w' = lock_of wq) as Hlq.
  { rewrite Hlk. destruct (_locked (lock_of w0)); [done|apply lock_of__wake_up_first]. }
  split; [done|]. split; [|split; [|split]].
  - rewrite Hout'. apply done_finish_self; [done|congruence].
  - rewrite (trace_pstate _ _ Hps).
    destruct (_locked (lock_of w0)); [|rewrite (trace_pstate _ _ (pstate__wake_up_first _))];
      simpl; by rewrite Htr0.
  - rewrite Hlq. simpl. by rewrite Hl0.
  - rewrite Hlq. intros Hfree h q Hq. rewrite Hout'. apply done_finish.
    simpl in Hfree. rewrite Hfree. by apply (_wake_up_first_head wq h q).
Qed.

(** ** The lock serves its queue in order, and the queue moves *)

(** C6.  The lock that guards the result slot serves its queue in the order
    of the requests, and the queue moves on.  In every run of the loop with
    a constructed scheduler and a script of caller actions, at every
    iteration:
    - the waiters that were given the lock got it in the order in which
      they queued, and none of them twice;
    - as long as a waiter stays in the queue, now and at every later
      iteration, the lock is given only to waiters that had queued before
      it, whose number was fixed when it queued: no stream of later
      requests passes it;
    - only the head of the queue is ever woken;
    - a newcomer that finds the lock held, or a waiter queued that is not
      cancelled, goes to the tail of the queue;
    - a release wakes the head of the queue;
    - every task suspended in [Lock.acquire], reader or writer, has its own
      waiter in the queue;
    - a [get_result()] that is given the lock returns the slot as it is
      then, which is the value of the last write completed, or what the
      constructor left when there was none;
    - the lock is locked exactly while one task, and one only, is suspended
      inside [async with self._lock] (in [_inner], at [await self._task]);
      every waiter in the queue belongs to a task suspended in
      [Lock.acquire]; and the wake-up of each of these tasks is registered
      on the future it waits for, or is in the ready queue when that
      future is done: no wake-up is lost;
    - the holder leaves: whatever resumes the task that holds the lock (the
      value of the task it awaits, its failure, a cancellation), that step
      releases the lock, wakes the head of the queue and ends the holder;
      and once the awaited task is done, the holder is done by the end of
      the next iteration of the loop;
    - the waiter enters: a waiter that is done (woken, or cancelled) has
      left the queue by the end of the next iteration; when the loop runs
      the wake-up of a task whose waiter was woken, and the task was not
      cancelled meanwhile, the grant is recorded, the task is inside the
      lock or has been through it, and a reader is done with the value of
      the last write completed at that moment (or what the constructor
      left); when the task was cancelled instead, its waiter leaves the
      queue and, the lock being free, the next waiter is woken.
    A queued reader is thus overtaken by no later writer, reads whole
    values only, and waits for the holders ahead of it and for nothing
    else: each of them keeps the lock until the task it awaits ends (its
    end, failure or cancellation), which is up to the unit of work. *)
Theorem lock_first_come_first_served (cf : coroutine_function) (i : Z) (args : list value)
    (ign : bool) (kwargs : list (string * value)) (script : list (Z * handle)) (n : nat) :
  let p := __init__ cf i args ign kwargs in
  caller_script script ->
  let w := run n (boot p script) in
  let Q := _waiters (lock_of w) in
  (NoDup (requests (trace w)) /\ grants (trace w) `sublist_of` requests (trace w)) /\
  (forall f, f ∈ Q ->
     exists A B, requests (trace w) = A ++ f :: B /\
       forall k, f ∈ _waiters (lock_of (run (k + n) (boot p script))) ->
         grants (trace (run (k + n) (boot p script))) `sublist_of` A) /\
  (forall f v, f ∈ Q -> state_of w f = Some (Result v) -> head Q = Some f) /\
  (_locked (lock_of w) = true \/ (exists f, f ∈ Q /\ cancelled w f = false) ->
     (lock_acquire w).2 = Some (length (futures w)) /\
     _waiters (lock_of (lock_acquire w).1) = Q ++ [length (futures w)]) /\
  (forall h q, _locked (lock_of w) = true -> Q = h :: q -> done (lock_release w).1 h = true) /\
  ((forall t f, acq w t f -> f ∈ Q) /\
   (forall t1 t2 f, acq w t1 f -> acq w t2 f -> t1 = t2)) /\
  (forall pc thrown,
     granted pc thrown w ->
     (get_result pc thrown w).2 =
       match last_write (trace w) with
       | Some v => SReturn v
       | None => if ign then SReturn Sentinel else SRaise (AttributeError "_result")
       end) /\
  ((forall t, holder w t = true -> _locked (lock_of w) = true) /\
   (forall t1 t2, holder w t1 = true -> holder w t2 = true -> t1 = t2) /\
   (_locked (lock_of w) = true -> exists t, holder w t = true) /\
   (forall f, f ∈ Q -> exists t, acq w t f) /\
   (forall t co f, pc w t = Some co -> waits_on co = Some f -> wakes w (_ready w) t f)) /\
  ((forall t exc, holder w t = true ->
      let w' := task_step t exc w in
      _locked (lock_of w') = false /\ done w' t = true /\
      _waiters (lock_of w') = Q /\
      forall h q, Q = h :: q -> done w' h = true) /\
   (forall t c tw, pc w t = Some (Inner_await c tw) -> done w tw = true ->
      done (run (S n) (boot p script)) t = true)) /\
  ((forall f, f ∈ Q -> done w f = true ->
      f ∉ _waiters (lock_of (run (S n) (boot p script)))) /\
   (forall t co f v,
      pc w t = Some co -> acq_pc co = Some f ->
      state_of w f = Some (Result v) -> must_cancel w t = false ->
      let w' := run_handle (HCallback (CbWakeup t) f) w in
      grants (trace w') = grants (trace w) ++ [f] /\
      (f ∉ _waiters (lock_of w')) /\
      (holder w' t = true \/ (done w' t = true /\ _locked (lock_of w') = false)) /\
      (co = Reader_acquire f ->
         state_of w' t =
           Some (match last_write (trace w) with
                 | Some x => Result x
                 | None => if ign then Result Sentinel
                           else Exception (AttributeError "_result")
                 end))) /\
   (forall t co f,
      pc w t = Some co -> acq_pc co = Some f ->
      must_cancel w t = true \/ cancelled w f = true ->
      let w' := run_handle (HCallback (CbWakeup t) f) w in
      (f ∉ _waiters (lock_of w')) /\ done w' t = true /\
      grants (trace w') = grants (trace w) /\
      _locked (lock_of w') = _locked (lock_of w) /\
      (_locked (lock_of w') = false ->
         forall h q, _waiters (lock_of w') = h :: q -> done w' h = true))).
Proof.
  intros p Hs w Q.
  destruct (loop_inv_run p script n eq_refl Hs) as [Hloop Hacq]. fold w in Hloop, Hacq.
  pose proof (inv_lock w Hloop) as Hinv.
  pose proof (sound_run p script n eq_refl eq_refl Hs) as Hsd. fold w in Hsd.
  pose proof (sd_full _ _ Hsd) as [M H].
  assert (_result (sched w) =
            match last_write (trace w) with
            | Some v => Some v
            | None => if ign then Some Sentinel else None
            end) as Hslot.
  { subst w. rewrite (wf_slot _ _ (wf_run p script n)). by destruct (last_write _). }
  split; [|split; [|split; [|split; [|split; [|split; [|split; [|split; [|split]]]]]]]].
  - split; [apply Hinv|].
    destruct (li_order w Hinv) as (R1 & R2 & -> & Hg & _).
    by apply sublist_inserts_r.
  - intros f Hf. by apply served_before.
  - apply Hinv.
  - intros Hq. destruct (acquire_queues w Hq) as (? & ? & ?). done.
  - intros h q Hl Hq. by eapply release_wakes_head.
  - split; [apply (acq_queued w Hacq)|apply (acq_unique w Hacq)].
  - intros pc thrown Hg. rewrite (get_result_granted _ _ _ Hg), Hslot.
    destruct (last_write _); [done|]. by destruct ign.
  - split; [|split; [|split; [|split]]].
    + intros t. by apply (mx_locked _ _ M).
    + intros t1 t2. by apply (mx_unique _ _ M).
    + intros Hl. destruct (H Hl) as (t & _ & Ht). by exists t.
    + apply (sd_orphan _ _ Hsd).
    + intros t co f Hpc Hw. apply (sd_wakes _ _ Hsd t co f Hpc Hw).
  - split.
    + intros t exc Hh. by apply (holder_step_releases t exc w Hloop Hacq (conj M H)).
    + intros t c tw Hpc Hd. by apply (holder_leaves_once w t c tw).
  - split; [|split].
    + intros f Hf Hd. by apply (waiter_leaves_once w f).
    + intros t co f v Hpc Hco Hf Hmc.
      destruct (woken_wakeup_grants t f v w co Hloop Hacq Hpc Hco Hf Hmc)
        as (H1 & H2 & H3 & H4).
      split; [done|]. split; [done|]. split; [done|].
      intros Hr. rewrite (H4 Hr), Hslot. destruct (last_write _); [done|]. by destruct ign.
    + intros t co f Hpc Hco Hc. by apply (cancelled_wakeup_passes t f w co).
Qed.

(** In the scenario of [reader_between_two_writers]: at 0.03 s the first
    writer holds the lock, the reader (waiter 9) and the second writer
    (waiter 16) are queued in this order; the second writer has not been
    woken, a newcomer would queue behind it.  At 0.5 s the work of the first
    writer is done (iteration 14): that writer, task 1, is the one holder,
    and one iteration later it is done.  Then (iteration 15) the waiter of
    the reader has been woken: one iteration later it has left the queue,
    and the wake-up of the reader, task 8, gives it the lock and the value
    0 of the first writer. *)
Lemma lock_first_come_first_served_witness :
  (let w := run 12 world_two_writers in
   (forall v, state_of w 16 = Some (Result v) -> False) /\
   (lock_acquire w).2 = Some (length (futures w)) /\
   done (lock_release w).1 9 = true) /\
  (let w := run 14 world_two_writers in
   (forall t, holder w t = true -> t = 1%nat) /\
   done (run 15 world_two_writers) 1 = true /\
   done (task_step 1 None w) 9 = true) /\
  (let w := run 15 world_two_writers in
   (9%nat ∉ _waiters (lock_of (run 16 world_two_writers))) /\
   state_of (run_handle (HCallback (CbWakeup 8) 9) w) 8 = Some (Result (Plain (VInt 0)))).
Proof.
  assert (caller_script [(0, HCallStart None); (1, HCallGetResult);
                         (2, HCallStop (Some 500)); (3, HCallStart None)]) as Hs.
  { by repeat constructor. }
  split; [|split].
  - intros w.
    destruct (lock_first_come_first_served call_index 200 [] false [] _ 12 Hs)
      as (_ & _ & Hhead & Hacq & Hrel & _).
    fold world_two_writers in Hhead, Hacq, Hrel. fold w in Hhead, Hacq, Hrel.
    split; [|split].
    + intros v Hv.
      assert (head (_waiters (lock_of w)) = Some 16%nat) as Hh.
      { apply (Hhead 16%nat v); [|done]. vm_compute. by repeat constructor. }
      by vm_compute in Hh.
    + apply Hacq. left. by vm_compute.
    + apply (Hrel 9%nat [16%nat]); by vm_compute.
  - intros w.
    destruct (lock_first_come_first_served call_index 200 [] false [] _ 14 Hs)
      as (_ & _ & _ & _ & _ & _ & _ & (_ & Huniq & _) & (Hstep & Hleave) & _).
    fold world_two_writers in Huniq, Hstep, Hleave. fold w in Huniq, Hstep, Hleave.
    assert (holder w 1 = true) as H1 by (by vm_compute).
    split; [|split].
    + intros t Ht. by apply Huniq.
    + apply (Hleave 1%nat 1%nat 5%nat); by vm_compute.
    + destruct (Hstep 1%nat None H1) as (_ & _ & _ & Hhd).
      apply (Hhd 9%nat [16%nat]). by vm_compute.
  - intros w.
    destruct (lock_first_come_first_served call_index 200 [] false [] _ 15 Hs)
      as (_ & _ & _ & _ & _ & _ & _ & _ & _ & (Hout & Hgr & _)).
    fold world_two_writers in Hout, Hgr. fold w in Hout, Hgr.
    split.
    + apply Hout; [|by vm_compute]. vm_compute. by repeat constructor.
    + assert (pc w 8 = Some (Reader_acquire 9)) as Hpc by (by vm_compute).
      assert (state_of w 9 = Some (Result (Plain VTrue))) as Hst by (by vm_compute).
      assert (must_cancel w 8 = false) as Hmc by (by vm_compute).
      destruct (Hgr 8%nat (Reader_acquire 9) 9%nat (Plain VTrue) Hpc eq_refl Hst Hmc)
        as (_ & _ & _ & Hval).
      etrans; [exact (Hval eq_refl)|by vm_compute].
Defined.
